(** * newspaper_pdf: ordering and rendering core of [app.py]

    A shallow embedding of the functions of [app.py] that carry the
    ordering and layout policy: [build_sort_key] and
    [build_sort_key_with_map], [generate_pdf] with its sort, its page
    loop and the saving of the document, [scale_image], [add_label],
    and the handler [generate].

    Conventions of the embedding.
    - A Python [str] is a [string]; the model covers names made of ASCII
      characters, where [str.lower] maps [A-Z] to [a-z] and leaves every
      other character alone, [\s] is ASCII white space and [\d] is
      [0-9].
    - A Python [int] is a [Z] (list positions and lengths are [nat]).
      The value of [int(...)] of a digit string is [Str.int]; that
      [int(...)] raises for more than 4300 digits is [int_of_digits],
      which decides whether the sort of [generate_pdf] raises.
    - A Python [float] is an IEEE-754 binary64 number, modelled with the
      [spec_float] operations of the Standard Library at precision 53 and
      maximal exponent 1024.
    - A [pathlib.Path] is the record of the properties the program reads
      from it ([str(p)], [p.stem], [p.name]).
    - An exception is a value of [exn]; a call that may raise returns a
      [result].
    - Pillow is an interface ([Pillow]): decoding, resizing, text
      measurement and writing the document are its operations, and
      [load_font] returns a font for every size, Pillow's default font
      at the last.
    - The system, werkzeug and Flask are interfaces too ([Server],
      [Uploads]); each of their calls that may raise returns a
      [result]. *)

From stdpp Require Import gmap strings list sorting pretty.
From Stdlib Require Import ZArith Lia Ascii String SpecFloat Zpower.

Local Open Scope Z_scope.

(** ** Python [str] operations *)

Module Str.

Definition code (c : ascii) : N := N_of_ascii c.

(** [c.lower()] on one ASCII character. *)
Definition lower_char (c : ascii) : ascii :=
  if (65 <=? code c)%N && (code c <=? 90)%N
  then ascii_of_N (code c + 32) else c.

(** [s.lower()] *)
Fixpoint lower (s : string) : string :=
  match s with
  | EmptyString => EmptyString
  | String c t => String (lower_char c) (lower t)
  end.

(** [s.startswith(p)] *)
Fixpoint startswith (p s : string) : bool :=
  match p, s with
  | EmptyString, _ => true
  | String _ _, EmptyString => false
  | String a p', String b s' => if Ascii.eqb a b then startswith p' s' else false
  end.

(** [kw in s]: [kw] occurs in [s] as a contiguous substring. *)
Fixpoint contains (kw s : string) : bool :=
  startswith kw s ||
  match s with
  | EmptyString => false
  | String _ t => contains kw t
  end.

(** Membership of a character in a string used as a character set. *)
Fixpoint mem (c : ascii) (chars : string) : bool :=
  match chars with
  | EmptyString => false
  | String d t => Ascii.eqb c d || mem c t
  end.

(** [s.lstrip(chars)], [s.rstrip(chars)], [s.strip(chars)] *)
Fixpoint lstrip (chars s : string) : string :=
  match s with
  | EmptyString => EmptyString
  | String c t => if mem c chars then lstrip chars t else s
  end.

Definition rstrip (chars s : string) : string :=
  String.rev (lstrip chars (String.rev s)).

Definition strip (chars s : string) : string :=
  rstrip chars (lstrip chars s).

(** [\d] on ASCII text. *)
Definition is_digit (c : ascii) : bool :=
  (48 <=? code c)%N && (code c <=? 57)%N.

(** [\s] on ASCII text: tab, newline, vertical tab, form feed, carriage
    return, the four separators 28..31, and space. *)
Definition is_space (c : ascii) : bool :=
  ((9 <=? code c)%N && (code c <=? 13)%N)
  || ((28 <=? code c)%N && (code c <=? 32)%N).

Definition digit_val (c : ascii) : Z := Z.of_N (code c) - 48.

(** [int(s)] for a string of decimal digits. *)
Fixpoint int_acc (acc : Z) (s : string) : Z :=
  match s with
  | EmptyString => acc
  | String c t => int_acc (10 * acc + digit_val c) t
  end.

Definition int (s : string) : Z := int_acc 0 s.

(** Every character of [s] satisfies [p]. *)
Fixpoint all (p : ascii -> bool) (s : string) : bool :=
  match s with
  | EmptyString => true
  | String c t => p c && all p t
  end.

(** The first character of [s], if any, satisfies [p]. *)
Definition head_is (p : ascii -> bool) (s : string) : bool :=
  match s with
  | EmptyString => false
  | String c _ => p c
  end.

(** The longest prefix of [s] whose characters satisfy [p], and the rest. *)
Fixpoint span (p : ascii -> bool) (s : string) : string * string :=
  match s with
  | EmptyString => (EmptyString, EmptyString)
  | String c t =>
      if p c then let '(a, b) := span p t in (String c a, b)
      else (EmptyString, s)
  end.

End Str.

(** ** The page-number pattern

    [PAGE_RE = re.compile(r'page\s*no\.?\s*(\d+)', re.IGNORECASE)].
    The matcher follows the pattern element by element; every repetition
    is greedy.  Theorems below relate it to the set of all ways of
    splitting the text according to the pattern. *)

Module PageRe.
Import Str.

(** A literal of the pattern, compared case-insensitively; the result is
    the text after the literal. *)
Fixpoint lit (p s : string) : option string :=
  match p, s with
  | EmptyString, _ => Some s
  | String _ _, EmptyString => None
  | String a p', String b s' =>
      if Ascii.eqb (lower_char a) (lower_char b) then lit p' s' else None
  end.

(** [\s*] *)
Definition skip_spaces (s : string) : string := snd (span is_space s).

(** [\.?] *)
Definition opt_dot (s : string) : string :=
  match s with
  | String c t => if Ascii.eqb c "." then t else s
  | EmptyString => s
  end.

(** A match of the whole pattern at the start of [s]: group 1 and the
    text after the match. *)
Definition match_here (s : string) : option (string * string) :=
  match lit "page" s with
  | None => None
  | Some r1 =>
      match lit "no" (skip_spaces r1) with
      | None => None
      | Some r3 =>
          let '(ds, r6) := span is_digit (skip_spaces (opt_dot r3)) in
          match ds with
          | EmptyString => None
          | String _ _ => Some (ds, r6)
          end
      end
  end.

(** [PAGE_RE.search(s)]: the text before the leftmost match, group 1 of
    that match, and the text after it. *)
Fixpoint search (s : string) : option (string * string * string) :=
  match match_here s with
  | Some (ds, rest) => Some (EmptyString, ds, rest)
  | None =>
      match s with
      | EmptyString => None
      | String c t =>
          match search t with
          | Some (pre, ds, rest) => Some (String c pre, ds, rest)
          | None => None
          end
      end
  end.

(** [PAGE_RE.sub('', s)]: scanning resumes after each match; [n] bounds
    the number of matches. *)
Fixpoint sub_fuel (n : nat) (s : string) : string :=
  match n with
  | O => s
  | S n' =>
      match search s with
      | None => s
      | Some (pre, _, rest) => pre +:+ sub_fuel n' rest
      end
  end.

Definition sub_empty (s : string) : string := sub_fuel (String.length s) s.

End PageRe.

(** ** Sort keys *)

Record Path := { path_str : string; stem : string; name : string }.

Definition key : Type := nat * string * Z * nat.

Section SortKey.
Variable priority : list string.
Variable filename_map : option (gmap string string).

(** The name a page is ranked and labelled by: the entry of
    [filename_map] under [str(path)] when there is one, [path.stem]
    otherwise. *)
Definition display_name (path : Path) : string :=
  match filename_map with
  | Some m => default (stem path) (m !! path_str path)
  | None => stem path
  end.

Definition priority_l : list string := map Str.lower priority.

(** The loop over [enumerate(priority_l)] with its [break]. *)
Fixpoint pr_rank_loop (i : nat) (kws : list string) (nm : string) (dflt : nat) : nat :=
  match kws with
  | [] => dflt
  | kw :: rest =>
      if Str.contains kw nm then i else pr_rank_loop (S i) rest nm dflt
  end.

Definition pr_rank (nm : string) : nat :=
  pr_rank_loop 0 priority_l nm (List.length priority_l + 1)%nat.

Definition page_num (nm : string) : Z :=
  match PageRe.search nm with
  | Some (_, ds, _) => Str.int ds
  | None => 0
  end.

Definition base (nm : string) : string :=
  Str.strip "- _" (PageRe.sub_empty nm).

Definition sort_key (pair : nat * Path) : key :=
  let '(idx, path) := pair in
  let nm := Str.lower (display_name path) in
  (pr_rank nm, base nm, page_num nm, idx).

End SortKey.

(** ** Comparison of keys

    Python compares tuples lexicographically, integers by value and
    strings lexicographically by character code. *)

Definition lex (c : comparison) (d : comparison) : comparison :=
  match c with
  | Eq => d
  | _ => c
  end.

Definition cmp_pair {A B : Type} (ca : A -> A -> comparison) (cb : B -> B -> comparison)
    (x y : A * B) : comparison :=
  lex (ca x.1 y.1) (cb x.2 y.2).

Definition key_compare : key -> key -> comparison :=
  cmp_pair (cmp_pair (cmp_pair Nat.compare String.compare) Z.compare) Nat.compare.

(** [a < b] on keys. *)
Definition key_ltb (a b : key) : bool :=
  match key_compare a b with
  | Lt => true
  | _ => false
  end.

(** A comparison function that decides a strict total order. *)
Class Ordered {A : Type} (cmp : A -> A -> comparison) : Prop := {
  cmp_eq : forall a b, cmp a b = Eq <-> a = b;
  cmp_antisym : forall a b, cmp b a = CompOpp (cmp a b);
  cmp_trans : forall a b c, cmp a b = Lt -> cmp b c = Lt -> cmp a c = Lt
}.

(** ** [list.sort(key=...)]

    The sort is stable and compares keys with [<] only: an element is
    placed before the first element of the sorted tail whose key is not
    smaller than its own. *)

Section Sort.
Context {A : Type}.
Variable f : A -> key.

Fixpoint insert_by (x : A) (l : list A) : list A :=
  match l with
  | [] => [x]
  | y :: l' =>
      if key_ltb (f y) (f x) then y :: insert_by x l' else x :: y :: l'
  end.

Definition sort_by (l : list A) : list A := foldr insert_by [] l.

End Sort.

(** [list(enumerate(l))] *)
Definition enumerate {A : Type} (l : list A) : list (nat * A) :=
  imap (fun i x => (i, x)) l.

(** ** The Ranker: lines 109-112 of [generate_pdf] *)

Section Rank.
Variable priority : list string.
Variable filename_map : option (gmap string string).

(** [indexed] after [indexed.sort(key=...)]. *)
Definition ranked_pairs (image_paths : list Path) : list (nat * Path) :=
  sort_by (sort_key priority filename_map) (enumerate image_paths).

(** [ordered] *)
Definition rank (image_paths : list Path) : list Path :=
  (ranked_pairs image_paths).*2.

(** The first three components of a page's key. *)
Definition group_key (p : Path) : nat * string * Z :=
  let nm := Str.lower (display_name filename_map p) in
  (pr_rank priority nm, base nm, page_num nm).

End Rank.

Definition DEFAULT_PRIORITY : list string :=
  ["dainik bhaskar"; "city bhaskar"; "rajasthan patrika"; "first india";
   "sach bedhadak"].

(** ** The pattern, read as a set of splittings

    [Token tok ds]: the text [tok] is matched by the whole pattern with
    group 1 equal to [ds].  Nothing here is greedy or ordered: every way
    of splitting [tok] counts. *)

Module PagePattern.
Import Str.

Definition Token (tok ds : string) : Prop :=
  exists p ws1 n dot ws2,
    tok = p +:+ ws1 +:+ n +:+ dot +:+ ws2 +:+ ds
    /\ lower p = "page"
    /\ all is_space ws1 = true
    /\ lower n = "no"
    /\ (dot = "" \/ dot = ".")
    /\ all is_space ws2 = true
    /\ all is_digit ds = true
    /\ ds <> "".

(** [s] has a match of the pattern that starts after [pre]. *)
Definition MatchAt (s pre : string) : Prop :=
  exists tok ds rest, s = pre +:+ tok +:+ rest /\ Token tok ds.

Definition NoMatch (s : string) : Prop := forall pre, ~ MatchAt s pre.

(** The match [re.search] reports: it starts at the leftmost position
    where some match starts, and its digit group is not followed by a
    further digit. *)
Definition FirstMatch (s pre ds rest : string) : Prop :=
  (exists tok, s = pre +:+ tok +:+ rest /\ Token tok ds)
  /\ head_is is_digit rest = false
  /\ (forall pre', MatchAt s pre' -> (String.length pre <= String.length pre')%nat).

End PagePattern.

(** [a <= b] on keys: [b < a] does not hold. *)
Definition key_le (a b : key) : Prop := key_ltb b a = false.

(** The order [sort_by f] sorts by. *)
Definition le_by {A : Type} (f : A -> key) (x y : A) : Prop := key_le (f x) (f y).

(** Comparison of the first three components of a key. *)
Definition group_compare : nat * string * Z -> nat * string * Z -> comparison :=
  cmp_pair (cmp_pair Nat.compare String.compare) Z.compare.

(** [kw] occurs in [s] as a contiguous substring. *)
Definition Occurs (kw s : string) : Prop :=
  exists pre post, s = pre +:+ kw +:+ post.

(** A page's display name contains a keyword of the priority list,
    compared case-insensitively. *)
Definition matches_keyword (priority : list string) (d : string) : Prop :=
  exists kw, kw ∈ priority /\ Occurs (Str.lower kw) (Str.lower d).

(** ** Exceptions *)

Inductive exn : Type :=
| ValueError (msg : string)
| ZeroDivisionError
| OverflowError
| OSError (msg : string).

(** The outcome of a call that may raise. *)
Definition result (A : Type) : Type := exn + A.

#[global] Instance result_ret : MRet result := fun A x => inr x.

#[global] Instance result_bind : MBind result := fun A B k r =>
  match r with
  | inl e => inl e
  | inr a => k a
  end.

(** The message of [raise ValueError('No images processed')]. *)
Definition EmptyBatchError : exn := ValueError "No images processed".

(** ** The exception of the sort

    [int(m.group(1))] raises for a string of more than 4300 digits, the
    default of [sys.get_int_max_str_digits()].  [list.sort(key=...)]
    computes the keys in list order before it compares any, and the
    first exception of a key leaves the sort; nothing else in the key
    or in the comparison of two keys raises. *)

Definition int_max_str_digits : nat := 4300.

Definition int_limit_error (ds : string) : exn :=
  ValueError
    ("Exceeds the limit (4300 digits) for integer string conversion: value has "
     +:+ pretty (String.length ds)
     +:+ " digits; use sys.set_int_max_str_digits() to increase the limit").

(** [int(ds)] for a string of decimal digits. *)
Definition int_of_digits (ds : string) : result Z :=
  if (int_max_str_digits <? String.length ds)%nat then inl (int_limit_error ds)
  else inr (Str.int ds).

Section SortError.
Variable filename_map : option (gmap string string).

(** The exception [sort_key] raises for a pair, if it raises. *)
Definition key_error (pair : nat * Path) : option exn :=
  let '(idx, path) := pair in
  let nm := Str.lower (display_name filename_map path) in
  match PageRe.search nm with
  | Some (_, ds, _) =>
      match int_of_digits ds with
      | inl e => Some e
      | inr _ => None
      end
  | None => None
  end.

Fixpoint first_key_error (indexed : list (nat * Path)) : option exn :=
  match indexed with
  | [] => None
  | item :: rest =>
      match key_error item with
      | Some e => Some e
      | None => first_key_error rest
      end
  end.

(** The exception [indexed.sort(key=...)] raises, if it raises. *)
Definition sort_error (image_paths : list Path) : option exn :=
  first_key_error (enumerate image_paths).

End SortError.

(** ** Python [float] and the mixed [int]/[float] arithmetic of [scale_image] *)

Module Float.

Definition prec : Z := 53.
Definition emax : Z := 1024.

Definition float : Type := spec_float.

(** [1.0] *)
Definition one : float := SFone prec emax.

Definition is_finite (x : float) : bool :=
  match x with
  | S754_zero _ | S754_finite _ _ _ => true
  | S754_infinity _ | S754_nan => false
  end.

(** An integer as an unrounded operand: mantissa [|z|], exponent 0. *)
Definition exact (z : Z) : float :=
  match z with
  | Z0 => S754_zero false
  | Zpos p => S754_finite false p 0
  | Zneg p => S754_finite true p 0
  end.

(** [a / b] on two [int]s: the quotient of the integers, rounded once to
    the nearest float. *)
Definition int_truediv (a b : Z) : result float :=
  if b =? 0 then inl ZeroDivisionError
  else
    let q := SFdiv prec emax (exact a) (exact b) in
    if is_finite q then inr q else inl OverflowError.

(** [float(z)] *)
Definition of_int (z : Z) : result float :=
  let x := binary_normalize prec emax z 0 false in
  if is_finite x then inr x else inl OverflowError.

(** [z * x] for an [int] [z] and a [float] [x]. *)
Definition int_mul (z : Z) (x : float) : result float :=
  fz ← of_int z; mret (SFmul prec emax fz x).

(** [int(x)]: truncation towards zero. *)
Definition to_int (x : float) : result Z :=
  match x with
  | S754_zero _ => inr 0
  | S754_finite s m e => inr (cond_Zopp s (Z.shiftl (Zpos m) e))
  | S754_infinity _ => inl OverflowError
  | S754_nan => inl (ValueError "cannot convert float NaN to integer")
  end.

(** [a < b] *)
Definition ltb (a b : float) : bool := SFltb a b.

(** [min(a, b)]: [b] when [b < a], else [a]. *)
Definition min (a b : float) : float := if ltb b a then b else a.

End Float.

(** ** Images and the imaging library

    An image is its size and a description of how its pixels were
    produced. *)

Inductive Pixels : Type :=
| Decoded (source : string)
| Resized (from : Pixels)
| Labelled (from : Pixels) (text : string) (box_w box_h : Z).

Record Image := { width : Z; height : Z; pixels : Pixels }.

(** The calls into Pillow: [Image.open(p).convert('RGB')],
    [im.resize(size, Image.LANCZOS)], [textbbox((0, 0), text, font)]
    for the font [load_font(font_size)] returns, and
    [first.save(path, save_all=True, append_images=rest)].  A resize
    that returns gives an image of the requested size, and it returns
    for every size with positive width and height; nothing is assumed
    of a save. *)
Class Pillow := {
  open_rgb : Path -> result Image;
  resize : Image -> Z -> Z -> result Image;
  textbbox : Z -> string -> Z * Z * Z * Z;
  save_all : Image -> string -> list Image -> result unit;
  resize_size : forall im w h im',
    resize im w h = inr im' -> width im' = w /\ height im' = h;
  resize_returns : forall im w h,
    0 < w -> 0 < h -> exists im', resize im w h = inr im'
}.

(** The calls of the handler into the system, werkzeug and Flask that
    may raise: [tempfile.mkdtemp()], [file.save(path)] for the upload
    with a file name, and [send_file(path, as_attachment=True,
    download_name=..., mimetype='application/pdf')]; [today] is
    [date.today().isoformat()]. *)
Class Server := {
  mkdtemp : result string;
  save_upload : string -> string -> result unit;
  today : string;
  send_file : string -> string -> result unit
}.

Section Renderer.
Context `{Pillow} `{Server}.

(** One bound of [scale_image]: [scale = min(scale, bound / size)] when
    the bound is set and exceeded. *)
Definition apply_bound (scale : Float.float) (size : Z) (bound : option Z)
  : result Float.float :=
  match bound with
  | Some b =>
      if b <? size then q ← Float.int_truediv b size; mret (Float.min scale q)
      else mret scale
  | None => mret scale
  end.

(** The scale factor [scale_image] computes before it tests [scale < 1.0]. *)
Definition scale_factor (w h : Z) (max_w max_h : option Z) : result Float.float :=
  scale ← apply_bound Float.one w max_w;
  apply_bound scale h max_h.

Definition scale_image (im : Image) (max_w max_h : option Z) : result Image :=
  match max_w, max_h with
  | None, None => mret im
  | _, _ =>
      let w := width im in
      let h := height im in
      scale ← scale_factor w h max_w max_h;
      if Float.ltb scale Float.one then
        fw ← Float.int_mul w scale;
        nw ← Float.to_int fw;
        fh ← Float.int_mul h scale;
        nh ← Float.to_int fh;
        resize im nw nh
      else mret im
  end.

Definition add_label (image : Image) (label_text : string) (font : Z) : Image :=
  let '(x0, y0, x1, y1) := textbbox font label_text in
  let text_w := x1 - x0 in
  let text_h := y1 - y0 in
  let padding_x := 12 in
  let padding_y := 10 in
  let box_w := text_w + padding_x * 2 in
  let box_h := text_h + padding_y * 2 in
  {| width := width image;
     height := height image + box_h;
     pixels := Labelled (pixels image) label_text box_w box_h |}.

(** What [generate_pdf] returns or raises, the document it saved, if any,
    and the warnings it printed (page name and exception). *)
Record Outcome := {
  returned : result nat;
  document : option (list Image);
  warnings : list (string * exn)
}.

Section GeneratePdf.
Variable priority : list string.
Variable all_label : option string.
Variable font_size : Z.
Variable max_w max_h : option Z.
Variable no_label : bool.
Variable output_path : Path.
Variable filename_map : option (gmap string string).

(** The label of a page: [all_label] unless it is [None]. *)
Definition label_for (p : Path) : string :=
  match all_label with
  | Some l => l
  | None => display_name filename_map p
  end.

(** The body of the [try] for one page. *)
Definition process_page (p : Path) : result Image :=
  im ← open_rgb p;
  im ← scale_image im max_w max_h;
  if no_label then mret im else mret (add_label im (label_for p) font_size).

(** The loop over [ordered]: a page that raises is reported and left out. *)
Fixpoint page_loop (ordered : list Path) (processed : list Image)
    (log : list (string * exn)) : list Image * list (string * exn) :=
  match ordered with
  | [] => (processed, log)
  | p :: rest =>
      match process_page p with
      | inr im => page_loop rest (processed ++ [im]) log
      | inl e => page_loop rest processed (log ++ [(name p, e)])
      end
  end.

(** The sort stands before the loop and the save after it, both
    outside the [try]: an exception of either leaves [generate_pdf]. *)
Definition generate_pdf (image_paths : list Path) : Outcome :=
  match sort_error filename_map image_paths with
  | Some e => {| returned := inl e; document := None; warnings := [] |}
  | None =>
      let ordered := rank priority filename_map image_paths in
      let '(processed, log) := page_loop ordered [] [] in
      match processed with
      | [] => {| returned := inl EmptyBatchError; document := None; warnings := log |}
      | first :: rest =>
          match save_all first (path_str output_path) rest with
          | inl e => {| returned := inl e; document := None; warnings := log |}
          | inr _ =>
              {| returned := inr (List.length processed);
                 document := Some (first :: rest);
                 warnings := log |}
          end
      end
  end.

End GeneratePdf.

(** ** [generate], from the options to the response

    [request.form] is a map from field names to strings.  This is
    [generate] from the test for an empty upload on, inside its [try]:
    the call of [generate_pdf], the call of [send_file] and the
    response, any exception giving the response 500 with its message.
    The two label options are read from the form; the other options,
    the saved files and the output path are taken as already read. *)

Inductive Response : Type :=
| BadRequest (error : string)
| ServerError (e : exn)
| SendFile (pages : list Image).

Definition form_all_label (form : gmap string string) : option string :=
  match form !! "all_label" with
  | Some l => if decide (l = "") then None else Some l
  | None => None
  end.

Definition form_no_label (form : gmap string string) : bool :=
  bool_decide (default "false" (form !! "no_label") = "true").

Definition generate (form : gmap string string) (priority : list string)
    (font_size : Z) (max_w max_h : option Z)
    (image_paths : list Path) (filename_map : gmap string string)
    (output_filename : string) (output_path : Path) : Response :=
  let all_label := form_all_label form in
  let no_label := form_no_label form in
  match image_paths with
  | [] => BadRequest "No valid image files uploaded"
  | _ :: _ =>
      let out := generate_pdf priority all_label font_size max_w max_h
                   no_label output_path (Some filename_map) image_paths in
      match returned out with
      | inl e => ServerError e
      | inr _ =>
          match send_file (path_str output_path) output_filename with
          | inl e => ServerError e
          | inr _ => SendFile (default [] (document out))
          end
      end
  end.

End Renderer.

(** The label an image carries, if it has one. *)
Definition label_text (im : Image) : option string :=
  match pixels im with
  | Labelled _ text _ _ => Some text
  | _ => None
  end.

(** The upload of three scans as [generate] stores it: a sanitised file
    name under the temporary directory, and the original name in the map. *)
Definition upload (dir secure : string) : Path :=
  {| path_str := dir +:+ "/" +:+ secure +:+ ".jpg";
     stem := secure;
     name := secure +:+ ".jpg" |}.

Definition dainik2 : Path := upload "/tmp/up" "Dainik_Bhaskar_Page_2".
Definition dainik1 : Path := upload "/tmp/up" "Dainik_Bhaskar_Page_1".
Definition city1 : Path := upload "/tmp/up" "City_Bhaskar_Page_1".

(** Display names with and without the extension. *)
Definition names_with_ext : gmap string string :=
  list_to_map [(path_str dainik2, "Dainik Bhaskar Page 2.jpg");
               (path_str dainik1, "Dainik Bhaskar Page 1.jpg");
               (path_str city1, "City Bhaskar Page 1.jpg")].

Definition names_stem : gmap string string :=
  list_to_map [(path_str dainik2, "Dainik Bhaskar Page 2");
               (path_str dainik1, "Dainik Bhaskar Page 1");
               (path_str city1, "City Bhaskar Page 1")].

(** The path [generate] saves the document under. *)
Definition out_pdf : Path :=
  {| path_str := "/tmp/up/newspapers_2026-01-15.pdf";
     stem := "newspapers_2026-01-15";
     name := "newspapers_2026-01-15.pdf" |}.



(** The page-number pattern as the specification words it: "page",
    optional whitespace, an optional ".", optional whitespace, digits. *)
Definition SpecToken (tok ds : string) : Prop :=
  exists p ws1 dot ws2,
    tok = p +:+ ws1 +:+ dot +:+ ws2 +:+ ds
    /\ Str.lower p = "page"
    /\ Str.all Str.is_space ws1 = true
    /\ (dot = "" \/ dot = ".")
    /\ Str.all Str.is_space ws2 = true
    /\ Str.all Str.is_digit ds = true
    /\ ds <> "".

(** [PAGE_RE.sub('', s, count=1)]: only the first match removed. *)
Definition sub_first (s : string) : string :=
  match PageRe.search s with
  | Some (pre, _, rest) => pre +:+ rest
  | None => s
  end.

(** The base name as the specification words it for a name with several
    page-number tokens: the first match removed, later ones kept. *)
Definition base_first_only (nm : string) : string :=
  Str.strip "- _" (sub_first nm).

Section RendererSpec.
Context `{Pillow}.
Variable all_label : option string.
Variable font_size : Z.
Variable max_w max_h : option Z.
Variable no_label : bool.
Variable filename_map : option (gmap string string).

(** The images of the pages whose processing returns, in order. *)
Definition processed_pages (ordered : list Path) : list Image :=
  omap (fun p =>
          match process_page all_label font_size max_w max_h no_label filename_map p with
          | inr im => Some im
          | inl _ => None
          end) ordered.

(** The pages whose processing raises, each with its exception, in order. *)
Definition skipped_pages (ordered : list Path) : list (string * exn) :=
  omap (fun p =>
          match process_page all_label font_size max_w max_h no_label filename_map p with
          | inr _ => None
          | inl e => Some (name p, e)
          end) ordered.

End RendererSpec.

(** ** A small imaging library

    Every path with a non-empty stem decodes to a 1600 x 1000 image; a
    resize to a size below 1 x 1 raises; text is as wide as its length
    times the font size; a document is saved under every path but the
    empty one. *)

Definition simple_open (p : Path) : result Image :=
  if decide (stem p = "") then inl (OSError "cannot identify image file")
  else inr {| width := 1600; height := 1000; pixels := Decoded (path_str p) |}.

Definition simple_resize (im : Image) (w h : Z) : result Image :=
  if (w <? 1) || (h <? 1) then inl (ValueError "height and width must be > 0")
  else inr {| width := w; height := h; pixels := Resized (pixels im) |}.

Definition simple_textbbox (font : Z) (text : string) : Z * Z * Z * Z :=
  (0, 0, font * Z.of_nat (String.length text), font).

Definition simple_save (first : Image) (path : string) (rest : list Image)
  : result unit :=
  if decide (path = "") then inl (OSError "No such file or directory") else inr tt.

Definition simple_pillow : Pillow.
Proof.
  refine {| open_rgb := simple_open;
            resize := simple_resize;
            textbbox := simple_textbbox;
            save_all := simple_save |}.
  - intros im w h im'. unfold simple_resize.
    destruct ((w <? 1) || (h <? 1)); [discriminate |].
    intros E. injection E as <-. split; reflexivity.
  - intros im w h Hw Hh. unfold simple_resize.
    destruct (w <? 1) eqn:Ew; [apply Z.ltb_lt in Ew; lia |].
    destruct (h <? 1) eqn:Eh; [apply Z.ltb_lt in Eh; lia |].
    eexists. reflexivity.
Defined.

(** A small server: the temporary directory is [/tmp/up]; an upload is
    saved under every path of at most 255 characters; every file is
    sent. *)
Definition simple_server : Server :=
  {| mkdtemp := inr "/tmp/up";
     save_upload := fun original_name path =>
       if (255 <? String.length path)%nat then inl (OSError "File name too long")
       else inr tt;
     today := "2026-01-15";
     send_file := fun path download_name => inr tt |}.

(** A float that [scale_image] may hold in [scale]: zero, or finite
    with a mantissa of at most 53 digits. *)
Definition scale_ok (s : Float.float) : Prop :=
  match s with
  | S754_zero _ => True
  | S754_finite _ m _ => Zpos m < 2 ^ 53
  | _ => False
  end.


(** The position of a float in the order of [<]: the class (negative
    infinity, negative, zero, positive, positive infinity), then the
    exponent and the mantissa, both counted downwards for a negative
    number. *)
Definition float_key (x : Float.float) : Z * Z * Z :=
  match x with
  | S754_infinity true => (-2, 0, 0)
  | S754_finite true m e => (-1, - e, - Zpos m)
  | S754_zero _ => (0, 0, 0)
  | S754_finite false m e => (1, e, Zpos m)
  | S754_infinity false => (2, 0, 0)
  | S754_nan => (3, 0, 0)
  end.

Definition key3_lt (a b : Z * Z * Z) : Prop :=
  a.1.1 < b.1.1
  \/ (a.1.1 = b.1.1 /\ (a.1.2 < b.1.2 \/ (a.1.2 = b.1.2 /\ a.2 < b.2))).

(** [s] is a least element of [cands] for [<] on floats. *)
Definition is_min_of (s : Float.float) (cands : list Float.float) : Prop :=
  s ∈ cands /\ forall q, q ∈ cands -> Float.ltb q s = false.

(** The ratio [bound / size] of a bound that is set and exceeded. *)
Definition exceeded_ratio (size : Z) (bound : option Z) : list Float.float :=
  match bound with
  | Some b =>
      if b <? size then
        match Float.int_truediv b size with
        | inr q => [q]
        | inl _ => []
        end
      else []
  | None => []
  end.

(** ** [build_sort_key]: the key without a map of original names *)

Definition build_sort_key (priority : list string) (pair : nat * Path) : key :=
  let priority_l := map Str.lower priority in
  let '(idx, path) := pair in
  let nm := Str.lower (stem path) in
  let pr_rank := pr_rank_loop 0 priority_l nm (List.length priority_l + 1)%nat in
  let page_num :=
    match PageRe.search nm with
    | Some (_, ds, _) => Str.int ds
    | None => 0
    end in
  let base := Str.strip "- _" (PageRe.sub_empty nm) in
  (pr_rank, base, page_num, idx).

#[global] Instance Path_eq_dec : EqDecision Path.
Proof. solve_decision. Defined.

(** A character that [strip('- _')] removes. *)
Definition is_sep (c : ascii) : bool := Str.mem c "- _".

(** Scans of one paper whose names carry "Page No". *)
Definition patrika10 : Path := upload "/tmp/up" "Rajasthan_Patrika_Page_No_10".
Definition patrika2 : Path := upload "/tmp/up" "Rajasthan_Patrika_Page_No._2".
Definition patrika_front : Path := upload "/tmp/up" "Rajasthan_Patrika".

Definition names_patrika : gmap string string :=
  list_to_map [(path_str patrika10, "Rajasthan Patrika Page No 10");
               (path_str patrika2, "Rajasthan Patrika Page No. 2");
               (path_str patrika_front, "Rajasthan Patrika");
               (path_str city1, "City Bhaskar Page No 7")].

(** ** The label band

    [box_h] of [add_label]: the height of the label's text and the
    padding above and below it. *)

Section LabelBand.
Context `{Pillow}.

Definition band_height (font : Z) (text : string) : Z :=
  let '(x0, y0, x1, y1) := textbbox font text in
  let text_h := y1 - y0 in
  let padding_y := 10 in
  text_h + padding_y * 2.

End LabelBand.

(** ** The priority field of the form *)

(** [s.split(sep)] for a separator of one character. *)
Fixpoint split_on (sep : ascii) (s : string) : list string :=
  match s with
  | EmptyString => [EmptyString]
  | String c t =>
      if Ascii.eqb c sep then EmptyString :: split_on sep t
      else
        match split_on sep t with
        | piece :: rest => String c piece :: rest
        | [] => [String c EmptyString]
        end
  end.

(** The characters [s.strip()] removes: ASCII white space. *)
Definition ws_chars : string :=
  string_of_list_ascii
    (map ascii_of_N [9; 10; 11; 12; 13; 28; 29; 30; 31; 32]%N).

(** [[p.strip() for p in priority_str.split(',') if p.strip()]] *)
Definition parse_priority (priority_str : string) : list string :=
  omap (fun p =>
          let q := Str.strip ws_chars p in
          if decide (q = "") then None else Some q)
       (split_on "," priority_str).

(** [request.form.get('priority', ','.join(DEFAULT_PRIORITY))], parsed. *)
Definition form_priority (form : gmap string string) : list string :=
  parse_priority (default (String.concat "," DEFAULT_PRIORITY) (form !! "priority")).

(** A keyword as [parse_priority] yields them: not empty, no white space
    at either end, no comma. *)
Definition clean_keyword (kw : string) : Prop :=
  kw <> ""
  /\ Str.head_is Str.is_space kw = false
  /\ Str.head_is Str.is_space (String.rev kw) = false
  /\ Str.mem "," kw = false.

(** ** The uploads of a request

    An uploaded file is known by its [filename], the name the client
    gave.  [secure_filename] is werkzeug's, [suffix] and [original_stem]
    are [Path(...).suffix] and [Path(...).stem], and [temp_path] is
    [Path(temp_dir) / filename] for the directory [mkdtemp] returned.
    [save_files] is the loop of the handler, which an exception of
    [file.save] leaves; [save_uploads] is the same loop without the
    saving: what the loop computes when every [file.save] returns. *)

Definition EXTS : list string := [".jpg"; ".jpeg"; ".png"].

Class Uploads := {
  secure_filename : string -> string;
  suffix : string -> string;
  original_stem : string -> string;
  temp_path : string -> Path
}.

Section SaveUploads.
Context `{Uploads}.

(** The test [ext in EXTS] for an upload. *)
Definition accepted (original_name : string) : bool :=
  bool_decide (Str.lower (suffix (secure_filename original_name)) ∈ EXTS).

(** The path an upload is saved under. *)
Definition saved_path (original_name : string) : Path :=
  temp_path (secure_filename original_name).

(** The loop over [files], lines 169-178, every [file.save] returning. *)
Fixpoint save_uploads (files : list string) (image_paths : list Path)
    (filename_map : gmap string string) : list Path * gmap string string :=
  match files with
  | [] => (image_paths, filename_map)
  | original_name :: rest =>
      let filename := secure_filename original_name in
      let ext := Str.lower (suffix filename) in
      if bool_decide (ext ∈ EXTS) then
        let filepath := temp_path filename in
        save_uploads rest (image_paths ++ [filepath])
          (<[path_str filepath := original_stem original_name]> filename_map)
      else save_uploads rest image_paths filename_map
  end.

(** The accepted uploads that are saved under the path [k]. *)
Definition saved_under (k : string) (files : list string) : list string :=
  filter (fun o => accepted o = true /\ path_str (saved_path o) = k) files.

End SaveUploads.

Section SaveFiles.
Context `{Uploads} `{Server}.

(** The loop over [files]: lines 169-178. *)
Fixpoint save_files (files : list string) (image_paths : list Path)
    (filename_map : gmap string string)
  : result (list Path * gmap string string) :=
  match files with
  | [] => inr (image_paths, filename_map)
  | original_name :: rest =>
      let filename := secure_filename original_name in
      let ext := Str.lower (suffix filename) in
      if bool_decide (ext ∈ EXTS) then
        let filepath := temp_path filename in
        _ ← save_upload original_name (path_str filepath);
        save_files rest (image_paths ++ [filepath])
          (<[path_str filepath := original_stem original_name]> filename_map)
      else save_files rest image_paths filename_map
  end.

End SaveFiles.

(** A small sanitiser: spaces become underscores; the suffix starts at
    the last dot. *)
Fixpoint spaces_to_underscores (s : string) : string :=
  match s with
  | EmptyString => EmptyString
  | String c t =>
      String (if Ascii.eqb c " " then "_"%char else c) (spaces_to_underscores t)
  end.

Fixpoint last_dot (s : string) : option (string * string) :=
  match s with
  | EmptyString => None
  | String c t =>
      match last_dot t with
      | Some (a, b) => Some (String c a, b)
      | None => if Ascii.eqb c "." then Some (EmptyString, s) else None
      end
  end.

Definition simple_uploads : Uploads :=
  {| secure_filename := spaces_to_underscores;
     suffix := fun s => default "" (snd <$> last_dot s);
     original_stem := fun s => default s (fst <$> last_dot s);
     temp_path := fun s =>
       {| path_str := "/tmp/up/" +:+ s;
          stem := default s (fst <$> last_dot s);
          name := s |} |}.

(** ** The request handler

    A request is one that Flask has parsed within its limits: the list
    under ['files[]'] of [request.files], when the key is there, each
    upload by its [filename], and [request.form].
    The handler returns a response, or an exception leaves it: the
    conversions of the numeric fields and [mkdtemp] stand before the
    [try]; an exception inside the [try] gives the response 500. *)

Record Request := {
  req_files : option (list string);
  req_form : gmap string string
}.

Inductive Reply : Type :=
| Returned (r : Response)
| Raised (e : exn).

Section Handler.
Context `{Pillow} `{Server} `{Uploads}.

(** [int(s)] for a [str]. *)
Variable int_of_str : string -> result Z.

(** [int(request.form.get('font_size', 28))] *)
Definition form_font_size (form : gmap string string) : result Z :=
  match form !! "font_size" with
  | Some s => int_of_str s
  | None => inr 28
  end.

(** [int(v) if v and v != '' else None] for [v = request.form.get(field, None)] *)
Definition form_bound (field : string) (form : gmap string string)
  : result (option Z) :=
  match form !! field with
  | Some s => if decide (s = "") then inr None else n ← int_of_str s; mret (Some n)
  | None => inr None
  end.

Definition generate_request (req : Request) : Reply :=
  match req_files req with
  | None => Returned (BadRequest "No files uploaded")
  | Some files =>
      match files with
      | [] => Returned (BadRequest "No files selected")
      | first :: _ =>
          if decide (first = "") then Returned (BadRequest "No files selected")
          else
            let form := req_form req in
            let priority := form_priority form in
            match form_font_size form with
            | inl e => Raised e
            | inr font_size =>
                match form_bound "max_width" form with
                | inl e => Raised e
                | inr max_w =>
                    match form_bound "max_height" form with
                    | inl e => Raised e
                    | inr max_h =>
                        match mkdtemp with
                        | inl e => Raised e
                        | inr temp_dir =>
                            match save_files files [] ∅ with
                            | inl e => Returned (ServerError e)
                            | inr (image_paths, filename_map) =>
                                let output_filename :=
                                  "newspapers_" +:+ today +:+ ".pdf" in
                                let output_path := temp_path output_filename in
                                Returned (generate form priority font_size max_w max_h
                                            image_paths filename_map
                                            output_filename output_path)
                            end
                        end
                    end
                end
            end
      end
  end.

End Handler.

(** [int] on the strings of decimal digits. *)
Definition digits_int (s : string) : result Z :=
  if decide (s = "") then inl (ValueError "invalid literal for int()")
  else if Str.all Str.is_digit s then inr (Str.int s)
  else inl (ValueError "invalid literal for int()").

(** A request of two uploads, one of them no image, with an empty form. *)
Definition two_uploads : Request :=
  {| req_files := Some ["Dainik Bhaskar Page No 2.jpg"; "notes.txt"];
     req_form := ∅ |}.

(** The page sent for it. *)
Definition labelled_upload : Image :=
  {| width := 1600; height := 1048;
     pixels := Labelled (Decoded "/tmp/up/Dainik_Bhaskar_Page_No_2.jpg")
                 "Dainik Bhaskar Page No 2" 696 48 |}.

(** A 1600 x 1000 scan, and what [scale_image] makes of it within
    800 x 300. *)
Definition wide_scan : Image :=
  {| width := 1600; height := 1000; pixels := Decoded "/tmp/up/wide.jpg" |}.

Definition wide_scan_scaled : Image :=
  {| width := 480; height := 300; pixels := Resized (Decoded "/tmp/up/wide.jpg") |}.

(** * Properties *)

(** ** Strings *)

Section StringFacts.
Import Str.

Lemma sapp_nil_l s : "" +:+ s = s.
Proof. reflexivity. Qed.

Lemma sapp_cons c s t : String c s +:+ t = String c (s +:+ t).
Proof. reflexivity. Qed.

Lemma sapp_nil_r s : s +:+ "" = s.
Proof. induction s as [|c s IH]; [done | by rewrite sapp_cons, IH]. Qed.

Lemma sapp_assoc a b c : (a +:+ b) +:+ c = a +:+ b +:+ c.
Proof. induction a as [|x a IH]; [done | by rewrite !sapp_cons, IH]. Qed.

Lemma slength_app a b :
  String.length (a +:+ b) = (String.length a + String.length b)%nat.
Proof. induction a as [|x a IH]; [done | by rewrite sapp_cons; simpl; rewrite IH]. Qed.

Lemma lower_length s : String.length (lower s) = String.length s.
Proof. induction s as [|c s IH]; simpl; [done | by rewrite IH]. Qed.

Lemma lower_app a b : lower (a +:+ b) = lower a +:+ lower b.
Proof.
  induction a as [|x a IH]; [done |].
  rewrite sapp_cons. simpl. by rewrite IH.
Qed.

Lemma lower_char_idem c : lower_char (lower_char c) = lower_char c.
Proof.
  destruct c as [[] [] [] [] [] [] [] []]; vm_compute; reflexivity.
Qed.

Lemma lower_idem s : lower (lower s) = lower s.
Proof.
  induction s as [|c s IH]; simpl; [done |].
  by rewrite lower_char_idem, IH.
Qed.

Lemma all_app p a b : all p (a +:+ b) = all p a && all p b.
Proof.
  induction a as [|x a IH]; [done |].
  rewrite sapp_cons. simpl. rewrite IH. by rewrite andb_assoc.
Qed.

(** [span] splits the text, the first part satisfies the predicate and
    the second does not start with a character that does. *)
Lemma span_spec p s a b :
  span p s = (a, b) ->
  s = a +:+ b /\ all p a = true /\ head_is p b = false.
Proof.
  revert a b. induction s as [|c s IH]; simpl; intros a b H.
  - by inversion H.
  - destruct (p c) eqn:Hc.
    + destruct (span p s) as [a' b'] eqn:Hs. inversion H; subst.
      destruct (IH a' b eq_refl) as (-> & Ha & Hb).
      rewrite sapp_cons. simpl. by rewrite Hc, Ha.
    + inversion H; subst. simpl. by rewrite Hc.
Qed.

(** A run of characters satisfying [p] in front of a text: [span] takes
    the run and whatever of the text continues it. *)
Lemma span_app p a b :
  all p a = true ->
  span p (a +:+ b) = (a +:+ (span p b).1, (span p b).2).
Proof.
  induction a as [|x a IH]; intros H.
  - rewrite !sapp_nil_l. by destruct (span p b).
  - simpl in H. apply andb_prop in H as [Hx Ha].
    rewrite !sapp_cons. simpl. rewrite Hx, (IH Ha). done.
Qed.

Lemma span_head_false p s : head_is p s = false -> span p s = ("", s).
Proof. destruct s as [|c s]; simpl; [done | by intros ->]. Qed.

(** [int] reads a digit string in base ten, most significant digit
    first. *)
Lemma int_acc_app acc a b : int_acc acc (a +:+ b) = int_acc (int_acc acc a) b.
Proof.
  revert acc. induction a as [|c a IH]; intros acc; [done |].
  rewrite sapp_cons. simpl. apply IH.
Qed.

Lemma int_snoc ds c : int (ds +:+ String c "") = 10 * int ds + digit_val c.
Proof. unfold int. by rewrite int_acc_app. Qed.

End StringFacts.

(** ** The matcher against the pattern *)

Section PatternFacts.
Import Str PageRe PagePattern.

Lemma lit_sound p s r :
  lit p s = Some r -> exists t, s = t +:+ r /\ lower t = lower p.
Proof.
  revert s. induction p as [|a p IH]; intros s H.
  - exists "". destruct s; simpl in H; by inversion H.
  - destruct s as [|b s]; simpl in H; [done |].
    destruct (Ascii.eqb _ _) eqn:E; [| done].
    apply Ascii.eqb_eq in E.
    destruct (IH _ H) as (t & -> & Ht).
    exists (String b t). split; [done |]. simpl. by rewrite E, Ht.
Qed.

Lemma lit_complete p t r :
  lower t = lower p -> lit p (t +:+ r) = Some r.
Proof.
  revert t. induction p as [|a p IH]; intros t H.
  - destruct t; [| done]. by destruct r.
  - destruct t as [|b t]; [done |]. simpl in H. inversion H as [[Hc Ht]].
    rewrite sapp_cons. simpl. rewrite Hc, Ascii.eqb_refl. by apply IH.
Qed.

Lemma skip_spaces_app ws r :
  all is_space ws = true -> head_is is_space r = false ->
  skip_spaces (ws +:+ r) = r.
Proof.
  intros Hws Hr. unfold skip_spaces.
  rewrite (span_app _ _ _ Hws), (span_head_false _ _ Hr). done.
Qed.

Lemma skip_spaces_spec s :
  exists ws, s = ws +:+ skip_spaces s /\ all is_space ws = true.
Proof.
  unfold skip_spaces. destruct (span is_space s) as [a b] eqn:E.
  apply span_spec in E as (-> & Ha & _). by exists a.
Qed.

Lemma opt_dot_spec s :
  exists dot, s = dot +:+ opt_dot s /\ (dot = "" \/ dot = ".").
Proof.
  destruct s as [|c s]; simpl.
  - exists "". auto.
  - destruct (Ascii.eqb c ".") eqn:E.
    + apply Ascii.eqb_eq in E as ->. exists ".". auto.
    + exists "". auto.
Qed.

Lemma lower_n_not_space c : lower_char c = "n"%char -> is_space c = false.
Proof. destruct c as [[] [] [] [] [] [] [] []]; vm_compute; congruence. Qed.

Lemma digit_not_space c : is_digit c = true -> is_space c = false.
Proof. destruct c as [[] [] [] [] [] [] [] []]; vm_compute; congruence. Qed.

Lemma digit_not_dot c : is_digit c = true -> Ascii.eqb c "." = false.
Proof. destruct c as [[] [] [] [] [] [] [] []]; vm_compute; congruence. Qed.

Lemma space_not_dot c : is_space c = true -> Ascii.eqb c "." = false.
Proof. destruct c as [[] [] [] [] [] [] [] []]; vm_compute; congruence. Qed.

(** The greedy matcher finds every token that starts the text, and
    extends its digit group over the digits that follow. *)
Lemma match_here_complete tok ds rest :
  Token tok ds ->
  match_here (tok +:+ rest)
  = Some (ds +:+ (span is_digit rest).1, (span is_digit rest).2).
Proof.
  intros (p & ws1 & n & dot & ws2 & -> & Hp & Hws1 & Hn & Hdot & Hws2 & Hds & Hne).
  unfold match_here. rewrite !sapp_assoc.
  rewrite (lit_complete "page" p); [| done].
  destruct n as [|n1 [|n2 [|]]]; try done.
  simpl in Hn. injection Hn as Hn1 Hn2.
  destruct ds as [|d ds]; [done |]. simpl in Hds.
  apply andb_prop in Hds as [Hd Hds].
  rewrite skip_spaces_app; [| done | simpl; by apply lower_n_not_space].
  rewrite (lit_complete "no" (String n1 (String n2 ""))); [| simpl; by rewrite Hn1, Hn2].
  assert (opt_dot (dot +:+ ws2 +:+ String d ds +:+ rest)
          = ws2 +:+ String d ds +:+ rest) as ->.
  { destruct Hdot as [-> | ->]; [| done].
    rewrite sapp_nil_l. destruct ws2 as [|w ws2].
    - rewrite sapp_nil_l, sapp_cons. simpl. by rewrite digit_not_dot.
    - simpl in Hws2. apply andb_prop in Hws2 as [Hw _].
      rewrite sapp_cons. simpl. by rewrite space_not_dot. }
  rewrite skip_spaces_app;
    [| done | rewrite sapp_cons; simpl; by apply digit_not_space].
  rewrite (span_app is_digit (String d ds)); [| simpl; by rewrite Hd, Hds].
  rewrite sapp_cons. done.
Qed.

Lemma match_here_sound s ds rest :
  match_here s = Some (ds, rest) ->
  (exists tok, s = tok +:+ rest /\ Token tok ds)
  /\ head_is is_digit rest = false.
Proof.
  unfold match_here. intros H.
  destruct (lit "page" s) as [r1|] eqn:H1; [| done].
  destruct (lit "no" (skip_spaces r1)) as [r3|] eqn:H3; [| done].
  destruct (span is_digit _) as [ds' r6] eqn:H6.
  destruct ds' as [|d ds']; [done |]. inversion H; subst. clear H.
  apply lit_sound in H1 as (p & -> & Hp).
  destruct (skip_spaces_spec r1) as (ws1 & E1 & Hws1).
  apply lit_sound in H3 as (n & E3 & Hn).
  destruct (opt_dot_spec r3) as (dot & Edot & Hdot).
  destruct (skip_spaces_spec (opt_dot r3)) as (ws2 & E2 & Hws2).
  apply span_spec in H6 as (E6 & Hds & Hrest).
  split; [| done].
  exists (p +:+ ws1 +:+ n +:+ dot +:+ ws2 +:+ String d ds').
  split.
  - rewrite !sapp_assoc. rewrite <- E6, <- E2, <- Edot, <- E3, <- E1. done.
  - exists p, ws1, n, dot, ws2. repeat split; try done.
Qed.


Lemma token_length tok ds : Token tok ds -> (0 < String.length tok)%nat.
Proof.
  intros (p & ws1 & n & dot & ws2 & -> & Hp & _).
  rewrite slength_app, <- (lower_length p), Hp. simpl. lia.
Qed.

Lemma match_here_none s : match_here s = None -> ~ MatchAt s "".
Proof.
  intros H (tok & ds & rest & -> & Htok).
  rewrite sapp_nil_l, (match_here_complete _ _ _ Htok) in H. done.
Qed.

Lemma MatchAt_cons c s pre :
  MatchAt (String c s) pre ->
  pre = "" \/ exists pre', pre = String c pre' /\ MatchAt s pre'.
Proof.
  intros (tok & ds & rest & E & Htok).
  destruct pre as [|c' pre']; [by left | right].
  rewrite sapp_cons in E. injection E as -> ->.
  exists pre'. split; [done |]. by exists tok, ds, rest.
Qed.

(** [search] reports the leftmost match. *)
Lemma search_sound s pre ds rest :
  search s = Some (pre, ds, rest) -> FirstMatch s pre ds rest.
Proof.
  revert pre. induction s as [|c s IH]; intros pre H; simpl in H.
  - done.
  - destruct (match_here (String c s)) as [[ds' rest']|] eqn:E.
    + inversion H; subst. apply match_here_sound in E as [Htok Hd].
      split; [| split]; [done | done | simpl; lia].
    + destruct (search s) as [[[pre' ds'] rest']|] eqn:Es; [| done].
      inversion H; subst.
      destruct (IH _ eq_refl) as ((tok & Etok & Htok) & Hd & Hmin).
      split; [| split]; [| done |].
      * exists tok. split; [| done]. by rewrite sapp_cons, <- Etok.
      * intros pre2 Hm.
        destruct (MatchAt_cons _ _ _ Hm) as [-> | (p2 & -> & Hm')].
        -- by apply match_here_none in E.
        -- simpl. apply Hmin in Hm'. lia.
Qed.

Lemma search_none s : search s = None -> NoMatch s.
Proof.
  induction s as [|c s IH]; intros H pre Hm; simpl in H.
  - destruct (match_here "") as [[ds' rest']|] eqn:E; [done |].
    apply match_here_none in E. destruct Hm as (tok & ds & rest & Eq & Htok).
    destruct pre; [| done]. apply E. by exists tok, ds, rest.
  - destruct (match_here (String c s)) as [[ds' rest']|] eqn:E; [done |].
    destruct (search s) as [[[pre' ds'] rest']|] eqn:Es; [done |].
    destruct (MatchAt_cons _ _ _ Hm) as [-> | (p2 & -> & Hm')].
    + by apply match_here_none in E.
    + by apply (IH eq_refl p2).
Qed.

Lemma search_shorter s pre ds rest :
  search s = Some (pre, ds, rest) -> (String.length rest < String.length s)%nat.
Proof.
  intros H. apply search_sound in H as ((tok & -> & Htok) & _).
  apply token_length in Htok. rewrite !slength_app. lia.
Qed.

Lemma sub_fuel_enough n m s :
  (String.length s <= n)%nat -> (String.length s <= m)%nat ->
  sub_fuel n s = sub_fuel m s.
Proof.
  revert m s. induction n as [|n IH]; intros m s Hn Hm.
  - destruct s; [| simpl in Hn; lia]. destruct m; [done |]. simpl.
    destruct (search "") as [[[pre ds] rest]|] eqn:E; [| done].
    apply search_shorter in E. simpl in E. lia.
  - simpl. destruct (search s) as [[[pre ds] rest]|] eqn:E.
    + pose proof (search_shorter _ _ _ _ E) as Hlt.
      destruct m as [|m]; [lia |]. simpl. rewrite E.
      f_equal. apply IH; lia.
    + destruct m; simpl; [done | by rewrite E].
Qed.

(** The removal of matches, one match at a time. *)
Lemma sub_empty_match s pre ds rest :
  search s = Some (pre, ds, rest) -> sub_empty s = pre +:+ sub_empty rest.
Proof.
  intros E. unfold sub_empty.
  pose proof (search_shorter _ _ _ _ E) as Hlt.
  destruct (String.length s) as [|n] eqn:El; [lia |].
  simpl. rewrite E. f_equal. apply sub_fuel_enough; lia.
Qed.

Lemma sub_empty_no_match s : search s = None -> sub_empty s = s.
Proof.
  intros E. unfold sub_empty. destruct (String.length s); simpl; [done |].
  by rewrite E.
Qed.


Lemma sapp_inj_length a b x y :
  a +:+ x = b +:+ y -> String.length a = String.length b -> a = b /\ x = y.
Proof.
  revert b. induction a as [|c a IH]; intros [|c' b] E L; simpl in L; try done.
  rewrite !sapp_cons in E. injection E as -> E.
  destruct (IH b E) as [-> ->]; [lia | done].
Qed.

(** The leftmost match is the one [search] reports. *)
Lemma search_complete s pre ds rest :
  FirstMatch s pre ds rest -> search s = Some (pre, ds, rest).
Proof.
  intros ((tok & E & Htok) & Hd & Hmin).
  destruct (search s) as [[[pre2 ds2] rest2]|] eqn:Es.
  - destruct (search_sound _ _ _ _ Es) as ((tok2 & E2 & Htok2) & Hd2 & Hmin2).
    assert (MatchAt s pre) as Hm by by exists tok, ds, rest.
    assert (MatchAt s pre2) as Hm2 by by exists tok2, ds2, rest2.
    apply Hmin in Hm2. apply Hmin2 in Hm.
    assert (pre = pre2 /\ tok +:+ rest = tok2 +:+ rest2) as [-> Et].
    { apply sapp_inj_length; [congruence | lia]. }
    pose proof (match_here_complete _ _ rest Htok) as M1.
    pose proof (match_here_complete _ _ rest2 Htok2) as M2.
    rewrite (span_head_false _ _ Hd), sapp_nil_r in M1.
    rewrite (span_head_false _ _ Hd2), sapp_nil_r in M2.
    simpl in M1, M2. rewrite Et in M1. congruence.
  - exfalso. apply (search_none _ Es pre). by exists tok, ds, rest.
Qed.

End PatternFacts.

(** ** Keys are totally ordered *)

Section OrderFacts.

#[global] Instance nat_compare_ordered : Ordered Nat.compare.
Proof.
  split.
  - apply Nat.compare_eq_iff.
  - intros a b. apply Nat.compare_antisym.
  - intros a b c. rewrite !Nat.compare_lt_iff. lia.
Qed.

#[global] Instance Z_compare_ordered : Ordered Z.compare.
Proof.
  split.
  - apply Z.compare_eq_iff.
  - intros a b. apply Z.compare_antisym.
  - intros a b c. rewrite !Z.compare_lt_iff. lia.
Qed.

Lemma string_compare_refl s : String.compare s s = Eq.
Proof.
  induction s as [|c s IH]; simpl; [done |].
  unfold Ascii.compare. by rewrite N.compare_refl.
Qed.

Lemma string_compare_trans a b c :
  String.compare a b = Lt -> String.compare b c = Lt -> String.compare a c = Lt.
Proof.
  revert b c. induction a as [|x a IH]; intros [|y b] [|z c]; simpl; try done.
  unfold Ascii.compare.
  destruct (N.compare_spec (N_of_ascii x) (N_of_ascii y)) as [Exy|Lxy|Gxy];
    destruct (N.compare_spec (N_of_ascii y) (N_of_ascii z)) as [Eyz|Lyz|Gyz];
    try done; intros H1 H2.
  - rewrite Exy, Eyz, N.compare_refl. eauto.
  - rewrite Exy. by apply N.compare_lt_iff in Lyz as ->.
  - rewrite <- Eyz. by apply N.compare_lt_iff in Lxy as ->.
  - assert (N_of_ascii x < N_of_ascii z)%N as L by lia.
    by apply N.compare_lt_iff in L as ->.
Qed.

#[global] Instance string_compare_ordered : Ordered String.compare.
Proof.
  split.
  - intros a b. split; [apply String.compare_eq_iff |].
    intros ->. apply string_compare_refl.
  - intros a b. apply String.compare_antisym.
  - apply string_compare_trans.
Qed.

#[global] Instance cmp_pair_ordered {A B} (ca : A -> A -> comparison)
    (cb : B -> B -> comparison) `{!Ordered ca, !Ordered cb} :
  Ordered (cmp_pair ca cb).
Proof.
  split; unfold cmp_pair, lex.
  - intros [a1 b1] [a2 b2]; simpl. split.
    + destruct (ca a1 a2) eqn:E; try done.
      apply cmp_eq in E as ->. by intros ->%cmp_eq.
    + intros [= -> ->]. by rewrite (proj2 (cmp_eq a2 a2)), (proj2 (cmp_eq b2 b2)).
  - intros [a1 b1] [a2 b2]; simpl.
    rewrite (cmp_antisym a1 a2). destruct (ca a1 a2); simpl; try done.
    apply cmp_antisym.
  - intros [a1 b1] [a2 b2] [a3 b3]; simpl.
    destruct (ca a1 a2) eqn:E12; try done;
      destruct (ca a2 a3) eqn:E23; try done; intros H1 H2.
    + apply cmp_eq in E12 as ->. rewrite E23. eapply cmp_trans; eauto.
    + apply cmp_eq in E12 as ->. by rewrite E23.
    + apply cmp_eq in E23 as <-. by rewrite E12.
    + by rewrite (cmp_trans _ _ _ E12 E23).
Qed.

#[global] Instance key_compare_ordered : Ordered key_compare.
Proof. unfold key_compare. apply _. Qed.

Lemma key_ltb_lt a b : key_ltb a b = true <-> key_compare a b = Lt.
Proof. unfold key_ltb. destruct (key_compare a b); naive_solver. Qed.

Lemma key_le_alt a b : key_le a b <-> key_compare a b <> Gt.
Proof.
  unfold key_le, key_ltb. rewrite (cmp_antisym (cmp:=key_compare) a b).
  destruct (key_compare a b); naive_solver.
Qed.

Lemma key_le_refl a : key_le a a.
Proof. apply key_le_alt. by rewrite (proj2 (cmp_eq (cmp:=key_compare) a a)). Qed.

Lemma key_lt_le a b : key_ltb a b = true -> key_le a b.
Proof. rewrite key_ltb_lt, key_le_alt. by intros ->. Qed.

Lemma key_le_trans a b c : key_le a b -> key_le b c -> key_le a c.
Proof.
  rewrite !key_le_alt.
  destruct (key_compare a b) eqn:E1; [| | done]; intros _;
    destruct (key_compare b c) eqn:E2; [| | done | | | done]; intros _.
  - apply cmp_eq in E1 as ->. by rewrite E2.
  - apply cmp_eq in E1 as ->. by rewrite E2.
  - apply cmp_eq in E2 as <-. by rewrite E1.
  - by rewrite (cmp_trans _ _ _ E1 E2).
Qed.

Lemma key_le_total a b : key_le a b \/ key_le b a.
Proof.
  rewrite !key_le_alt, (cmp_antisym (cmp:=key_compare) a b).
  destruct (key_compare a b); simpl; auto.
Qed.

Lemma key_le_antisym a b : key_le a b -> key_le b a -> a = b.
Proof.
  rewrite !key_le_alt, (cmp_antisym (cmp:=key_compare) a b).
  destruct (key_compare a b) eqn:E; simpl; try done.
  intros _ _. by apply cmp_eq.
Qed.

End OrderFacts.

(** ** The sort *)

Section SortFacts.
Context {A : Type} (f : A -> key).

Lemma insert_by_perm x l : insert_by f x l ≡ₚ x :: l.
Proof.
  induction l as [|y l IH]; simpl; [done |].
  destruct (key_ltb (f y) (f x)); [| done].
  rewrite IH. apply Permutation_swap.
Qed.

Lemma sort_by_perm l : sort_by f l ≡ₚ l.
Proof.
  induction l as [|x l IH]; simpl; [done |].
  by rewrite insert_by_perm, IH.
Qed.

Lemma insert_by_sorted x l :
  StronglySorted (le_by f) l -> StronglySorted (le_by f) (insert_by f x l).
Proof.
  induction 1 as [|y l Hs IH Hy]; simpl.
  - repeat constructor.
  - destruct (key_ltb (f y) (f x)) eqn:E.
    + constructor; [done |].
      rewrite insert_by_perm. constructor; [| done].
      by apply key_lt_le.
    + constructor; [by constructor |].
      constructor; [done |].
      eapply Forall_impl; [exact Hy |].
      intros z Hz. eapply key_le_trans; [exact E | exact Hz].
Qed.

Lemma sort_by_sorted l : StronglySorted (le_by f) (sort_by f l).
Proof.
  induction l as [|x l IH]; simpl; [constructor | by apply insert_by_sorted].
Qed.

(** A sorted list is left as it is. *)
Lemma sort_by_id l : StronglySorted (le_by f) l -> sort_by f l = l.
Proof.
  induction 1 as [|x l Hs IH Hx]; simpl; [done |].
  rewrite IH. destruct l as [|y l]; simpl; [done |].
  apply Forall_cons_1 in Hx as [Hxy _]. unfold le_by, key_le in Hxy.
  by rewrite Hxy.
Qed.

(** The sort is stable: elements of equal key keep their order. *)
Lemma insert_by_filter_key k x l :
  filter (fun y => f y = k) (insert_by f x l)
  = filter (fun y => f y = k) (x :: l).
Proof.
  induction l as [|y l IH]; simpl; [done |].
  destruct (key_ltb (f y) (f x)) eqn:E; [| done].
  rewrite (filter_cons _ y), IH, !filter_cons.
  repeat case_decide; try done.
  exfalso. apply key_ltb_lt in E.
  assert (f y = f x) as Heq by congruence. rewrite Heq in E.
  by rewrite (proj2 (cmp_eq (cmp:=key_compare) (f x) (f x))) in E.
Qed.

Lemma sort_by_stable k l :
  filter (fun y => f y = k) (sort_by f l) = filter (fun y => f y = k) l.
Proof.
  induction l as [|x l IH]; simpl; [done |].
  by rewrite insert_by_filter_key, !filter_cons, IH.
Qed.

Lemma StronglySorted_lookup (R : relation A) l :
  StronglySorted R l <->
  (forall a b x y, (a < b)%nat -> l !! a = Some x -> l !! b = Some y -> R x y).
Proof.
  split.
  - induction 1 as [|z l Hs IH Hz]; intros a b x y Hab Ha Hb; [done |].
    destruct b as [|b]; [lia |]. simpl in Hb.
    destruct a as [|a]; simpl in Ha.
    + inversion Ha; subst. rewrite Forall_forall in Hz. apply Hz.
      by eapply list_elem_of_lookup_2.
    + apply (IH a b); [lia | done | done].
  - induction l as [|z l IH]; intros H; constructor.
    + apply IH. intros a b x y Hab Ha Hb. apply (H (S a) (S b)); [lia | done..].
    + apply Forall_forall. intros y [i Hi]%list_elem_of_lookup_1.
      apply (H 0%nat (S i)); [lia | done..].
Qed.

End SortFacts.

(** ** The Ranker *)

Section RankFacts.
Variable priority : list string.
Variable filename_map : option (gmap string string).

Local Abbreviation skey := (sort_key priority filename_map).
Local Abbreviation gkey := (group_key priority filename_map).

Lemma enumerate_lookup {A} (l : list A) i :
  enumerate l !! i = (fun x => (i, x)) <$> l !! i.
Proof. unfold enumerate. by rewrite list_lookup_imap. Qed.

Lemma elem_of_enumerate {A} (l : list A) i x :
  (i, x) ∈ enumerate l <-> l !! i = Some x.
Proof.
  split.
  - intros [j Hj]%list_elem_of_lookup_1. rewrite enumerate_lookup in Hj.
    destruct (l !! j) eqn:E; simpl in Hj; [| done]. by inversion Hj; subst.
  - intros Hi. apply list_elem_of_lookup. exists i.
    by rewrite enumerate_lookup, Hi.
Qed.

Lemma enumerate_fst {A} (l : list A) : (enumerate l).*1 = seq 0 (List.length l).
Proof.
  apply list_eq. intros i. rewrite list_lookup_fmap, enumerate_lookup.
  destruct (l !! i) as [x|] eqn:E; simpl.
  - apply lookup_lt_Some in E. by rewrite lookup_seq_lt.
  - apply lookup_ge_None in E. by rewrite lookup_seq_ge.
Qed.

Lemma enumerate_snd {A} (l : list A) : (enumerate l).*2 = l.
Proof.
  apply list_eq. intros i. rewrite list_lookup_fmap, enumerate_lookup.
  by destruct (l !! i).
Qed.

Lemma sort_key_group i p : skey (i, p) = (gkey p, i).
Proof. reflexivity. Qed.

Lemma key_compare_group g1 g2 i j :
  key_compare (g1, i) (g2, j) = lex (group_compare g1 g2) (Nat.compare i j).
Proof. reflexivity. Qed.

Lemma ranked_pairs_perm image_paths :
  ranked_pairs priority filename_map image_paths ≡ₚ enumerate image_paths.
Proof. apply sort_by_perm. Qed.

Lemma ranked_pairs_NoDup image_paths :
  NoDup (ranked_pairs priority filename_map image_paths).*1.
Proof.
  rewrite ranked_pairs_perm, enumerate_fst. apply NoDup_seq.
Qed.

(** Read from front to back, the ranked pages have strictly increasing
    keys. *)
Lemma ranked_pairs_ascending image_paths a b x y :
  (a < b)%nat ->
  ranked_pairs priority filename_map image_paths !! a = Some x ->
  ranked_pairs priority filename_map image_paths !! b = Some y ->
  key_compare (skey x) (skey y) = Lt.
Proof.
  intros Hab Ha Hb.
  pose proof (sort_by_sorted skey (enumerate image_paths)) as Hs.
  rewrite StronglySorted_lookup in Hs.
  specialize (Hs a b x y Hab Ha Hb). apply key_le_alt in Hs.
  destruct (key_compare (skey x) (skey y)) eqn:E; [| done | done].
  exfalso. apply cmp_eq in E.
  destruct x as [i p], y as [j q]. rewrite !sort_key_group in E.
  assert (i = j) as -> by congruence.
  pose proof (ranked_pairs_NoDup image_paths) as Hnd.
  assert (a = b); [| lia].
  eapply NoDup_lookup; [exact Hnd | |].
  - rewrite list_lookup_fmap. by rewrite Ha.
  - rewrite list_lookup_fmap. by rewrite Hb.
Qed.

Lemma group_compare_le_of_key g1 g2 i j :
  key_compare (g1, i) (g2, j) = Lt -> group_compare g1 g2 <> Gt.
Proof. rewrite key_compare_group. by destruct (group_compare g1 g2). Qed.

(** Ranking the ranked pages again, numbered by their new positions,
    finds them sorted. *)
Lemma rank_enumerate_sorted image_paths :
  StronglySorted (le_by skey) (enumerate (rank priority filename_map image_paths)).
Proof.
  apply StronglySorted_lookup. intros a b [a' p] [b' q] Hab Ha Hb.
  rewrite enumerate_lookup in Ha, Hb. unfold rank in Ha, Hb.
  rewrite list_lookup_fmap in Ha, Hb.
  destruct (ranked_pairs _ _ _ !! a) as [[i p']|] eqn:Ea; [| done].
  destruct (ranked_pairs _ _ _ !! b) as [[j q']|] eqn:Eb; [| done].
  simpl in Ha, Hb. inversion Ha; inversion Hb; subst.
  pose proof (ranked_pairs_ascending _ _ _ _ _ Hab Ea Eb) as Hlt.
  rewrite !sort_key_group in Hlt. apply group_compare_le_of_key in Hlt.
  unfold le_by. apply key_le_alt. rewrite !sort_key_group, key_compare_group.
  apply Nat.compare_lt_iff in Hab.
  destruct (group_compare (gkey p) (gkey q)); simpl; congruence.
Qed.

(** Sorting leaves no choice: a list of the indexed pages in ascending
    order of their keys is the list [ranked_pairs] computes, whatever
    the sorting algorithm. *)
Lemma ranked_pairs_unique image_paths (l : list (nat * Path)) :
  l ≡ₚ enumerate image_paths ->
  StronglySorted (le_by skey) l ->
  l = ranked_pairs priority filename_map image_paths.
Proof.
  intros Hperm Hsorted.
  apply (StronglySorted_unique_strong (le_by skey));
    [| done | apply sort_by_sorted | by rewrite ranked_pairs_perm].
  intros [i p] [j q] Hx Hy H1 H2.
  pose proof (key_le_antisym _ _ H1 H2) as E.
  rewrite !sort_key_group in E. assert (i = j) as -> by congruence.
  rewrite Hperm in Hx. rewrite ranked_pairs_perm in Hy.
  apply elem_of_enumerate in Hx, Hy. congruence.
Qed.

End RankFacts.

(** ** Keyword search *)

Section KeywordFacts.
Import Str.

Lemma startswith_spec p s :
  startswith p s = true <-> exists post, s = p +:+ post.
Proof.
  revert s. induction p as [|a p IH]; intros s; simpl.
  - split; [intros _; by exists s | done].
  - destruct s as [|b s]; [split; [done | by intros [post ?]] |].
    destruct (Ascii.eqb_spec a b) as [-> | Hne].
    + rewrite IH. split; intros [post E]; exists post.
      * by rewrite sapp_cons, <- E.
      * rewrite sapp_cons in E. by injection E.
    + split; [done |]. intros [post E]. rewrite sapp_cons in E. by injection E.
Qed.

Lemma contains_spec kw s : contains kw s = true <-> Occurs kw s.
Proof.
  induction s as [|c s IH].
  - simpl. rewrite orb_false_r, startswith_spec. split.
    + intros [post E]. by exists "", post.
    + intros (pre & post & E). destruct pre; [by exists post | done].
  - simpl contains. rewrite orb_true_iff, startswith_spec, IH. split.
    + intros [[post E] | (pre & post & E)].
      * by exists "", post.
      * exists (String c pre), post. by rewrite sapp_cons, <- E.
    + intros (pre & post & E). destruct pre as [|c' pre].
      * left. by exists post.
      * right. rewrite sapp_cons in E. injection E as -> E. by exists pre, post.
Qed.

(** The loop returns the position of the first keyword that occurs in the
    name, and the default when none does. *)
Lemma pr_rank_loop_none i kws nm dflt :
  Forall (fun kw => contains kw nm = false) kws ->
  pr_rank_loop i kws nm dflt = dflt.
Proof.
  revert i. induction kws as [|kw kws IH]; intros i Hall; simpl; [done |].
  apply Forall_cons_1 in Hall as [-> Hall]. by apply IH.
Qed.

Lemma pr_rank_loop_first i kws nm dflt k kw :
  kws !! k = Some kw -> contains kw nm = true ->
  (forall j kw', (j < k)%nat -> kws !! j = Some kw' -> contains kw' nm = false) ->
  pr_rank_loop i kws nm dflt = (i + k)%nat.
Proof.
  revert i k. induction kws as [|kw0 kws IH]; intros i k Hk Hc Hbefore; [done |].
  simpl. destruct k as [|k].
  - simpl in Hk. injection Hk as ->. rewrite Hc. lia.
  - rewrite (Hbefore 0%nat kw0); [| lia | done].
    rewrite (IH (S i) k); [lia | done | done |].
    intros j kw' Hj Hl. apply (Hbefore (S j)); [lia | done].
Qed.

Lemma pr_rank_loop_some i kws nm dflt kw :
  kw ∈ kws -> contains kw nm = true ->
  (i <= pr_rank_loop i kws nm dflt < i + List.length kws)%nat.
Proof.
  revert i. induction kws as [|kw0 kws IH]; intros i Hin Hc; [by inversion Hin |].
  simpl. destruct (contains kw0 nm) eqn:E; [lia |].
  apply elem_of_cons in Hin as [-> | Hin]; [congruence |].
  specialize (IH (S i) Hin Hc). lia.
Qed.

Lemma priority_l_length priority : List.length (priority_l priority) = List.length priority.
Proof. unfold priority_l. apply length_map. Qed.

Lemma pr_rank_unmatched priority d :
  ~ matches_keyword priority d ->
  pr_rank priority (lower d) = (List.length priority + 1)%nat.
Proof.
  intros Hno. unfold pr_rank. rewrite pr_rank_loop_none, priority_l_length; [done |].
  unfold priority_l. rewrite Forall_forall. intros kw' Hin.
  apply list_elem_of_In, in_map_iff in Hin as (kw & <- & Hin).
  apply list_elem_of_In in Hin.
  destruct (contains (lower kw) (lower d)) eqn:E; [| done].
  exfalso. apply Hno. exists kw. split; [done |]. by apply contains_spec.
Qed.

Lemma pr_rank_matched priority d :
  matches_keyword priority d ->
  (pr_rank priority (lower d) < List.length priority)%nat.
Proof.
  intros (kw & Hin & Hocc). unfold pr_rank.
  pose proof (pr_rank_loop_some 0 (priority_l priority) (lower d)
                (List.length (priority_l priority) + 1) (lower kw)) as Hr.
  rewrite priority_l_length in *. apply Hr.
  - unfold priority_l. apply list_elem_of_In, in_map_iff. exists kw.
    split; [done |]. by apply list_elem_of_In.
  - by apply contains_spec.
Qed.

End KeywordFacts.

(** ** Claims about the Ranker *)

Section RankClaims.
Variable priority : list string.
Variable filename_map : option (gmap string string).

(** C1: the ranked pages are the input pages, each with its input index,
    in strictly ascending order of the key (priority bucket, base name,
    page number, input index), compared component by component with the
    base names compared as strings; two pages that agree on bucket, base
    name and page number stand in their input order; and no other
    arrangement of the indexed pages is ascending. *)
Theorem rank_sorted_by_key (image_paths : list Path) :
  let indexed := ranked_pairs priority filename_map image_paths in
  rank priority filename_map image_paths = indexed.*2
  /\ indexed ≡ₚ enumerate image_paths
  /\ (forall i p, (i, p) ∈ indexed <-> image_paths !! i = Some p)
  /\ (forall i p,
        sort_key priority filename_map (i, p)
        = (let nm := Str.lower (display_name filename_map p) in
           (pr_rank priority nm, base nm, page_num nm, i)))
  /\ (forall a b x y,
        (a < b)%nat -> indexed !! a = Some x -> indexed !! b = Some y ->
        key_compare (sort_key priority filename_map x)
                    (sort_key priority filename_map y) = Lt)
  /\ (forall a b i p j q,
        (a < b)%nat -> indexed !! a = Some (i, p) -> indexed !! b = Some (j, q) ->
        group_key priority filename_map p = group_key priority filename_map q ->
        (i < j)%nat)
  /\ (forall l : list (nat * Path),
        l ≡ₚ enumerate image_paths ->
        StronglySorted (le_by (sort_key priority filename_map)) l ->
        l = indexed).
Proof.
  intros indexed. split; [done |]. split; [apply ranked_pairs_perm |].
  split; [| split; [done |]; split; [| split]].
  - intros i p. unfold indexed. rewrite ranked_pairs_perm.
    apply elem_of_enumerate.
  - intros a b x y. apply ranked_pairs_ascending.
  - intros a b i p j q Hab Ha Hb Hg.
    pose proof (ranked_pairs_ascending _ _ _ _ _ _ _ Hab Ha Hb) as Hlt.
    rewrite !sort_key_group, key_compare_group, Hg in Hlt.
    unfold group_compare in Hlt.
    rewrite (proj2 (cmp_eq _ _) eq_refl) in Hlt. simpl in Hlt.
    by apply Nat.compare_lt_iff.
  - intros l. apply ranked_pairs_unique.
Qed.

(** C9: ranking is a function of its input, and ranking the ranked
    sequence again, with the pages numbered by their new positions,
    gives the same sequence. *)
Theorem rank_idempotent (image_paths : list Path) :
  rank priority filename_map (rank priority filename_map image_paths)
  = rank priority filename_map image_paths.
Proof.
  unfold rank at 1. unfold ranked_pairs.
  rewrite sort_by_id; [apply enumerate_snd |].
  apply rank_enumerate_sorted.
Qed.

(** C6 (amended): a page whose display name contains no keyword of the
    priority list gets the bucket [len(priority) + 1], a page whose name
    contains one gets a bucket below [len(priority)], and in the ranked
    sequence every page of the second kind comes before every page of
    the first kind. *)
Theorem unmatched_bucket_last (image_paths : list Path) :
  let indexed := ranked_pairs priority filename_map image_paths in
  (forall d, ~ matches_keyword priority d ->
     pr_rank priority (Str.lower d) = (List.length priority + 1)%nat)
  /\ (forall d, matches_keyword priority d ->
        (pr_rank priority (Str.lower d) < List.length priority)%nat)
  /\ (forall a b i p j q,
        indexed !! a = Some (i, p) -> indexed !! b = Some (j, q) ->
        matches_keyword priority (display_name filename_map p) ->
        ~ matches_keyword priority (display_name filename_map q) ->
        (a < b)%nat).
Proof.
  intros indexed. split; [apply pr_rank_unmatched |].
  split; [apply pr_rank_matched |].
  intros a b i p j q Ha Hb Hp Hq.
  apply pr_rank_matched in Hp. apply pr_rank_unmatched in Hq.
  assert (key_compare (sort_key priority filename_map (i, p))
            (sort_key priority filename_map (j, q)) = Lt) as Hlt.
  { unfold sort_key, key_compare, cmp_pair, lex. simpl.
    assert ((pr_rank priority (Str.lower (display_name filename_map p))
             ?= pr_rank priority (Str.lower (display_name filename_map q)))%nat = Lt)
      as ->; [| done].
    apply Nat.compare_lt_iff. lia. }
  destruct (lt_eq_lt_dec a b) as [[Hab | ->] | Hba]; [done | |].
  - unfold indexed in *. rewrite Ha in Hb. inversion Hb; subst.
    by rewrite (proj2 (cmp_eq (cmp:=key_compare) _ _) eq_refl) in Hlt.
  - pose proof (ranked_pairs_ascending _ _ _ _ _ _ _ Hba Hb Ha) as Hgt.
    rewrite (cmp_antisym (cmp:=key_compare)), Hgt in Hlt. done.
Qed.

End RankClaims.

(** C6 as stated fails: with the default priority list the name
    ["Times Page 1"] contains no keyword, and its bucket is 6, not 5. *)
Lemma unmatched_bucket_is_not_len :
  ~ matches_keyword DEFAULT_PRIORITY "Times Page 1"
  /\ pr_rank DEFAULT_PRIORITY (Str.lower "Times Page 1")
     <> List.length DEFAULT_PRIORITY.
Proof.
  split; [| by vm_compute].
  intros (kw & Hin & Hocc). apply contains_spec in Hocc.
  unfold DEFAULT_PRIORITY in Hin.
  repeat (apply elem_of_cons in Hin as [-> | Hin]; [by vm_compute in Hocc |]).
  by apply elem_of_nil in Hin.
Qed.

(** C3: the three pages of the example, given in the order
    Dainik p2, Dainik p1, City p1, are ranked Dainik p1, Dainik p2,
    City p1 under the default priority list, whether the display names
    carry the extension or not. *)
Theorem rank_example :
  rank DEFAULT_PRIORITY (Some names_with_ext) [dainik2; dainik1; city1]
  = [dainik1; dainik2; city1]
  /\ display_name (Some names_with_ext) <$> [dainik2; dainik1; city1]
     = ["Dainik Bhaskar Page 2.jpg"; "Dainik Bhaskar Page 1.jpg";
        "City Bhaskar Page 1.jpg"]
  /\ rank DEFAULT_PRIORITY (Some names_stem) [dainik2; dainik1; city1]
     = [dainik1; dainik2; city1].
Proof. by vm_compute. Qed.

(** ** Matching ignores case *)

Section CaseFacts.
Import Str PageRe PagePattern.

Lemma is_space_lower c : is_space (lower_char c) = is_space c.
Proof. destruct c as [[] [] [] [] [] [] [] []]; vm_compute; reflexivity. Qed.

Lemma is_digit_lower c : is_digit (lower_char c) = is_digit c.
Proof. destruct c as [[] [] [] [] [] [] [] []]; vm_compute; reflexivity. Qed.

Lemma digit_lower c : is_digit c = true -> lower_char c = c.
Proof. destruct c as [[] [] [] [] [] [] [] []]; vm_compute; congruence. Qed.

Lemma dot_lower c : Ascii.eqb (lower_char c) "." = Ascii.eqb c ".".
Proof. destruct c as [[] [] [] [] [] [] [] []]; vm_compute; reflexivity. Qed.

Lemma lit_lower p s : lit p (lower s) = lower <$> lit p s.
Proof.
  revert s. induction p as [|a p IH]; intros [|b s]; simpl; try done.
  rewrite lower_char_idem. by destruct (Ascii.eqb _ _).
Qed.

Lemma span_lower p s :
  (forall c, p (lower_char c) = p c) ->
  span p (lower s) = (lower (span p s).1, lower (span p s).2).
Proof.
  intros Hp. induction s as [|c s IH]; simpl; [done |].
  rewrite Hp. destruct (p c); [| done].
  rewrite IH. by destruct (span p s).
Qed.

Lemma skip_spaces_lower s : skip_spaces (lower s) = lower (skip_spaces s).
Proof. unfold skip_spaces. by rewrite (span_lower _ _ is_space_lower). Qed.

Lemma opt_dot_lower s : opt_dot (lower s) = lower (opt_dot s).
Proof.
  destruct s as [|c s]; simpl; [done |].
  rewrite dot_lower. by destruct (Ascii.eqb c ".").
Qed.

Lemma lower_digits ds : all is_digit ds = true -> lower ds = ds.
Proof.
  induction ds as [|c ds IH]; simpl; [done |].
  intros [Hc Hds]%andb_prop. by rewrite (digit_lower _ Hc), (IH Hds).
Qed.

Lemma match_here_lower s :
  match_here (lower s)
  = (fun '(ds, rest) => (ds, lower rest)) <$> match_here s.
Proof.
  unfold match_here. rewrite lit_lower.
  destruct (lit "page" s) as [r1|]; [| done].
  cbn [fmap option_fmap option_map].
  rewrite skip_spaces_lower, lit_lower.
  destruct (lit "no" (skip_spaces r1)) as [r3|]; [| done].
  cbn [fmap option_fmap option_map].
  rewrite opt_dot_lower, skip_spaces_lower, (span_lower _ _ is_digit_lower).
  destruct (span is_digit (skip_spaces (opt_dot r3))) as [ds r6] eqn:E.
  apply span_spec in E as (_ & Hds & _). cbn [fst snd].
  rewrite (lower_digits _ Hds). by destruct ds.
Qed.

(** Searching the lowercased name finds the match of the name itself. *)
Lemma search_lower s :
  search (lower s)
  = (fun '(pre, ds, rest) => (lower pre, ds, lower rest)) <$> search s.
Proof.
  induction s as [|c s IH].
  - done.
  - change (lower (String c s)) with (String (lower_char c) (lower s)).
    cbn [search]. change (String (lower_char c) (lower s)) with (lower (String c s)).
    rewrite match_here_lower.
    destruct (match_here (String c s)) as [[ds rest]|]; simpl; [done |].
    rewrite IH. by destruct (search s) as [[[pre ds] rest]|].
Qed.

End CaseFacts.

(** ** Claims about the page number and the base name *)

Section PageClaims.
Import Str PageRe PagePattern.

(** C2 (amended): the page number of a display name is the integer
    captured by the leftmost match, in the name without regard to case,
    of "page", optional whitespace, "no", an optional ".", optional
    whitespace and one or more digits, and 0 when the name has no such
    match; a name with "Page No. 2" has page number 2 and a name with
    "Page 2" has page number 0. *)
Theorem page_num_first_match (d : string) :
  ((exists pre ds rest,
      FirstMatch d pre ds rest
      /\ FirstMatch (lower d) (lower pre) ds (lower rest)
      /\ page_num (lower d) = int ds)
   \/ (NoMatch d /\ NoMatch (lower d) /\ page_num (lower d) = 0))
  /\ (forall pre ds rest, FirstMatch d pre ds rest -> page_num (lower d) = int ds)
  /\ page_num (lower "Dainik Bhaskar Page No. 2") = 2
  /\ page_num (lower "Dainik Bhaskar Page 2") = 0.
Proof.
  assert (forall pre ds rest,
            search d = Some (pre, ds, rest) ->
            search (lower d) = Some (lower pre, ds, lower rest)) as Hl.
  { intros pre ds rest E. by rewrite search_lower, E. }
  split; [| split; [| by vm_compute]].
  - destruct (search d) as [[[pre ds] rest]|] eqn:E.
    + left. exists pre, ds, rest. pose proof (Hl _ _ _ eq_refl) as E'.
      split; [by apply search_sound |]. split; [by apply search_sound |].
      unfold page_num. by rewrite E'.
    + right. split; [by apply search_none |].
      assert (search (lower d) = None) as E' by by rewrite search_lower, E.
      split; [by apply search_none |]. unfold page_num. by rewrite E'.
  - intros pre ds rest Hm. apply search_complete, Hl in Hm.
    unfold page_num. by rewrite Hm.
Qed.

(** C2 as stated fails: "Page 2" is a token of the pattern the
    specification describes, yet the page number of a name that
    contains it is 0. *)
Lemma page_2_has_page_number_0 :
  SpecToken "Page 2" "2"
  /\ Occurs "Page 2" "Dainik Bhaskar Page 2"
  /\ page_num (lower "Dainik Bhaskar Page 2") <> 2.
Proof.
  split; [| split; [| by vm_compute]].
  - exists "Page", " ", "", "". repeat split; try reflexivity; [by left | done].
  - by exists "Dainik Bhaskar ", "".
Qed.

(** C7 (amended): the page number of a name comes from its first match
    alone; in forming the base name every match is removed, the first
    one and then, in the same way, each match of the text after it. *)
Theorem base_removes_every_match (nm : string) :
  base nm = strip "- _" (sub_empty nm)
  /\ ((NoMatch nm /\ page_num nm = 0 /\ sub_empty nm = nm)
      \/ (exists pre ds rest,
            FirstMatch nm pre ds rest
            /\ page_num nm = int ds
            /\ sub_empty nm = pre +:+ sub_empty rest))
  /\ page_num "a page no 1 b page no 2" = 1
  /\ base "a page no 1 b page no 2" = "a  b".
Proof.
  split; [done |]. split; [| by vm_compute].
  destruct (search nm) as [[[pre ds] rest]|] eqn:E.
  - right. exists pre, ds, rest. split; [by apply search_sound |].
    split; [unfold page_num; by rewrite E | by eapply sub_empty_match].
  - left. split; [by apply search_none |].
    split; [unfold page_num; by rewrite E | by apply sub_empty_no_match].
Qed.

(** C7 as stated fails: in ["a page no 1 b page no 2"] the second token
    is a match of the text after the first, and it is removed as well;
    keeping it would give another base name. *)
Lemma later_token_is_removed :
  FirstMatch "a page no 1 b page no 2" "a " "1" " b page no 2"
  /\ FirstMatch " b page no 2" " b " "2" ""
  /\ base "a page no 1 b page no 2" = "a  b"
  /\ base_first_only "a page no 1 b page no 2" = "a  b page no 2"
  /\ base "a page no 1 b page no 2" <> base_first_only "a page no 1 b page no 2".
Proof.
  split; [by apply search_sound |]. split; [by apply search_sound |].
  by vm_compute.
Qed.

End PageClaims.

(** ** The Renderer *)

Section SortErrorFacts.
Variable filename_map : option (gmap string string).

Lemma sort_error_nil : sort_error filename_map [] = None.
Proof. reflexivity. Qed.







End SortErrorFacts.

Section RendererFacts.
Context `{Pillow}.
Variable priority : list string.
Variable all_label : option string.
Variable font_size : Z.
Variable max_w max_h : option Z.
Variable no_label : bool.
Variable output_path : Path.
Variable filename_map : option (gmap string string).

Local Abbreviation process :=
  (process_page all_label font_size max_w max_h no_label filename_map).
Local Abbreviation processed :=
  (processed_pages all_label font_size max_w max_h no_label filename_map).
Local Abbreviation skipped :=
  (skipped_pages all_label font_size max_w max_h no_label filename_map).
Local Abbreviation gen :=
  (generate_pdf priority all_label font_size max_w max_h no_label output_path
     filename_map).
Lemma rank_perm image_paths : rank priority filename_map image_paths ≡ₚ image_paths.
Proof.
  unfold rank. rewrite ranked_pairs_perm. by rewrite enumerate_snd.
Qed.

Lemma rank_nil : rank priority filename_map [] = [].
Proof. reflexivity. Qed.

(** The loop adds the processed pages and the skipped pages to what it
    was given. *)
Lemma page_loop_spec ordered done_ log :
  page_loop all_label font_size max_w max_h no_label filename_map ordered done_ log
  = (done_ ++ processed ordered, log ++ skipped ordered).
Proof.
  revert done_ log. induction ordered as [|p ordered IH]; intros done_ log; simpl.
  - by rewrite !app_nil_r.
  - unfold processed_pages, skipped_pages. simpl.
    destruct (process p) as [e|im]; rewrite IH.
    + by rewrite <- app_assoc.
    + by rewrite <- app_assoc.
Qed.

Lemma generate_pdf_spec image_paths :
  gen image_paths =
  match sort_error filename_map image_paths with
  | Some e => {| returned := inl e; document := None; warnings := [] |}
  | None =>
      let ordered := rank priority filename_map image_paths in
      match processed ordered with
      | [] => {| returned := inl EmptyBatchError; document := None;
                 warnings := skipped ordered |}
      | first :: rest =>
          match save_all first (path_str output_path) rest with
          | inl e => {| returned := inl e; document := None;
                        warnings := skipped ordered |}
          | inr _ => {| returned := inr (List.length (processed ordered));
                        document := Some (processed ordered);
                        warnings := skipped ordered |}
          end
      end
  end.
Proof.
  unfold generate_pdf. destruct (sort_error _ _); [done |].
  rewrite page_loop_spec. simpl.
  destruct (processed _) as [|first rest]; [done |]. by destruct (save_all _ _ _).
Qed.

(** What a call that returns went through. *)
Lemma generate_pdf_returns image_paths n :
  returned (gen image_paths) = inr n ->
  let ordered := rank priority filename_map image_paths in
  sort_error filename_map image_paths = None
  /\ n = List.length (processed ordered)
  /\ document (gen image_paths) = Some (processed ordered)
  /\ warnings (gen image_paths) = skipped ordered
  /\ exists first rest,
       processed ordered = first :: rest
       /\ save_all first (path_str output_path) rest = inr tt.
Proof.
  rewrite generate_pdf_spec. cbv zeta.
  destruct (sort_error _ _); [done |].
  destruct (processed _) as [|first rest] eqn:E; [done |].
  destruct (save_all _ _ _) as [e|[]] eqn:Es; [done |]. simpl.
  intros [= <-]. split; [done |]. split; [done |]. split; [done |].
  split; [done |]. by exists first, rest.
Qed.

(** A document is saved only by a call that returns. *)
Lemma generate_pdf_document image_paths doc :
  document (gen image_paths) = Some doc ->
  returned (gen image_paths) = inr (List.length doc)
  /\ doc = processed (rank priority filename_map image_paths).
Proof.
  rewrite generate_pdf_spec. cbv zeta.
  destruct (sort_error _ _); [done |].
  destruct (processed _) as [|first rest] eqn:E; [done |].
  destruct (save_all _ _ _) as [e|u]; [done |]. simpl. by intros [= <-].
Qed.

Lemma elem_of_processed ordered im :
  im ∈ processed ordered <-> exists p, p ∈ ordered /\ process p = inr im.
Proof.
  unfold processed_pages. rewrite list_elem_of_omap. split.
  - intros (p & Hp & E). exists p. split; [done |].
    destruct (process p); by inversion E.
  - intros (p & Hp & E). exists p. split; [done |]. by rewrite E.
Qed.


Lemma process_decode_error p e : open_rgb p = inl e -> process p = inl e.
Proof. intros E. unfold process_page. by rewrite E. Qed.


(** C10: with no page at all [generate_pdf] raises the empty-batch
    error and saves nothing.  When every page fails to decode it saves
    nothing either, and it raises the same error, unless the sort has
    raised before any page was opened. *)
Theorem generate_pdf_empty_input :
  gen [] = {| returned := inl EmptyBatchError; document := None; warnings := [] |}
  /\ (forall image_paths,
        (forall p, p ∈ image_paths -> exists e, open_rgb p = inl e) ->
        document (gen image_paths) = document (gen [])
        /\ match sort_error filename_map image_paths with
           | None => returned (gen image_paths) = returned (gen [])
           | Some e => returned (gen image_paths) = inl e
           end).
Proof.
  split; [done |]. intros image_paths Hall.
  rewrite (generate_pdf_spec image_paths). cbv zeta.
  destruct (sort_error filename_map image_paths) as [e0|]; [by split |].
  assert (processed (rank priority filename_map image_paths) = []) as ->; [| done].
  destruct (processed _) as [|im l] eqn:E; [done |]. exfalso.
  assert (im ∈ processed (rank priority filename_map image_paths)) as Him
    by (rewrite E; left).
  apply elem_of_processed in Him as (p & Hp & Ep).
  rewrite rank_perm in Hp. destruct (Hall p Hp) as [e He].
  by rewrite (process_decode_error _ _ He) in Ep.
Qed.

End RendererFacts.


(** ** Labels *)

Section LabelClaims.
Context `{Pillow} `{Server}.

Lemma process_page_label all_label font_size max_w max_h filename_map p im :
  process_page all_label font_size max_w max_h false filename_map p = inr im ->
  label_text im = Some (label_for all_label filename_map p).
Proof.
  unfold process_page. destruct (open_rgb p) as [e|im0]; simpl; [done |].
  destruct (scale_image im0 max_w max_h) as [e|im1]; simpl; [done |].
  intros E. injection E as <-. unfold add_label, label_text.
  by destruct (textbbox _ _) as [[[x0 y0] x1] y1].
Qed.

(** [generate] after the uploads are saved, in terms of the processed
    pages. *)
Lemma generate_eq
    (form : gmap string string) (priority : list string) (font_size : Z)
    (max_w max_h : option Z) (image_paths : list Path)
    (filename_map : gmap string string)
    (output_filename : string) (output_path : Path) :
  generate form priority font_size max_w max_h image_paths filename_map
    output_filename output_path =
  match image_paths with
  | [] => BadRequest "No valid image files uploaded"
  | _ :: _ =>
      match sort_error (Some filename_map) image_paths with
      | Some e => ServerError e
      | None =>
          match processed_pages (form_all_label form) font_size max_w max_h
                  (form_no_label form) (Some filename_map)
                  (rank priority (Some filename_map) image_paths) with
          | [] => ServerError EmptyBatchError
          | first :: more =>
              match save_all first (path_str output_path) more with
              | inl e => ServerError e
              | inr _ =>
                  match send_file (path_str output_path) output_filename with
                  | inl e => ServerError e
                  | inr _ => SendFile (first :: more)
                  end
              end
          end
      end
  end.
Proof.
  unfold generate. destruct image_paths as [|p0 rest]; [done |].
  rewrite generate_pdf_spec. cbv zeta.
  destruct (sort_error _ _); [done |].
  destruct (processed_pages _ _ _ _ _ _ _) as [|first more]; [done |].
  by destruct (save_all _ _ _).
Qed.

(** C8: when the request does not suppress labels, the label of every
    page of the document [generate] sends is the [all_label] field of
    the form when that field is present and not empty, and the page's
    display name otherwise; an empty [all_label] field gives the
    display name. *)
Theorem label_is_override_or_display_name
    (form : gmap string string) (priority : list string) (font_size : Z)
    (max_w max_h : option Z) (image_paths : list Path)
    (filename_map : gmap string string)
    (output_filename : string) (output_path : Path) :
  form_no_label form = false ->
  let all_label := form_all_label form in
  let chosen p :=
    match form !! "all_label" with
    | Some l => if decide (l = "") then display_name (Some filename_map) p else l
    | None => display_name (Some filename_map) p
    end in
  (forall p, label_for all_label (Some filename_map) p = chosen p)
  /\ (forall pages im,
        generate form priority font_size max_w max_h image_paths filename_map
          output_filename output_path
        = SendFile pages ->
        im ∈ pages ->
        exists p, p ∈ image_paths
          /\ process_page all_label font_size max_w max_h false (Some filename_map) p = inr im
          /\ label_text im = Some (chosen p))
  /\ (form !! "all_label" = Some "" ->
      forall p, label_for all_label (Some filename_map) p = display_name (Some filename_map) p).
Proof.
  intros Hno all_label chosen.
  assert (forall p, label_for all_label (Some filename_map) p = chosen p) as Hl.
  { intros p. unfold label_for, all_label, form_all_label, chosen.
    destruct (form !! "all_label") as [l|]; [| done]. by destruct (decide (l = "")). }
  split; [done |]. split.
  - intros pages im Hgen Him. rewrite generate_eq in Hgen.
    destruct image_paths as [|p0 rest] eqn:Epaths; [done |]. rewrite <- Epaths in *.
    destruct (sort_error _ _); [done |]. rewrite Hno in Hgen.
    destruct (processed_pages _ _ _ _ _ _ _) as [|first more] eqn:E; [done |].
    destruct (save_all _ _ _); [done |]. destruct (send_file _ _); [done |].
    injection Hgen as <-. rewrite <- E in Him.
    apply elem_of_processed in Him as (p & Hp & Ep). rewrite rank_perm in Hp.
    exists p. split; [done |]. split; [done |].
    rewrite <- Hl. by eapply process_page_label.
  - intros E p. rewrite Hl. unfold chosen. by rewrite E.
Qed.

End LabelClaims.

(** The claim at work: an empty [all_label] field, three uploads. *)
Lemma label_of_empty_override :
  exists pages,
    @generate simple_pillow simple_server {[ "all_label" := "" ]} DEFAULT_PRIORITY
      28 None None [dainik2; dainik1; city1] names_stem
      "newspapers_2026-01-15.pdf" out_pdf = SendFile pages
    /\ label_text <$> pages
       = [Some "Dainik Bhaskar Page 1"; Some "Dainik Bhaskar Page 2";
          Some "City Bhaskar Page 1"]
    /\ label_for (form_all_label {[ "all_label" := "" ]}) (Some names_stem) dainik1
       = "Dainik Bhaskar Page 1".
Proof.
  eexists. split; [by vm_compute |]. split; [by vm_compute |].
  pose proof (@label_is_override_or_display_name simple_pillow simple_server
                {[ "all_label" := "" ]} DEFAULT_PRIORITY 28 None None
                [dainik2; dainik1; city1] names_stem
                "newspapers_2026-01-15.pdf" out_pdf eq_refl) as (_ & _ & Hd).
  rewrite (Hd eq_refl dainik1). reflexivity.
Defined.

(** ** Rounding in binary64 *)

Section RoundingFacts.
Import Float.

Lemma digits2_pos_bounds p :
  2 ^ (Zpos (digits2_pos p) - 1) <= Zpos p < 2 ^ Zpos (digits2_pos p).
Proof.
  induction p as [p IH | p IH |]; simpl digits2_pos.
  - rewrite Pos2Z.inj_succ.
    replace (Z.succ (Zpos (digits2_pos p)) - 1) with (Z.succ (Zpos (digits2_pos p) - 1)) by lia.
    rewrite !Z.pow_succ_r by lia. lia.
  - rewrite Pos2Z.inj_succ.
    replace (Z.succ (Zpos (digits2_pos p)) - 1) with (Z.succ (Zpos (digits2_pos p) - 1)) by lia.
    rewrite !Z.pow_succ_r by lia. lia.
  - simpl. lia.
Qed.

(** The number of binary digits of a non-negative integer. *)
Lemma Zdigits2_nonneg m : 0 <= Zdigits2 m.
Proof. destruct m; simpl; lia. Qed.

Lemma Zdigits2_upper m : 0 <= m -> m < 2 ^ Zdigits2 m.
Proof.
  destruct m as [|p|p]; simpl; [lia | | lia]. intros _.
  apply digits2_pos_bounds.
Qed.

Lemma Zdigits2_lower m : 0 < m -> 2 ^ (Zdigits2 m - 1) <= m.
Proof.
  destruct m as [|p|p]; simpl; [lia | | lia]. intros _.
  apply digits2_pos_bounds.
Qed.

(** [m < 2^k] bounds the number of digits by [k]. *)
Lemma Zdigits2_le m k : 0 <= k -> 0 <= m < 2 ^ k -> Zdigits2 m <= k.
Proof.
  intros Hk [Hm Hlt]. destruct (Z.eq_dec m 0) as [-> | Hne]; [simpl; lia |].
  pose proof (Zdigits2_lower m ltac:(lia)) as Hl.
  pose proof (Zdigits2_nonneg m) as Hd.
  destruct (Z_lt_le_dec k (Zdigits2 m)) as [Hgt | ]; [| done].
  exfalso. assert (2 ^ k <= 2 ^ (Zdigits2 m - 1)) by (apply Z.pow_le_mono_r; lia).
  lia.
Qed.

Lemma iter_pos_nat {A} (f : A -> A) p x :
  iter_pos f p x = Nat.iter (Pos.to_nat p) f x.
Proof.
  revert x. induction p as [p IH | p IH |]; intros x; cbn [iter_pos].
  - rewrite !IH, Pos2Nat.inj_xI, <- Nat.iter_add.
    replace (S (2 * Pos.to_nat p)) with (S (Pos.to_nat p + Pos.to_nat p)) by lia.
    by rewrite Nat.iter_succ_r.
  - rewrite !IH, Pos2Nat.inj_xO, <- Nat.iter_add. f_equal. lia.
  - done.
Qed.

Lemma shr_1_m mrs : 0 <= shr_m mrs -> shr_m (shr_1 mrs) = shr_m mrs / 2.
Proof.
  destruct mrs as [m r s]. cbn [shr_m]. intros Hm.
  destruct m as [|[p|p|]|p]; cbn [shr_1 shr_m]; [done | | | done | lia].
  - apply (Z.div_unique _ 2 _ 1); lia.
  - apply (Z.div_unique _ 2 _ 0); lia.
Qed.

Lemma shr_iter_m k mrs :
  0 <= shr_m mrs ->
  shr_m (Nat.iter k shr_1 mrs) = shr_m mrs / 2 ^ Z.of_nat k.
Proof.
  intros Hm. induction k as [|k IH].
  - simpl. by rewrite Z.div_1_r.
  - rewrite Nat2Z.inj_succ, Z.pow_succ_r by lia. simpl Nat.iter.
    rewrite shr_1_m, IH.
    + rewrite Z.div_div by lia. f_equal. lia.
    + rewrite IH. apply Z.div_pos; lia.
Qed.

(** A shift to the right by [n > 0] places divides the mantissa by
    [2^n] and adds [n] to the exponent; any other [n] changes nothing. *)
Lemma shr_spec mrs e n :
  0 <= shr_m mrs ->
  (0 < n /\ shr_m (shr mrs e n).1 = shr_m mrs / 2 ^ n /\ (shr mrs e n).2 = e + n)
  \/ (n <= 0 /\ shr mrs e n = (mrs, e)).
Proof.
  intros Hm. destruct n as [|p|p]; [right; by split | left | right; by split].
  split; [lia |]. simpl. rewrite iter_pos_nat, shr_iter_m by done.
  by rewrite positive_nat_Z.
Qed.

Lemma shr_record_of_loc_m m l : shr_m (shr_record_of_loc m l) = m.
Proof. by destruct l as [|[]]. Qed.

Lemma round_nearest_even_bounds m l :
  m <= round_nearest_even m l <= m + 1.
Proof.
  destruct l as [|[]]; simpl; try lia. destruct (Z.even m); lia.
Qed.

Lemma round_nearest_even_exact m : round_nearest_even m loc_Exact = m.
Proof. done. Qed.

End RoundingFacts.

Section RoundFacts.
Import Float.

Local Abbreviation fexp64 := (fexp prec emax).

Lemma fexp64_eq e : fexp64 e = Z.max (e - 53) (-1074).
Proof. reflexivity. Qed.

(** The two cases of [shr_fexp]: the exponent is already the one of the
    format, or the mantissa is shifted to reach it. *)
Lemma shr_fexp_cases m e l :
  0 <= m ->
  let t := fexp64 (Zdigits2 m + e) in
  (t <= e /\ shr_fexp prec emax m e l = (shr_record_of_loc m l, e))
  \/ (e < t
      /\ shr_m (shr_fexp prec emax m e l).1 = m / 2 ^ (t - e)
      /\ (shr_fexp prec emax m e l).2 = t).
Proof.
  intros Hm t. unfold shr_fexp. fold t.
  destruct (shr_spec (shr_record_of_loc m l) e (t - e)) as [(Hn & Hq & He) | (Hn & E)].
  - by rewrite shr_record_of_loc_m.
  - right. rewrite Hq, He, shr_record_of_loc_m. split; [lia |]. split; [done | lia].
  - left. split; [lia | done].
Qed.

Lemma binary_round_aux_eq sx mx ex lx :
  binary_round_aux prec emax sx mx ex lx =
  let r1 := shr_fexp prec emax mx ex lx in
  let m1 := round_nearest_even (shr_m r1.1) (loc_of_shr_record r1.1) in
  let r2 := shr_fexp prec emax m1 r1.2 loc_Exact in
  match shr_m r2.1 with
  | Z0 => S754_zero sx
  | Zpos m => if r2.2 <=? emax - prec then S754_finite sx m r2.2 else S754_infinity sx
  | Zneg _ => S754_nan
  end.
Proof.
  unfold binary_round_aux.
  destruct (shr_fexp prec emax mx ex lx) as [mrs' e']. cbn [fst snd].
  by destruct (shr_fexp prec emax _ e' loc_Exact) as [mrs'' e''].
Qed.

(** The first rounding step leaves a non-negative mantissa. *)
Lemma first_round_nonneg mx ex lx :
  0 <= mx ->
  let r1 := shr_fexp prec emax mx ex lx in
  0 <= round_nearest_even (shr_m r1.1) (loc_of_shr_record r1.1).
Proof.
  intros Hm r1.
  pose proof (round_nearest_even_bounds (shr_m r1.1) (loc_of_shr_record r1.1)) as Hb.
  assert (0 <= shr_m r1.1); [| lia].
  destruct (shr_fexp_cases mx ex lx Hm) as [(_ & E) | (Ht & E & _)]; unfold r1.
  - rewrite E. simpl. by rewrite shr_record_of_loc_m.
  - rewrite E. apply Z.div_pos; [done |]. apply Z.pow_pos_nonneg; lia.
Qed.

(** A rounded result is never of the other sign. *)
Lemma binary_round_aux_sign sx mx ex lx :
  match binary_round_aux prec emax sx mx ex lx with
  | S754_finite s _ _ => s = sx
  | _ => True
  end.
Proof.
  rewrite binary_round_aux_eq. cbv zeta.
  destruct (shr_m _); [done | | done]. by destruct (_ <=? _).
Qed.

(** The mantissa of a rounded result has at most 53 digits. *)
Lemma binary_round_aux_digits sx mx ex lx :
  0 <= mx ->
  match binary_round_aux prec emax sx mx ex lx with
  | S754_finite _ m _ => Zpos m < 2 ^ 53
  | _ => True
  end.
Proof.
  intros Hm. rewrite binary_round_aux_eq. cbv zeta.
  pose proof (first_round_nonneg mx ex lx Hm) as H1. cbv zeta in H1.
  set (r1 := shr_fexp prec emax mx ex lx) in *.
  set (m1 := round_nearest_even _ _) in *.
  destruct (shr_fexp_cases m1 r1.2 loc_Exact H1) as [(Ht & E) | (Ht & Eq & Ee)].
  - rewrite E. cbn [fst snd shr_record_of_loc shr_m].
    destruct m1 as [|p|p] eqn:Em; [done | | done].
    destruct (_ <=? _); [| done].
    rewrite fexp64_eq in Ht.
    assert (Zdigits2 (Z.pos p) <= 53) as Hd by lia.
    pose proof (Zdigits2_upper (Z.pos p) ltac:(lia)) as Hu.
    assert (2 ^ Zdigits2 (Z.pos p) <= 2 ^ 53) by (apply Z.pow_le_mono_r; lia).
    lia.
  - rewrite Eq, Ee.
    set (n := fexp64 (Zdigits2 m1 + r1.2) - r1.2) in *.
    destruct (m1 / 2 ^ n) as [|p|p] eqn:Em; [done | | done].
    destruct (_ <=? _); [| done].
    rewrite <- Em. apply Z.div_lt_upper_bound; [apply Z.pow_pos_nonneg; lia |].
    rewrite <- Z.pow_add_r by lia.
    pose proof (Zdigits2_upper m1 H1) as Hu.
    pose proof (Zdigits2_nonneg m1) as Hd.
    assert (2 ^ Zdigits2 m1 <= 2 ^ (n + 53)); [| lia].
    apply Z.pow_le_mono_r; [lia |]. unfold n. rewrite fexp64_eq. lia.
Qed.

(** Rounding stays at or below an integer bound that the format
    represents: if the exact value [mx * 2^ex] is below [B < 2^53], or
    equal to it at most and needing no shift, the rounded value is at
    most [B]. *)
Lemma binary_round_aux_below sx mx ex lx B :
  0 <= mx -> ex <= 0 -> 0 <= B < 2 ^ 53 ->
  mx < B * 2 ^ (- ex)
  \/ (mx <= B * 2 ^ (- ex) /\ lx = loc_Exact /\ fexp64 (Zdigits2 mx + ex) <= ex) ->
  match binary_round_aux prec emax sx mx ex lx with
  | S754_zero _ => True
  | S754_finite _ m e => e <= 0 /\ Zpos m <= B * 2 ^ (- e)
  | _ => False
  end.
Proof.
  intros Hm Hex HB Hlt. rewrite binary_round_aux_eq. cbv zeta.
  pose proof (first_round_nonneg mx ex lx Hm) as H1. cbv zeta in H1.
  set (r1 := shr_fexp prec emax mx ex lx) in *.
  set (m1 := round_nearest_even _ _) in *.
  assert (0 < 2 ^ (- ex)) as Hpow by (apply Z.pow_pos_nonneg; lia).
  assert (mx < 2 ^ (53 - ex)) as Hmx.
  { replace (53 - ex) with (53 + - ex) by lia. rewrite Z.pow_add_r by lia. nia. }
  assert (Zdigits2 mx <= 53 - ex) as Hd by (apply Zdigits2_le; lia).
  (* after the first step *)
  assert (r1.2 <= 0 /\ m1 <= B * 2 ^ (- r1.2)) as [He1 Hm1].
  { destruct (shr_fexp_cases mx ex lx Hm) as [(Ht & E) | (Ht & Eq & Ee)].
    - unfold m1, r1. rewrite E. cbn [fst snd]. split; [done |].
      pose proof (round_nearest_even_bounds (shr_m (shr_record_of_loc mx lx))
                    (loc_of_shr_record (shr_record_of_loc mx lx))) as Hb.
      rewrite shr_record_of_loc_m in Hb |- *.
      destruct Hlt as [Hlt | (Hle & -> & _)]; [lia |]. simpl in Hb |- *. lia.
    - assert (mx < B * 2 ^ (- ex)) as Hs.
      { destruct Hlt as [Hlt | (_ & _ & Hno)]; [done | lia]. }
      fold r1 in Eq, Ee. rewrite fexp64_eq in Ht, Ee.
      assert (r1.2 <= 0) as He by lia. split; [done |].
      pose proof (round_nearest_even_bounds (shr_m r1.1) (loc_of_shr_record r1.1)) as Hb.
      fold m1 in Hb. rewrite Eq in Hb.
      set (n := fexp64 (Zdigits2 mx + ex) - ex) in *.
      assert (0 < n) as Hn by (unfold n; rewrite fexp64_eq; lia).
      assert (mx / 2 ^ n < B * 2 ^ (- r1.2)); [| lia].
      apply Z.div_lt_upper_bound; [apply Z.pow_pos_nonneg; lia |].
      rewrite Z.mul_comm, <- Z.mul_assoc, <- Z.pow_add_r by lia.
      replace (- r1.2 + n) with (- ex); [done |].
      unfold n. rewrite fexp64_eq. lia. }
  (* the second step *)
  assert (0 < 2 ^ (- r1.2)) as Hpow1 by (apply Z.pow_pos_nonneg; lia).
  assert (m1 < 2 ^ (53 - r1.2)) as Hm1'.
  { replace (53 - r1.2) with (53 + - r1.2) by lia. rewrite Z.pow_add_r by lia. nia. }
  assert (Zdigits2 m1 <= 53 - r1.2) as Hd1 by (apply Zdigits2_le; lia).
  destruct (shr_fexp_cases m1 r1.2 loc_Exact H1) as [(Ht & E) | (Ht & Eq & Ee)].
  - rewrite E. cbn [fst snd shr_record_of_loc shr_m].
    destruct m1 as [|p|p] eqn:Em; [done | | lia].
    replace (r1.2 <=? emax - prec) with true; [done |].
    symmetry. apply Z.leb_le. unfold emax, prec. lia.
  - rewrite Eq, Ee. rewrite fexp64_eq in Ht |- *.
    set (t := Z.max (Zdigits2 m1 + r1.2 - 53) (-1074)) in *.
    assert (t <= 0) as Ht0 by lia.
    assert (m1 / 2 ^ (t - r1.2) <= B * 2 ^ (- t)) as Hq.
    { apply Z.div_le_upper_bound; [apply Z.pow_pos_nonneg; lia |].
      rewrite Z.mul_comm, <- Z.mul_assoc, <- Z.pow_add_r by lia.
      by replace (- t + (t - r1.2)) with (- r1.2) by lia. }
    assert (0 <= m1 / 2 ^ (t - r1.2)) as Hq0.
    { apply Z.div_pos; [done | apply Z.pow_pos_nonneg; lia]. }
    destruct (m1 / 2 ^ (t - r1.2)) as [|p|p] eqn:Em; [done | | lia].
    replace (t <=? emax - prec) with true; [done |].
    symmetry. apply Z.leb_le. unfold emax, prec. lia.
Qed.

End RoundFacts.

(** ** The arithmetic of [scale_image] *)

Section ScaleFacts.
Import Float.

Lemma pos_iter_xO p k : Zpos (Pos.iter xO p k) = Zpos p * 2 ^ Zpos k.
Proof.
  change (Pos.iter xO p k) with (shift_pos k p).
  rewrite shift_pos_correct. change (Z.pow_pos 2 k) with (2 ^ Zpos k). lia.
Qed.

Lemma binary_round_aux_below_signed sx mx ex lx B :
  0 <= mx -> ex <= 0 -> 0 <= B < 2 ^ 53 ->
  mx < B * 2 ^ (- ex)
  \/ (mx <= B * 2 ^ (- ex) /\ lx = loc_Exact /\ fexp prec emax (Zdigits2 mx + ex) <= ex) ->
  match binary_round_aux prec emax sx mx ex lx with
  | S754_zero _ => True
  | S754_finite s m e => s = sx /\ e <= 0 /\ Zpos m <= B * 2 ^ (- e)
  | _ => False
  end.
Proof.
  intros Hm Hex HB Hlt.
  pose proof (binary_round_aux_below sx mx ex lx B Hm Hex HB Hlt) as Hr.
  pose proof (binary_round_aux_sign sx mx ex lx) as Hs.
  by destruct (binary_round_aux _ _ _ _ _ _).
Qed.

(** [float(w)] of a size below [2^53] is not above [w]. *)
Lemma of_int_below w x :
  0 <= w < 2 ^ 53 -> of_int w = inr x ->
  match x with
  | S754_zero _ => True
  | S754_finite s m e => s = false /\ e <= 0 /\ Zpos m <= w * 2 ^ (- e)
  | _ => False
  end.
Proof.
  intros Hw. unfold of_int.
  destruct (is_finite _) eqn:Ef; [| done]. intros E. injection E as <-.
  destruct w as [|p|p]; [done | | lia]. clear Ef.
  unfold binary_normalize, binary_round, shl_align.
  assert (Z.pos (digits2_pos p) <= 53) as Hd.
  { apply (Zdigits2_le (Zpos p)); lia. }
  pose proof (Pos2Z.is_pos (digits2_pos p)) as Hd0.
  pose proof (digits2_pos_bounds p) as Hb.
  rewrite Z.add_0_r, fexp64_eq, Z.max_l by lia.
  destruct (Z.pos (digits2_pos p) - 53 - 0) as [|k|k] eqn:Ek.
  - apply (binary_round_aux_below_signed false (Zpos p) 0 loc_Exact (Zpos p)); try lia.
    right. split; [simpl; lia |]. split; [done |].
    rewrite fexp64_eq. simpl Zdigits2. lia.
  - lia.
  - assert (Zpos k = 53 - Z.pos (digits2_pos p)) as Hk by lia.
    assert (Zpos (Pos.iter xO p k) < 2 ^ 53) as Hlt.
    { rewrite pos_iter_xO, Hk.
      replace 53 with (Z.pos (digits2_pos p) + (53 - Z.pos (digits2_pos p))) at 2 by lia.
      rewrite Z.pow_add_r by lia.
      assert (0 < 2 ^ (53 - Z.pos (digits2_pos p))) by (apply Z.pow_pos_nonneg; lia).
      nia. }
    assert (Zdigits2 (Zpos (Pos.iter xO p k)) <= 53) as Hdz.
    { apply Zdigits2_le; lia. }
    apply (binary_round_aux_below_signed false (Zpos (Pos.iter xO p k))
             (Z.pos (digits2_pos p) - 53) loc_Exact (Zpos p)); try lia.
    right. split; [| split; [done | rewrite fexp64_eq; lia]].
    rewrite pos_iter_xO, Hk.
    by replace (- (Z.pos (digits2_pos p) - 53)) with (53 - Z.pos (digits2_pos p)) by lia.
Qed.

Lemma one_eq : one = S754_finite false 4503599627370496 (-52).
Proof. reflexivity. Qed.

(** A positive scale below [1.0] has a value below 1. *)
Lemma ltb_one_value m e :
  Zpos m < 2 ^ 53 -> ltb (S754_finite false m e) one = true ->
  e < 0 /\ Zpos m < 2 ^ (- e).
Proof.
  intros Hm. rewrite one_eq. unfold ltb, SFltb. cbn [SFcompare].
  destruct (Z.compare_spec e (-52)) as [-> | Hlt | Hgt].
  - rewrite Pos.compare_cont_spec, Pos2Z.inj_compare. unfold Pos.switch_Eq.
    destruct (Z.compare_spec (Zpos m) 4503599627370496) as [_ | Hlt | _];
      [discriminate | | discriminate].
    intros _. split; [lia |].
    change (2 ^ (- -52)) with 4503599627370496. lia.
  - intros _. split; [lia |].
    assert (2 ^ 53 <= 2 ^ (- e)) by (apply Z.pow_le_mono_r; lia). lia.
  - discriminate.
Qed.

Lemma to_int_nonpos m e n :
  to_int (S754_finite true m e) = inr n -> n <= 0.
Proof.
  simpl. intros E. injection E as <-.
  assert (0 <= Z.shiftl (Zpos m) e); [| lia].
  apply Z.shiftl_nonneg. lia.
Qed.

(** [int(w * scale) <= w] for a size [w] below [2^53] and a scale below
    [1.0]. *)
Lemma scaled_size_le w s fw n :
  0 <= w < 2 ^ 53 -> scale_ok s -> ltb s one = true ->
  int_mul w s = inr fw -> to_int fw = inr n ->
  n <= w.
Proof.
  intros Hw Hok Hlt. unfold int_mul.
  destruct (of_int w) as [e|x] eqn:Ex; [done |].
  pose proof (of_int_below w x Hw Ex) as Hx.
  cbn [mbind result_bind mret result_ret]. intros E. injection E as <-.
  destruct x as [sx | sx | | sx mx ex]; try done;
    destruct s as [ss | ss | | ss ms es]; try done;
    try (cbn [SFmul to_int]; intros E; injection E as <-; lia).
  destruct Hx as (-> & Hex & Hmx). cbn [SFmul xorb].
  destruct ss.
  - (* a negative scale *)
    pose proof (binary_round_aux_sign true (Zpos (mx * ms)) (ex + es) loc_Exact) as Hs.
    destruct (binary_round_aux _ _ _ _ _ _) as [| | |s' m' e']; try done.
    + cbn [to_int]. intros E. injection E as <-. lia.
    + subst s'. intros E%to_int_nonpos. lia.
  - (* a positive scale below 1 *)
    simpl in Hok. destruct (ltb_one_value ms es Hok Hlt) as [Hes Hms].
    assert (0 < 2 ^ (- ex)) by (apply Z.pow_pos_nonneg; lia).
    assert (0 < 2 ^ (- es)) by (apply Z.pow_pos_nonneg; lia).
    assert (Zpos (mx * ms) < w * 2 ^ (- (ex + es))) as Hprod.
    { replace (- (ex + es)) with (- ex + - es) by lia.
      rewrite Z.pow_add_r, Pos2Z.inj_mul by lia. nia. }
    pose proof (binary_round_aux_below_signed false (Zpos (mx * ms)) (ex + es)
                  loc_Exact w ltac:(lia) ltac:(lia) Hw (or_introl Hprod)) as Hr.
    destruct (binary_round_aux _ _ _ _ _ _) as [| | |s' m' e']; try done.
    + cbn [to_int]. intros E. injection E as <-. lia.
    + destruct Hr as (-> & He' & Hm'). cbn [to_int cond_Zopp].
      intros E. injection E as <-. rewrite Z.shiftl_div_pow2 by lia.
      apply Z.div_le_upper_bound; [apply Z.pow_pos_nonneg; lia | lia].
Qed.

End ScaleFacts.

(** ** The order of floats *)

Section FloatOrderFacts.
Import Float.

Lemma pos_compare_cont_Z m1 m2 :
  Pos.compare_cont Eq m1 m2 = (Zpos m1 ?= Zpos m2).
Proof.
  rewrite Pos.compare_cont_spec.
  change (Zpos m1 ?= Zpos m2) with (m1 ?= m2)%positive.
  by destruct (m1 ?= m2)%positive.
Qed.

Lemma ltb_key x y :
  ltb x y = true <->
  x <> S754_nan /\ y <> S754_nan /\ key3_lt (float_key x) (float_key y).
Proof.
  unfold ltb, SFltb, key3_lt.
  destruct x as [sx | [] | | [] mx ex], y as [sy | [] | | [] my ey];
    cbn [SFcompare float_key fst snd]; try rewrite pos_compare_cont_Z;
    try (destruct (Z.compare_spec ex ey));
    try (destruct (Z.compare_spec (Zpos mx) (Zpos my)));
    cbn [CompOpp];
    try destruct sx; try destruct sy;
    (split; [intros ?; try discriminate; repeat split; try discriminate; lia
            | intros (? & ? & ?); try reflexivity; try congruence; lia]).
Qed.

Lemma ltb_irrefl x : ltb x x = false.
Proof.
  destruct (ltb x x) eqn:E; [| done]. apply ltb_key in E as (_ & _ & E).
  unfold key3_lt in E. lia.
Qed.

Lemma ltb_asym x y : ltb x y = true -> ltb y x = false.
Proof.
  intros (_ & _ & E)%ltb_key. destruct (ltb y x) eqn:E'; [| done].
  apply ltb_key in E' as (_ & _ & E'). unfold key3_lt in *. lia.
Qed.

Lemma ltb_trans x y z : ltb x y = true -> ltb y z = true -> ltb x z = true.
Proof.
  intros (Hx & _ & E1)%ltb_key (_ & Hz & E2)%ltb_key. apply ltb_key.
  split; [done |]. split; [done |]. unfold key3_lt in *. lia.
Qed.

Lemma min_cases a b :
  (ltb b a = true /\ min a b = b) \/ (ltb b a = false /\ min a b = a).
Proof. unfold min. destruct (ltb b a); auto. Qed.

End FloatOrderFacts.

(** ** The scale factor *)

Section ScaleFactorFacts.
Import Float.

Lemma scale_ok_one : scale_ok one.
Proof. rewrite one_eq. simpl. lia. Qed.

Lemma SFdiv_core_binary_nonneg m1 e1 m2 e2 :
  0 <= m1 -> 0 < m2 -> 0 <= (SFdiv_core_binary prec emax m1 e1 m2 e2).1.1.
Proof.
  intros H1 H2. unfold SFdiv_core_binary.
  set (s := e1 - e2 - _).
  set (m' := match s with Z0 => m1 | Zpos _ => Z.shiftl m1 s | Zneg _ => 0 end).
  assert (0 <= m') as Hm'.
  { unfold m'. destruct s; [done | | done]. by apply Z.shiftl_nonneg. }
  pose proof (Z_div_mod m' m2 ltac:(lia)) as Hdm.
  destruct (Z.div_eucl m' m2) as [q r]. cbn [fst]. nia.
Qed.

(** A quotient of two integers that [int_truediv] returns is finite, with
    a mantissa of at most 53 digits. *)
Lemma int_truediv_ok a b q : int_truediv a b = inr q -> scale_ok q.
Proof.
  unfold int_truediv. destruct (b =? 0) eqn:Eb; [done |].
  destruct (is_finite _) eqn:Ef; [| done]. intros E. injection E as <-.
  destruct a as [|pa|pa], b as [|pb|pb]; try done; cbn [exact SFdiv] in *;
    match goal with
    | |- context [SFdiv_core_binary ?p ?e ?m1 ?e1 ?m2 ?e2] =>
        pose proof (SFdiv_core_binary_nonneg m1 e1 m2 e2 ltac:(lia) ltac:(lia)) as Hq;
        destruct (SFdiv_core_binary p e m1 e1 m2 e2) as [[mz ez] lz]; cbn [fst] in Hq;
        pose proof (binary_round_aux_digits (xorb false false) mz ez lz Hq);
        pose proof (binary_round_aux_digits (xorb false true) mz ez lz Hq);
        pose proof (binary_round_aux_digits (xorb true false) mz ez lz Hq);
        pose proof (binary_round_aux_digits (xorb true true) mz ez lz Hq)
    end;
    destruct (binary_round_aux _ _ _ _ _ _); done.
Qed.

Lemma min_ok a b : scale_ok a -> scale_ok b -> scale_ok (min a b).
Proof. intros Ha Hb. unfold min. by destruct (ltb b a). Qed.

Lemma apply_bound_ok s size bound s' :
  scale_ok s -> apply_bound s size bound = inr s' -> scale_ok s'.
Proof.
  intros Hs. unfold apply_bound. destruct bound as [b|]; [| by intros [= <-]].
  destruct (b <? size); [| by intros [= <-]].
  destruct (int_truediv b size) as [e|q] eqn:Eq; [done |].
  intros [= <-]. apply min_ok; [done |]. by eapply int_truediv_ok.
Qed.

Lemma scale_factor_ok w h max_w max_h s :
  scale_factor w h max_w max_h = inr s -> scale_ok s.
Proof.
  unfold scale_factor.
  destruct (apply_bound one w max_w) as [e|s1] eqn:E1; [done |].
  cbn [mbind result_bind]. intros E2.
  eapply apply_bound_ok; [| exact E2]. eapply apply_bound_ok; [| exact E1].
  apply scale_ok_one.
Qed.

(** One bound: the new scale is the old one or the ratio of the bound,
    whichever is smaller. *)
Lemma apply_bound_spec s size bound s' :
  apply_bound s size bound = inr s' ->
  s' = fold_left min (exceeded_ratio size bound) s.
Proof.
  unfold apply_bound, exceeded_ratio. destruct bound as [b|]; [| by intros [= <-]].
  destruct (b <? size); [| by intros [= <-]].
  destruct (int_truediv b size) as [e|q]; [done |]. by intros [= <-].
Qed.

Lemma ltb_false_key x y :
  x <> S754_nan -> y <> S754_nan ->
  ltb x y = false <-> ~ key3_lt (float_key x) (float_key y).
Proof.
  intros Hx Hy. pose proof (ltb_key x y) as K. destruct (ltb x y).
  - split; [done |]. intros N. exfalso. apply N. by apply K.
  - split; [| done]. intros _ N. assert (false = true); [| done]. apply K. done.
Qed.

(** Folding [min] over a list of numbers yields a least element. *)
Lemma fold_min_is_min l s :
  (forall q, q ∈ s :: l -> q <> S754_nan) ->
  is_min_of (fold_left min l s) (s :: l).
Proof.
  revert s. induction l as [|q l IH]; intros s Hnan.
  - split; [left |]. intros q [-> | []%elem_of_nil]%elem_of_cons. apply ltb_irrefl.
  - cbn [fold_left].
    assert (s <> S754_nan) as Hs by (apply Hnan; left).
    assert (q <> S754_nan) as Hq by (apply Hnan; right; left).
    assert (min s q = s \/ min s q = q) as Hsq.
    { unfold min. destruct (ltb q s); auto. }
    assert (forall x, x ∈ min s q :: l -> x ∈ s :: q :: l) as Hsub.
    { intros x [-> | Hx]%elem_of_cons.
      - destruct Hsq as [-> | ->]; [left | right; left].
      - right. by right. }
    destruct (IH (min s q)) as [Hin Hmin]; [intros x Hx; by apply Hnan, Hsub |].
    set (F := fold_left min l (min s q)) in *.
    assert (F <> S754_nan) as HF by by apply Hnan, Hsub.
    split; [by apply Hsub |].
    assert (ltb (min s q) F = false) as Hm by (apply Hmin; left).
    intros x [-> | [-> | Hx]%elem_of_cons]%elem_of_cons; [| | apply Hmin; by right].
    + destruct (min_cases s q) as [[Hlt E] | [Hlt E]]; rewrite E in Hm; [| done].
      apply ltb_key in Hlt as (_ & _ & Hlt).
      apply ltb_false_key in Hm; [| done..]. apply ltb_false_key; [done.. |].
      unfold key3_lt in *. lia.
    + destruct (min_cases s q) as [[Hlt E] | [Hlt E]]; rewrite E in Hm; [done |].
      apply ltb_false_key in Hlt; [| done..].
      apply ltb_false_key in Hm; [| done..]. apply ltb_false_key; [done.. |].
      unfold key3_lt in *. lia.
Qed.

End ScaleFactorFacts.

(** ** Claims about scaling *)

Section ScaleClaims.
Context `{Pillow}.
Import Float.

Lemma scale_ok_not_nan s : scale_ok s -> s <> S754_nan.
Proof. by destruct s. Qed.

Lemma exceeded_ratio_ok size bound q : q ∈ exceeded_ratio size bound -> scale_ok q.
Proof.
  unfold exceeded_ratio. destruct bound as [b|]; [| by intros ?%elem_of_nil].
  destruct (b <? size); [| by intros ?%elem_of_nil].
  destruct (int_truediv b size) as [e|r] eqn:E; [by intros ?%elem_of_nil |].
  intros ->%list_elem_of_singleton. by eapply int_truediv_ok.
Qed.

(** The scale factor is the least of [1.0] and the ratios of the bounds
    that are set and exceeded. *)
Lemma scale_factor_is_min w h max_w max_h s :
  scale_factor w h max_w max_h = inr s ->
  is_min_of s (one :: exceeded_ratio w max_w ++ exceeded_ratio h max_h).
Proof.
  unfold scale_factor.
  destruct (apply_bound one w max_w) as [e|s1] eqn:E1; [done |].
  cbn [mbind result_bind]. intros E2.
  apply apply_bound_spec in E1, E2. subst s1.
  rewrite <- fold_left_app in E2. subst s. apply fold_min_is_min.
  intros q [-> | [Hq | Hq]%elem_of_app]%elem_of_cons.
  - apply scale_ok_not_nan, scale_ok_one.
  - by eapply scale_ok_not_nan, exceeded_ratio_ok.
  - by eapply scale_ok_not_nan, exceeded_ratio_ok.
Qed.

Lemma scale_image_eq im max_w max_h :
  max_w <> None \/ max_h <> None ->
  scale_image im max_w max_h =
  (scale ← scale_factor (width im) (height im) max_w max_h;
   if ltb scale one then
     fw ← int_mul (width im) scale;
     nw ← to_int fw;
     fh ← int_mul (height im) scale;
     nh ← to_int fh;
     resize im nw nh
   else mret im).
Proof. intros [N | N]; destruct max_w, max_h; done. Qed.

(** What a call that resizes went through. *)
Lemma scale_image_resized im max_w max_h s im' :
  max_w <> None \/ max_h <> None ->
  scale_factor (width im) (height im) max_w max_h = inr s ->
  ltb s one = true ->
  scale_image im max_w max_h = inr im' ->
  exists fw fh,
    int_mul (width im) s = inr fw /\ to_int fw = inr (width im')
    /\ int_mul (height im) s = inr fh /\ to_int fh = inr (height im').
Proof.
  intros N Es Hlt. rewrite (scale_image_eq _ _ _ N), Es.
  cbn [mbind result_bind]. rewrite Hlt.
  destruct (int_mul (width im) s) as [e|fw]; [done |]. cbn [mbind result_bind].
  destruct (to_int fw) as [e|nw] eqn:E2; [done |]. cbn [mbind result_bind].
  destruct (int_mul (height im) s) as [e|fh]; [done |]. cbn [mbind result_bind].
  destruct (to_int fh) as [e|nh] eqn:E4; [done |]. cbn [mbind result_bind].
  intros [-> ->]%resize_size. by exists fw, fh.
Qed.

Lemma scale_factor_example :
  scale_factor 1600 1000 (Some 800) None = inr (S754_finite false 4503599627370496 (-53)).
Proof. by vm_compute. Qed.

(** C4: scaling with no bound returns the image itself; a call that
    returns never returns a wider or a higher image; the scale factor
    is the least of [1.0] and the ratios [max_w / w] and [max_h / h] of
    the bounds that are set and exceeded, the image is returned as it
    is when the factor is not below [1.0], and else both sides are
    multiplied by this one factor and truncated; a 1600 x 1000 image
    with [max_w = 800] and no [max_h] becomes 800 x 500. *)
Theorem scale_image_never_upscales (im : Image) (max_w max_h : option Z) :
  0 <= width im < 2 ^ 53 -> 0 <= height im < 2 ^ 53 ->
  scale_image im None None = inr im
  /\ (forall im', scale_image im max_w max_h = inr im' ->
        width im' <= width im /\ height im' <= height im)
  /\ (forall s,
        max_w <> None \/ max_h <> None ->
        scale_factor (width im) (height im) max_w max_h = inr s ->
        is_min_of s (one :: exceeded_ratio (width im) max_w
                         ++ exceeded_ratio (height im) max_h)
        /\ (ltb s one = false -> scale_image im max_w max_h = inr im)
        /\ (ltb s one = true ->
            forall im', scale_image im max_w max_h = inr im' ->
            exists fw fh,
              int_mul (width im) s = inr fw /\ to_int fw = inr (width im')
              /\ int_mul (height im) s = inr fh /\ to_int fh = inr (height im')))
  /\ (width im = 1600 -> height im = 1000 ->
      exists im', scale_image im (Some 800) None = inr im'
                  /\ width im' = 800 /\ height im' = 500).
Proof.
  intros Hw Hh. split; [done |]. split; [| split].
  - intros im' E.
    destruct (decide (max_w = None /\ max_h = None)) as [[-> ->] | N].
    { injection E as <-. lia. }
    assert (max_w <> None \/ max_h <> None) as N'.
    { destruct max_w, max_h; [by left | by left | by right |].
      exfalso. by apply N. }
    pose proof E as E0. rewrite (scale_image_eq _ _ _ N') in E.
    destruct (scale_factor (width im) (height im) max_w max_h) as [e|s] eqn:Es; [done |].
    cbn [mbind result_bind] in E.
    destruct (ltb s one) eqn:Hlt; [| injection E as <-; lia].
    destruct (scale_image_resized _ _ _ _ _ N' Es Hlt E0) as (fw & fh & E1 & E2 & E3 & E4).
    pose proof (scale_factor_ok _ _ _ _ _ Es) as Hok.
    split; eapply scaled_size_le; eauto.
  - intros s N Es. split; [by apply scale_factor_is_min |]. split.
    + intros Hlt. rewrite (scale_image_eq _ _ _ N), Es. cbn [mbind result_bind].
      by rewrite Hlt.
    + intros Hlt im' E. by eapply scale_image_resized.
  - intros Ew Eh. rewrite scale_image_eq by (left; done).
    rewrite Ew, Eh, scale_factor_example. cbn [mbind result_bind].
    assert (ltb (S754_finite false 4503599627370496 (-53)) one = true) as -> by by vm_compute.
    assert (int_mul 1600 (S754_finite false 4503599627370496 (-53))
            = inr (S754_finite false 7036874417766400 (-43))) as -> by by vm_compute.
    assert (int_mul 1000 (S754_finite false 4503599627370496 (-53))
            = inr (S754_finite false 8796093022208000 (-44))) as -> by by vm_compute.
    cbn [mbind result_bind].
    assert (to_int (S754_finite false 7036874417766400 (-43)) = inr 800) as -> by by vm_compute.
    assert (to_int (S754_finite false 8796093022208000 (-44)) = inr 500) as -> by by vm_compute.
    cbn [mbind result_bind].
    destruct (resize_returns im 800 500) as [im' E]; [lia | lia |].
    exists im'. split; [done |]. by apply resize_size in E.
Qed.

End ScaleClaims.

(** The claim at work on a 1600 x 1000 scan with [max_w = 800]. *)
Lemma scale_of_wide_scan :
  exists im',
    @scale_image simple_pillow
      {| width := 1600; height := 1000; pixels := Decoded "/tmp/up/scan.jpg" |}
      (Some 800) None = inr im'
    /\ width im' <= 1600 /\ height im' <= 1000.
Proof.
  eexists. split; [by vm_compute |].
  apply (@scale_image_never_upscales simple_pillow
           {| width := 1600; height := 1000; pixels := Decoded "/tmp/up/scan.jpg" |}
           (Some 800) None); [simpl; lia | simpl; lia | by vm_compute].
Defined.

(** ** Stripping *)

Section StripFacts.
Import Str.

Lemma rev_app_spec s acc : String.rev_app s acc = String.rev s +:+ acc.
Proof.
  unfold String.rev. revert acc. induction s as [|c s IH]; intros acc; [done |].
  simpl. rewrite (IH (String c "")), IH. by rewrite sapp_assoc.
Qed.

Lemma rev_cons c s : String.rev (String c s) = String.rev s +:+ String c "".
Proof. unfold String.rev at 1. simpl. apply rev_app_spec. Qed.

Lemma rev_sapp a b : String.rev (a +:+ b) = String.rev b +:+ String.rev a.
Proof.
  induction a as [|c a IH]; [by rewrite sapp_nil_l, sapp_nil_r |].
  rewrite sapp_cons, !rev_cons, IH. by rewrite sapp_assoc.
Qed.

Lemma rev_involutive s : String.rev (String.rev s) = s.
Proof.
  induction s as [|c s IH]; [done |].
  rewrite rev_cons, rev_sapp, IH. done.
Qed.

Lemma all_rev p s : all p (String.rev s) = all p s.
Proof.
  induction s as [|c s IH]; [done |].
  rewrite rev_cons, all_app, IH. simpl. rewrite andb_true_r. apply andb_comm.
Qed.

(** [lstrip] removes the longest run of set characters from the front. *)
Lemma lstrip_spec chars s :
  exists t, s = t +:+ lstrip chars s
            /\ all (fun c => mem c chars) t = true
            /\ head_is (fun c => mem c chars) (lstrip chars s) = false.
Proof.
  induction s as [|c s (t & E & Ht & Hh)]; [by exists "" |].
  simpl. destruct (mem c chars) eqn:Ec.
  - exists (String c t). rewrite sapp_cons, <- E. simpl. by rewrite Ec, Ht.
  - exists "". simpl. by rewrite Ec.
Qed.

(** [rstrip] removes the longest run of set characters from the back. *)
Lemma rstrip_spec chars s :
  exists t, s = rstrip chars s +:+ t
            /\ all (fun c => mem c chars) t = true
            /\ head_is (fun c => mem c chars) (String.rev (rstrip chars s)) = false.
Proof.
  unfold rstrip. destruct (lstrip_spec chars (String.rev s)) as (t & E & Ht & Hh).
  exists (String.rev t). split; [| split].
  - rewrite <- rev_sapp, <- E. by rewrite rev_involutive.
  - by rewrite all_rev.
  - by rewrite rev_involutive.
Qed.

Lemma head_is_app_l p a b : head_is p (a +:+ b) = true -> a <> "" -> head_is p a = true.
Proof. destruct a; [done |]. by rewrite sapp_cons. Qed.

(** [strip]: what is removed at either end consists of set characters,
    and what is left neither starts nor ends with one. *)
Lemma strip_spec chars s :
  exists a b,
    s = a +:+ strip chars s +:+ b
    /\ all (fun c => mem c chars) a = true
    /\ all (fun c => mem c chars) b = true
    /\ head_is (fun c => mem c chars) (strip chars s) = false
    /\ head_is (fun c => mem c chars) (String.rev (strip chars s)) = false.
Proof.
  unfold strip.
  destruct (lstrip_spec chars s) as (a & Ea & Ha & Hh).
  destruct (rstrip_spec chars (lstrip chars s)) as (b & Eb & Hb & Hr).
  exists a, b. split; [by rewrite <- Eb |]. split; [done |]. split; [done |].
  split; [| done].
  destruct (rstrip chars (lstrip chars s)) as [|c r] eqn:Er; [done |].
  rewrite Eb, sapp_cons in Hh. done.
Qed.

End StripFacts.

(** ** More about the sort key *)

Section KeyExtras.
Import Str PageRe PagePattern.
Variable priority : list string.
Variable filename_map : option (gmap string string).

Lemma pr_rank_loop_inv i kws nm dflt r :
  pr_rank_loop i kws nm dflt = r ->
  (r = dflt /\ Forall (fun kw => contains kw nm = false) kws)
  \/ (exists k kw, r = (i + k)%nat /\ kws !! k = Some kw /\ contains kw nm = true
        /\ forall j kw', (j < k)%nat -> kws !! j = Some kw' -> contains kw' nm = false).
Proof.
  revert i. induction kws as [|kw0 kws IH]; intros i E; simpl in E.
  - left. by split.
  - destruct (contains kw0 nm) eqn:E0.
    + right. exists 0%nat, kw0. split; [lia |]. split; [done |]. split; [done |].
      intros j kw' Hj. lia.
    + destruct (IH (S i) E) as [[-> Hall] | (k & kw & -> & Hk & Hc & Hb)].
      * left. split; [done |]. by constructor.
      * right. exists (S k), kw. split; [lia |]. split; [done |]. split; [done |].
        intros [|j] kw' Hj Hl; simpl in Hl; [by injection Hl as <- |].
        apply (Hb j); [lia | done].
Qed.

(** X1: the bucket of a name is the position of the first keyword of the
    priority list that occurs in it, letter case apart; when no keyword
    occurs it is [len(priority) + 1]. *)
Theorem pr_rank_first_keyword (d : string) :
  let r := pr_rank priority (lower d) in
  (r = (List.length priority + 1)%nat /\ ~ matches_keyword priority d)
  \/ ((r < List.length priority)%nat
      /\ exists kw, priority !! r = Some kw
           /\ Occurs (lower kw) (lower d)
           /\ forall j kw', (j < r)%nat -> priority !! j = Some kw' ->
                ~ Occurs (lower kw') (lower d)).
Proof.
  intros r.
  destruct (pr_rank_loop_inv 0 (priority_l priority) (lower d)
              (List.length (priority_l priority) + 1) r eq_refl)
    as [[Er Hall] | (k & kwl & Er & Hk & Hc & Hb)].
  - left. rewrite priority_l_length in Er. split; [done |].
    intros (kw & Hin & Hocc). rewrite Forall_forall in Hall.
    apply contains_spec in Hocc. rewrite Hall in Hocc; [done |].
    unfold priority_l. apply list_elem_of_In, in_map_iff. exists kw.
    split; [done | by apply list_elem_of_In].
  - right. simpl in Er. unfold priority_l in Hk. rewrite list_lookup_fmap in Hk.
    destruct (priority !! k) as [kw|] eqn:Ek; [| done]. injection Hk as <-.
    split; [rewrite Er; by eapply lookup_lt_Some |].
    exists kw. rewrite Er. split; [done |]. split; [by apply contains_spec |].
    intros j kw' Hj Hl Hocc. apply contains_spec in Hocc.
    rewrite (Hb j (lower kw') Hj) in Hocc; [done |].
    unfold priority_l. by rewrite list_lookup_fmap, Hl.
Qed.

(** X2: the base name is what is left of the name, its page-number
    tokens removed, once the hyphens, underscores and spaces at both
    ends are taken away: it neither starts nor ends with one. *)
Theorem base_has_no_outer_separators (nm : string) :
  exists a b,
    sub_empty nm = a +:+ base nm +:+ b
    /\ all is_sep a = true /\ all is_sep b = true
    /\ head_is is_sep (base nm) = false
    /\ head_is is_sep (String.rev (base nm)) = false.
Proof. apply strip_spec. Qed.

Lemma digit_val_nonneg c : is_digit c = true -> 0 <= digit_val c <= 9.
Proof.
  unfold is_digit, digit_val. intros [H1 H2]%andb_prop.
  apply N.leb_le in H1, H2. lia.
Qed.

Lemma int_acc_nonneg acc ds : 0 <= acc -> all is_digit ds = true -> 0 <= int_acc acc ds.
Proof.
  revert acc. induction ds as [|c ds IH]; intros acc Hacc Hall; [done |].
  simpl in *. apply andb_prop in Hall as [Hc Hds].
  apply IH; [| done]. pose proof (digit_val_nonneg c Hc). lia.
Qed.

(** X3: a page number is never negative; a name without a page-number
    token has page number 0, the least there is. *)
Theorem page_num_nonneg (nm : string) :
  0 <= page_num nm /\ (NoMatch nm -> page_num nm = 0).
Proof.
  unfold page_num. destruct (search nm) as [[[pre ds] rest]|] eqn:E.
  - split.
    + apply search_sound in E as ((tok & _ & Htok) & _).
      destruct Htok as (p & ws1 & n & dot & ws2 & _ & _ & _ & _ & _ & _ & Hds & _).
      by apply int_acc_nonneg.
    + intros Hno. exfalso. apply search_sound in E as ((tok & Etok & Htok) & _).
      apply (Hno pre). by exists tok, ds, rest.
  - by split.
Qed.

(** X4: without a map of original names, with an empty one, or for a
    path the map has no entry for, the key is the one [build_sort_key]
    computes from the path's stem. *)
Theorem sort_key_without_map (pair : nat * Path) :
  (filename_map = None
   \/ filename_map = Some ∅
   \/ (exists m, filename_map = Some m /\ m !! path_str pair.2 = None)) ->
  sort_key priority filename_map pair = build_sort_key priority pair.
Proof.
  destruct pair as [idx path]. unfold sort_key, build_sort_key, display_name.
  intros [-> | [-> | (m & -> & Hm)]]; [done | by rewrite lookup_empty |].
  simpl in Hm. by rewrite Hm.
Qed.

End KeyExtras.

Lemma sort_key_without_map_example :
  sort_key DEFAULT_PRIORITY (Some ∅) (0%nat, dainik1)
  = build_sort_key DEFAULT_PRIORITY (0%nat, dainik1).
Proof. apply sort_key_without_map. right. by left. Defined.

(** ** More about the ranking *)

Section RankExtras.
Variable priority : list string.
Variable filename_map : option (gmap string string).

Local Abbreviation nm_of p := (Str.lower (display_name filename_map p)).
Local Abbreviation gkey := (group_key priority filename_map).
Local Abbreviation skey := (sort_key priority filename_map).

(** The pages of the ranked sequence, read without their indices, are
    in ascending order of (bucket, base name, page number). *)
Lemma rank_sorted_by_group image_paths :
  StronglySorted (fun p q => group_compare (gkey p) (gkey q) <> Gt)
    (rank priority filename_map image_paths).
Proof.
  apply StronglySorted_lookup. intros a b p q Hab Ha Hb.
  unfold rank in Ha, Hb. rewrite list_lookup_fmap in Ha, Hb.
  destruct (ranked_pairs _ _ _ !! a) as [[i p']|] eqn:Ea; [| done].
  destruct (ranked_pairs _ _ _ !! b) as [[j q']|] eqn:Eb; [| done].
  simpl in Ha, Hb. injection Ha as ->. injection Hb as ->.
  pose proof (ranked_pairs_ascending _ _ _ _ _ _ _ Hab Ea Eb) as Hlt.
  rewrite !sort_key_group in Hlt. by apply group_compare_le_of_key in Hlt.
Qed.

(** X5: of two ranked pages, the one with the smaller bucket comes
    first; with equal buckets, the one whose base name is smaller as a
    string; with equal buckets and base names, the one with the smaller
    page number, compared as a number. *)
Theorem ranked_before (image_paths : list Path) a b i p j q :
  ranked_pairs priority filename_map image_paths !! a = Some (i, p) ->
  ranked_pairs priority filename_map image_paths !! b = Some (j, q) ->
  (pr_rank priority (nm_of p) < pr_rank priority (nm_of q))%nat
  \/ (pr_rank priority (nm_of p) = pr_rank priority (nm_of q)
      /\ String.ltb (base (nm_of p)) (base (nm_of q)) = true)
  \/ (pr_rank priority (nm_of p) = pr_rank priority (nm_of q)
      /\ base (nm_of p) = base (nm_of q)
      /\ page_num (nm_of p) < page_num (nm_of q)) ->
  (a < b)%nat.
Proof.
  intros Ha Hb Hord.
  assert (key_compare (skey (i, p)) (skey (j, q)) = Lt) as Hlt.
  { unfold sort_key, key_compare, cmp_pair, lex. cbn [fst snd].
    destruct Hord as [H1 | [(H1 & H2) | (H1 & H2 & H3)]].
    - apply Nat.compare_lt_iff in H1. by rewrite H1.
    - rewrite H1, Nat.compare_refl. unfold String.ltb in H2.
      by destruct (String.compare _ _).
    - rewrite H1, Nat.compare_refl, H2, string_compare_refl.
      apply Z.compare_lt_iff in H3. by rewrite H3. }
  destruct (lt_eq_lt_dec a b) as [[Hab | ->] | Hba]; [done | |].
  - rewrite Ha in Hb. injection Hb as -> ->.
    by rewrite (proj2 (cmp_eq (cmp:=key_compare) _ _) eq_refl) in Hlt.
  - pose proof (ranked_pairs_ascending _ _ _ _ _ _ _ Hba Hb Ha) as Hgt.
    rewrite (cmp_antisym (cmp:=key_compare)), Hgt in Hlt. done.
Qed.

#[local] Instance group_compare_ordered : Ordered group_compare.
Proof. unfold group_compare. apply _. Qed.

(** X6: when no two pages share bucket, base name and page number, the
    ranked sequence does not depend on the order in which the pages
    were given. *)
Theorem rank_ignores_input_order (image_paths image_paths' : list Path) :
  NoDup (gkey <$> image_paths) ->
  image_paths' ≡ₚ image_paths ->
  rank priority filename_map image_paths' = rank priority filename_map image_paths.
Proof.
  intros Hnd Hperm.
  apply (StronglySorted_unique_strong
           (fun p q => group_compare (gkey p) (gkey q) <> Gt));
    [| apply rank_sorted_by_group | apply rank_sorted_by_group
     | by rewrite !rank_perm].
  intros p q Hp Hq H1 H2. rewrite rank_perm in Hp, Hq. rewrite Hperm in Hp.
  assert (gkey p = gkey q) as Hk.
  { rewrite (cmp_antisym (cmp:=group_compare)) in H2.
    destruct (group_compare (gkey p) (gkey q)) eqn:E; try done.
    by apply cmp_eq in E. }
  apply list_elem_of_lookup_1 in Hp as [x Hx], Hq as [y Hy].
  assert (x = y) as ->; [| congruence].
  eapply NoDup_lookup; [exact Hnd | |]; rewrite list_lookup_fmap.
  - by rewrite Hx.
  - by rewrite Hy, Hk.
Qed.

End RankExtras.

(** Page 2 before page 10, and the front page, which has no number,
    before both; the paper named later in the priority list comes last. *)
Lemma ranked_before_example :
  rank DEFAULT_PRIORITY (Some names_patrika) [patrika10; city1; patrika2; patrika_front]
  = [city1; patrika_front; patrika2; patrika10]
  /\ (2 < 3)%nat.
Proof.
  split; [by vm_compute |].
  apply (ranked_before DEFAULT_PRIORITY (Some names_patrika)
           [patrika10; city1; patrika2; patrika_front] 2 3 2 patrika2 0 patrika10);
    [by vm_compute | by vm_compute |].
  right. right. by vm_compute.
Defined.

Lemma rank_ignores_input_order_example :
  rank DEFAULT_PRIORITY (Some names_patrika) [patrika_front; patrika2; city1; patrika10]
  = rank DEFAULT_PRIORITY (Some names_patrika) [patrika10; city1; patrika2; patrika_front].
Proof.
  apply rank_ignores_input_order.
  - apply (bool_decide_unpack _). by vm_compute.
  - apply (bool_decide_unpack _). by vm_compute.
Defined.

(** ** More about the Renderer *)

Section RendererExtras.
Context `{Pillow} `{Server}.
Import Float.

Lemma apply_bound_not_exceeded scale size bound :
  (forall b, bound = Some b -> size <= b) -> apply_bound scale size bound = inr scale.
Proof.
  intros Hb. unfold apply_bound. destruct bound as [b|]; [| done].
  specialize (Hb b eq_refl). destruct (b <? size) eqn:E; [| done].
  apply Z.ltb_lt in E. lia.
Qed.

(** X7: an image that exceeds none of the bounds that are set is
    returned as it is, without a call to [resize]. *)
Theorem scale_image_keeps_fitting_image (im : Image) (max_w max_h : option Z) :
  (forall b, max_w = Some b -> width im <= b) ->
  (forall b, max_h = Some b -> height im <= b) ->
  scale_image im max_w max_h = inr im.
Proof.
  intros Hw Hh.
  destruct (decide (max_w = None /\ max_h = None)) as [[-> ->] | N]; [done |].
  rewrite scale_image_eq
    by (destruct max_w, max_h; [by left | by left | by right | exfalso; by apply N]).
  unfold scale_factor.
  rewrite (apply_bound_not_exceeded _ _ _ Hw). cbn [mbind result_bind].
  rewrite (apply_bound_not_exceeded _ _ _ Hh). cbn [mbind result_bind].
  by rewrite ltb_irrefl.
Qed.

(** A call that returns does not return a wider or a higher image. *)
Lemma scale_image_le im max_w max_h im' :
  0 <= width im < 2 ^ 53 -> 0 <= height im < 2 ^ 53 ->
  scale_image im max_w max_h = inr im' ->
  width im' <= width im /\ height im' <= height im.
Proof.
  intros Hw Hh E.
  destruct (decide (max_w = None /\ max_h = None)) as [[-> ->] | N].
  { injection E as <-. lia. }
  assert (max_w <> None \/ max_h <> None) as N'
    by (destruct max_w, max_h; [by left | by left | by right | exfalso; by apply N]).
  pose proof E as E0. rewrite (scale_image_eq _ _ _ N') in E.
  destruct (scale_factor (width im) (height im) max_w max_h) as [e|s] eqn:Es; [done |].
  cbn [mbind result_bind] in E.
  destruct (ltb s one) eqn:Hlt; [| injection E as <-; lia].
  destruct (scale_image_resized _ _ _ _ _ N' Es Hlt E0) as (fw & fh & E1 & E2 & E3 & E4).
  pose proof (scale_factor_ok _ _ _ _ _ Es) as Hok.
  split; eapply scaled_size_le; eauto.
Qed.

Section Pages.
Variable priority : list string.
Variable all_label : option string.
Variable font_size : Z.
Variable max_w max_h : option Z.
Variable no_label : bool.
Variable output_path : Path.
Variable filename_map : option (gmap string string).

Local Abbreviation process :=
  (process_page all_label font_size max_w max_h no_label filename_map).
Local Abbreviation processed :=
  (processed_pages all_label font_size max_w max_h no_label filename_map).
Local Abbreviation skipped :=
  (skipped_pages all_label font_size max_w max_h no_label filename_map).
Local Abbreviation gen :=
  (generate_pdf priority all_label font_size max_w max_h no_label output_path
     filename_map).

Lemma processed_skipped_length ordered :
  (List.length (processed ordered) + List.length (skipped ordered))%nat
  = List.length ordered.
Proof.
  unfold processed_pages, skipped_pages.
  induction ordered as [|p ordered IH]; [done |].
  cbn [omap list_omap]. destruct (process p); cbn [List.length]; lia.
Qed.

(** X8: when the sort returns, every page given to [generate_pdf] is
    either processed or reported in the warnings, and in one of them
    only: the two counts add up to the number of pages.  When
    [generate_pdf] returns, the number returned is the number of pages
    of the saved document, at least one and at most the number of pages
    given, and with the warnings it adds up to the number of pages
    given; when it raises, no document is saved. *)
Theorem generate_pdf_accounts_for_every_page (image_paths : list Path) :
  let out := gen image_paths in
  let ordered := rank priority filename_map image_paths in
  (sort_error filename_map image_paths = None ->
   (List.length (processed ordered) + List.length (warnings out))%nat
   = List.length image_paths)
  /\ (forall n, returned out = inr n ->
        (0 < n <= List.length image_paths)%nat
        /\ (n + List.length (warnings out))%nat = List.length image_paths
        /\ exists doc, document out = Some doc /\ List.length doc = n)
  /\ (forall e, returned out = inl e -> document out = None).
Proof.
  intros out ordered. unfold out, ordered. rewrite generate_pdf_spec. cbv zeta.
  pose proof (processed_skipped_length (rank priority filename_map image_paths)) as Hlen.
  rewrite (Permutation_length (rank_perm priority filename_map image_paths)) in Hlen.
  destruct (sort_error _ _) as [e0|]; [by split; [| split; [| intros e [= <-]]] |].
  destruct (processed _) as [|first rest] eqn:E.
  { split; [done |]. split; [by intros n [=] | done]. }
  destruct (save_all _ _ _) as [e|u]; cbn [returned document warnings].
  - split; [done |]. split; [by intros n [=] | done].
  - split; [done |]. split; [| by intros e [=]].
    intros n [= <-]. cbn [List.length] in *. split; [lia |]. split; [lia |].
    by eexists.
Qed.

(** X9: a page of the saved document is the decoded scan of one of the
    pages given, scaled; with labels suppressed it is the scaled image
    itself, and otherwise it has the width of the scaled image, its
    height plus the height of the label's text plus 20, and the label
    chosen for the page.  It is never wider than the scan, and with
    labels suppressed never higher. *)
Theorem document_pages_come_from_scans (image_paths : list Path) doc page :
  document (gen image_paths) = Some doc -> page ∈ doc ->
  exists p scan scaled,
    p ∈ image_paths
    /\ open_rgb p = inr scan
    /\ scale_image scan max_w max_h = inr scaled
    /\ width page = width scaled
    /\ (no_label = true -> page = scaled)
    /\ (no_label = false ->
        height page = height scaled + band_height font_size (label_for all_label filename_map p)
        /\ label_text page = Some (label_for all_label filename_map p))
    /\ (0 <= width scan < 2 ^ 53 -> 0 <= height scan < 2 ^ 53 ->
        width page <= width scan
        /\ (no_label = true -> height page <= height scan)).
Proof.
  intros Hdoc Hpage. apply generate_pdf_document in Hdoc as [_ ->].
  apply elem_of_processed in Hpage as (p & Hp & Ep). rewrite rank_perm in Hp.
  unfold process_page in Ep.
  destruct (open_rgb p) as [e|scan] eqn:Eo; [done |]. cbn [mbind result_bind] in Ep.
  destruct (scale_image scan max_w max_h) as [e|scaled] eqn:Es; [done |].
  cbn [mbind result_bind] in Ep.
  exists p, scan, scaled. split; [done |]. split; [done |]. split; [done |].
  assert (width page = width scaled) as Hwidth.
  { destruct no_label; injection Ep as <-; [done |].
    unfold add_label. by destruct (textbbox _ _) as [[[x0 y0] x1] y1]. }
  split; [done |]. split; [| split].
  - intros ->. by injection Ep as <-.
  - intros ->. injection Ep as <-. unfold add_label, band_height, label_text.
    by destruct (textbbox _ _) as [[[x0 y0] x1] y1].
  - intros Hw Hh. destruct (scale_image_le _ _ _ _ Hw Hh Es) as [Hle1 Hle2].
    split; [lia |]. intros ->. injection Ep as <-. done.
Qed.

End Pages.

(** X10: [generate], once the uploads are saved, answers with a bad
    request only when there is no image to process.  It answers with a
    server error that carries the exception of the sort, the
    empty-batch error when the sort returns and no image could be
    processed, the exception of saving the document, or the exception
    of [send_file].  Otherwise it sends a document of at least one
    page: the processed pages in ranked order, saved and sent without
    an exception. *)
Theorem generate_response_cases
    (form : gmap string string) (priority : list string) (font_size : Z)
    (max_w max_h : option Z) (image_paths : list Path)
    (filename_map : gmap string string)
    (output_filename : string) (output_path : Path) :
  let pages :=
    processed_pages (form_all_label form) font_size max_w max_h
      (form_no_label form) (Some filename_map)
      (rank priority (Some filename_map) image_paths) in
  let raised := sort_error (Some filename_map) image_paths in
  let saved :=
    match pages with
    | [] => inr tt
    | first :: rest => save_all first (path_str output_path) rest
    end in
  let sent := send_file (path_str output_path) output_filename in
  match generate form priority font_size max_w max_h image_paths filename_map
          output_filename output_path with
  | BadRequest _ => image_paths = []
  | ServerError e =>
      image_paths <> []
      /\ (raised = Some e
          \/ (raised = None /\ pages = [] /\ e = EmptyBatchError)
          \/ (raised = None /\ pages <> [] /\ saved = inl e)
          \/ (raised = None /\ pages <> [] /\ saved = inr tt /\ sent = inl e))
  | SendFile doc =>
      image_paths <> [] /\ raised = None /\ doc = pages /\ doc <> []
      /\ saved = inr tt /\ sent = inr tt
  end.
Proof.
  cbv zeta. rewrite generate_eq. destruct image_paths as [|p0 rest]; [done |].
  destruct (sort_error _ _) as [e0|]; [by split; [| left] |].
  destruct (processed_pages _ _ _ _ _ _ _) as [|first more].
  { split; [done |]. right. by left. }
  destruct (save_all _ _ _) as [e|[]].
  { split; [done |]. do 2 right. by left. }
  destruct (send_file _ _) as [e|[]].
  { split; [done |]. by do 3 right. }
  done.
Qed.

End RendererExtras.

Lemma scale_image_keeps_fitting_image_example :
  @scale_image simple_pillow
    {| width := 640; height := 480; pixels := Decoded "/tmp/up/small.jpg" |}
    (Some 800) (Some 480)
  = inr {| width := 640; height := 480; pixels := Decoded "/tmp/up/small.jpg" |}.
Proof.
  apply (@scale_image_keeps_fitting_image simple_pillow);
    intros b [= <-]; simpl; lia.
Defined.

Lemma document_pages_come_from_scans_example :
  exists p scan scaled,
    p ∈ [dainik2; dainik1]
    /\ @open_rgb simple_pillow p = inr scan
    /\ @scale_image simple_pillow scan (Some 800) None = inr scaled
    /\ 800 = width scaled.
Proof.
  destruct (@document_pages_come_from_scans simple_pillow DEFAULT_PRIORITY None 28
              (Some 800) None false out_pdf (Some names_stem) [dainik2; dainik1]
              (default [] (document (@generate_pdf simple_pillow DEFAULT_PRIORITY None 28
                 (Some 800) None false out_pdf (Some names_stem) [dainik2; dainik1])))
              {| width := 800; height := 548;
                 pixels := Labelled (Resized (Decoded (path_str dainik1)))
                             "Dainik Bhaskar Page 1" 612 48 |})
    as (p & scan & scaled & Hp & Ho & Hs & Hw & _).
  - by vm_compute.
  - vm_compute. constructor.
  - by exists p, scan, scaled.
Defined.

(** ** Reading the priority field *)

Section PriorityFacts.
Import Str.

Lemma mem_ws_chars c : mem c ws_chars = is_space c.
Proof. destruct c as [[] [] [] [] [] [] [] []]; vm_compute; reflexivity. Qed.

Lemma head_is_ext p q s : (forall c, p c = q c) -> head_is p s = head_is q s.
Proof. intros E. destruct s; [done | apply E]. Qed.

Lemma all_ext p q s : (forall c, p c = q c) -> all p s = all q s.
Proof. intros E. induction s as [|c s IH]; [done |]. simpl. by rewrite E, IH. Qed.

Lemma mem_app c a b : mem c (a +:+ b) = mem c a || mem c b.
Proof.
  induction a as [|x a IH]; [done |]. rewrite sapp_cons. simpl.
  by rewrite IH, orb_assoc.
Qed.

Lemma mem_rev c s : mem c (String.rev s) = mem c s.
Proof.
  induction s as [|x s IH]; [done |]. rewrite rev_cons, mem_app, IH. simpl.
  rewrite orb_false_r. apply orb_comm.
Qed.

Lemma split_on_nonempty sep s : split_on sep s <> [].
Proof.
  induction s as [|c s IH]; [done |]. simpl.
  destruct (Ascii.eqb c sep); [done |]. by destruct (split_on sep s).
Qed.

(** The pieces of a split have no separator in them, and joined by the
    separator they give the text back. *)
Lemma split_on_spec sep s :
  Forall (fun piece => mem sep piece = false) (split_on sep s)
  /\ String.concat (String sep "") (split_on sep s) = s.
Proof.
  induction s as [|c s [IH1 IH2]]; [by split; [repeat constructor |] |].
  simpl. destruct (Ascii.eqb_spec c sep) as [-> | Hne].
  - split; [by constructor |].
    pose proof (split_on_nonempty sep s) as Hn.
    destruct (split_on sep s) as [|piece rest] eqn:E; [done |].
    change (String.concat (String sep "") ("" :: piece :: rest))
      with ("" +:+ String sep "" +:+ String.concat (String sep "") (piece :: rest)).
    by rewrite IH2.
  - pose proof (split_on_nonempty sep s) as Hn.
    destruct (split_on sep s) as [|piece rest] eqn:E; [done |].
    apply Forall_cons_1 in IH1 as [Hp Hrest]. split.
    + constructor; [| done]. simpl. rewrite Hp, orb_false_r.
      apply Ascii.eqb_neq. congruence.
    + destruct rest as [|piece' rest]; simpl in *; by rewrite <- IH2.
Qed.

(** Splitting what was joined gives the pieces back, when no piece has a
    separator in it. *)
Lemma split_on_piece sep x :
  mem sep x = false -> split_on sep x = [x].
Proof.
  induction x as [|c x IH]; [done |]. simpl. intros [Hc Hx]%orb_false_elim.
  rewrite Ascii.eqb_sym, Hc. by rewrite (IH Hx).
Qed.

Lemma split_on_cons sep x rest :
  mem sep x = false ->
  split_on sep (x +:+ String sep rest) = x :: split_on sep rest.
Proof.
  induction x as [|c x IH]; intros Hx.
  - rewrite sapp_nil_l. simpl. by rewrite Ascii.eqb_refl.
  - simpl in Hx. apply orb_false_elim in Hx as [Hc Hx].
    rewrite sapp_cons. simpl. rewrite Ascii.eqb_sym, Hc. by rewrite (IH Hx).
Qed.

Lemma split_on_concat sep l :
  l <> [] -> Forall (fun piece => mem sep piece = false) l ->
  split_on sep (String.concat (String sep "") l) = l.
Proof.
  induction l as [|x l IH]; [done |]. intros _ [Hx Hl]%Forall_cons_1.
  destruct l as [|y l]; [by apply split_on_piece |].
  change (String.concat (String sep "") (x :: y :: l))
    with (x +:+ String sep "" +:+ String.concat (String sep "") (y :: l)).
  rewrite sapp_cons, sapp_nil_l, split_on_cons by done.
  by rewrite IH.
Qed.

Lemma lstrip_id chars s :
  head_is (fun c => mem c chars) s = false -> lstrip chars s = s.
Proof. destruct s as [|c s]; [done |]. simpl. by intros ->. Qed.

Lemma strip_id chars s :
  head_is (fun c => mem c chars) s = false ->
  head_is (fun c => mem c chars) (String.rev s) = false ->
  strip chars s = s.
Proof.
  intros H1 H2. unfold strip, rstrip.
  by rewrite (lstrip_id _ _ H1), (lstrip_id _ _ H2), rev_involutive.
Qed.

(** What [strip] leaves of a text without a given character is without
    that character too. *)
Lemma mem_strip c chars s : mem c s = false -> mem c (strip chars s) = false.
Proof.
  intros Hs. destruct (strip_spec chars s) as (a & b & E & _).
  rewrite E, !mem_app in Hs.
  apply orb_false_elim in Hs as [_ Hs]. by apply orb_false_elim in Hs as [Hs _].
Qed.

(** X11: every keyword read from the priority field is non-empty, has
    no white space at either end and no comma, and is a part of the
    field's text. *)
Theorem parse_priority_keywords_clean (priority_str kw : string) :
  kw ∈ parse_priority priority_str ->
  clean_keyword kw /\ Occurs kw priority_str.
Proof.
  unfold parse_priority. intros (piece & Hin & E)%list_elem_of_omap.
  cbv zeta in E. destruct (decide (strip ws_chars piece = "")) as [|Hne]; [done |].
  injection E as <-.
  destruct (split_on_spec "," priority_str) as [Hall Hjoin].
  rewrite Forall_forall in Hall. specialize (Hall _ Hin).
  destruct (strip_spec ws_chars piece) as (a & b & Ep & _ & _ & Hh & Hr).
  split.
  - split; [done |]. split; [| split].
    + rewrite <- Hh. apply head_is_ext. intros c. by rewrite mem_ws_chars.
    + rewrite <- Hr. apply head_is_ext. intros c. by rewrite mem_ws_chars.
    + by apply mem_strip.
  - (* the piece is a part of the field, and the keyword a part of the piece *)
    assert (Occurs piece priority_str) as (pre & post & Epiece).
    { rewrite <- Hjoin at 1. clear -Hin.
      induction (split_on "," priority_str) as [|x l IH]; [by inversion Hin |].
      apply elem_of_cons in Hin as [<- | Hin].
      - destruct l as [|y l].
        + exists "", "". rewrite sapp_nil_l, sapp_nil_r. reflexivity.
        + exists "", ("," +:+ String.concat "," (y :: l)). reflexivity.
      - destruct (IH Hin) as (pre & post & E).
        destruct l as [|y l]; [by inversion Hin |].
        exists (x +:+ "," +:+ pre), post.
        change (String.concat "," (x :: y :: l))
          with (x +:+ "," +:+ String.concat "," (y :: l)).
        rewrite E. by rewrite !sapp_assoc. }
    exists (pre +:+ a), (b +:+ post). rewrite Epiece. rewrite Ep at 1.
    by rewrite !sapp_assoc.
Qed.

(** X12: keywords that are non-empty, without white space at either end
    and without a comma, joined by commas, are read back as they were,
    in the same order. *)
Theorem parse_priority_of_joined (keywords : list string) :
  Forall clean_keyword keywords ->
  parse_priority (String.concat "," keywords) = keywords.
Proof.
  intros Hall. unfold parse_priority.
  destruct keywords as [|kw0 kws]; [done |].
  rewrite split_on_concat; [| done |].
  - induction Hall as [|kw l (Hne & Hh & Hr & Hc) Hl IH]; [done |].
    cbn [omap list_omap]. cbv zeta.
    rewrite strip_id.
    + destruct (decide (kw = "")); [done |]. by rewrite IH.
    + rewrite <- Hh. apply head_is_ext. intros c. by rewrite mem_ws_chars.
    + rewrite <- Hr. apply head_is_ext. intros c. by rewrite mem_ws_chars.
  - eapply Forall_impl; [exact Hall |]. by intros kw (_ & _ & _ & Hc).
Qed.

End PriorityFacts.

(** The default priority list is clean: a form without a priority field
    gives the default list. *)
Lemma form_priority_default :
  Forall clean_keyword DEFAULT_PRIORITY
  /\ form_priority ∅ = DEFAULT_PRIORITY.
Proof.
  assert (Forall clean_keyword DEFAULT_PRIORITY) as Hc.
  { repeat constructor; by vm_compute. }
  split; [done |]. unfold form_priority. rewrite lookup_empty.
  exact (parse_priority_of_joined DEFAULT_PRIORITY Hc).
Defined.

Lemma parse_priority_example :
  parse_priority " City Bhaskar ,, dainik bhaskar,  "
  = ["City Bhaskar"; "dainik bhaskar"]
  /\ clean_keyword "City Bhaskar".
Proof.
  split; [by vm_compute |].
  apply (parse_priority_keywords_clean " City Bhaskar ,, dainik bhaskar,  " "City Bhaskar").
  vm_compute. constructor.
Defined.

(** ** Saving the uploads *)

Section UploadFacts.
Context `{Uploads}.

Lemma save_uploads_spec files image_paths filename_map :
  (save_uploads files image_paths filename_map).1
  = image_paths ++ (saved_path <$> filter (fun o => accepted o = true) files)
  /\ forall k,
       (save_uploads files image_paths filename_map).2 !! k
       = match last (saved_under k files) with
         | Some o => Some (original_stem o)
         | None => filename_map !! k
         end.
Proof.
  revert image_paths filename_map.
  induction files as [|o files IH]; intros image_paths filename_map.
  - split; [by rewrite app_nil_r | done].
  - cbn [save_uploads]. cbv zeta. fold (accepted o).
    destruct (accepted o) eqn:Ea.
    + destruct (IH (image_paths ++ [temp_path (secure_filename o)])
                  (<[path_str (temp_path (secure_filename o)) := original_stem o]>
                     filename_map)) as [IH1 IH2].
      split.
      * rewrite IH1, <- app_assoc, filter_cons_True by done. done.
      * intros k. rewrite IH2. unfold saved_under.
        destruct (decide (path_str (saved_path o) = k)) as [Ek | Nk].
        -- rewrite filter_cons_True by done. rewrite last_cons.
           destruct (last (filter _ files)); [done |].
           unfold saved_path in Ek. rewrite Ek. apply lookup_insert_eq.
        -- rewrite filter_cons_False by (intros [_ ?]; done).
           destruct (last (filter _ files)); [done |].
           apply lookup_insert_ne. done.
    + destruct (IH image_paths filename_map) as [IH1 IH2]. split.
      * rewrite IH1, filter_cons_False by (intros ?; congruence). done.
      * intros k. rewrite IH2. unfold saved_under.
        rewrite filter_cons_False by (intros [? _]; congruence). done.
Qed.

Lemma save_uploads_names files :
  let saved := save_uploads files [] ∅ in
  saved.1 = saved_path <$> filter (fun o => accepted o = true) files
  /\ (forall k, saved.2 !! k = original_stem <$> last (saved_under k files))
  /\ (forall p, p ∈ saved.1 ->
        exists o, last (saved_under (path_str p) files) = Some o
                  /\ o ∈ files
                  /\ display_name (Some saved.2) p = original_stem o).
Proof.
  cbv zeta. destruct (save_uploads_spec files [] ∅) as [H1 H2].
  destruct (save_uploads files [] ∅) as [image_paths filename_map].
  cbn [fst snd] in *. split; [done |].
  assert (forall k, filename_map !! k = original_stem <$> last (saved_under k files)) as Hm.
  { intros k. rewrite H2. by destruct (last _). }
  split; [done |]. intros p Hp. rewrite H1 in Hp.
  apply list_elem_of_fmap in Hp as (o & -> & Ho).
  apply list_elem_of_filter in Ho as [Ha Ho].
  assert (o ∈ saved_under (path_str (saved_path o)) files) as Hin.
  { unfold saved_under. apply list_elem_of_filter. by split. }
  destruct (last (saved_under (path_str (saved_path o)) files)) as [o'|] eqn:El.
  - exists o'. split; [done |]. split.
    + apply last_Some_elem_of in El. unfold saved_under in El.
      by apply list_elem_of_filter in El as [_ El].
    + unfold display_name. by rewrite Hm, El.
  - apply last_None in El. rewrite El in Hin. by apply elem_of_nil in Hin.
Qed.

(** X13: the paths [generate] hands to [generate_pdf] are the saved
    paths of the uploads with an allowed extension, in upload order;
    the map of original names has an entry for each of them, and under
    a path it holds the stem of the original name of the last upload
    saved there, which is therefore the display name of every page with
    that path. *)
Theorem save_uploads_keeps_original_names (files : list string) :
  let '(image_paths, filename_map) := save_uploads files [] ∅ in
  image_paths = saved_path <$> filter (fun o => accepted o = true) files
  /\ (forall k, filename_map !! k = original_stem <$> last (saved_under k files))
  /\ (forall p, p ∈ image_paths ->
        exists o, last (saved_under (path_str p) files) = Some o
                  /\ o ∈ files
                  /\ display_name (Some filename_map) p = original_stem o).
Proof.
  pose proof (save_uploads_names files) as Hs. cbv zeta in Hs.
  by destruct (save_uploads files [] ∅) as [image_paths filename_map].
Qed.

End UploadFacts.

Section SaveFilesFacts.
Context `{Uploads} `{Server}.

(** The loop of the handler: an exception is the one of saving an
    upload with an allowed extension; when the loop returns, every such
    upload was saved and the result is the one of [save_uploads]. *)
Lemma save_files_spec files image_paths filename_map :
  match save_files files image_paths filename_map with
  | inl e =>
      exists o, o ∈ files /\ accepted o = true
                /\ save_upload o (path_str (saved_path o)) = inl e
  | inr saved =>
      saved = save_uploads files image_paths filename_map
      /\ forall o, o ∈ files -> accepted o = true ->
           save_upload o (path_str (saved_path o)) = inr tt
  end.
Proof.
  revert image_paths filename_map.
  induction files as [|o files IH]; intros image_paths filename_map.
  - split; [done |]. by intros o ?%elem_of_nil.
  - cbn [save_files save_uploads]. cbv zeta. fold (accepted o).
    destruct (accepted o) eqn:Ea.
    + fold (saved_path o).
      destruct (save_upload o (path_str (saved_path o))) as [e|[]] eqn:Es;
        cbn [mbind result_bind].
      { exists o. split; [left |]. done. }
      specialize (IH (image_paths ++ [saved_path o])
                    (<[path_str (saved_path o) := original_stem o]> filename_map)).
      unfold saved_path in IH |- *.
      destruct (save_files files _ _) as [e|saved].
      * destruct IH as (o' & Ho' & Ha' & Es'). exists o'. split; [by right | done].
      * destruct IH as [-> IH]. split; [done |].
        intros o' [-> | Ho']%elem_of_cons Ha'; [done | by apply IH].
    + specialize (IH image_paths filename_map).
      destruct (save_files files _ _) as [e|saved].
      * destruct IH as (o' & Ho' & Ha' & Es'). exists o'. split; [by right | done].
      * destruct IH as [-> IH]. split; [done |].
        intros o' [-> | Ho']%elem_of_cons Ha'; [congruence | by apply IH].
Qed.

End SaveFilesFacts.

(** ** The replies of the handler *)

Section HandlerFacts.
Context `{Pillow} `{Server} `{Uploads}.
Variable int_of_str : string -> result Z.

Local Abbreviation handle := (generate_request int_of_str).
Local Abbreviation output_filename := ("newspapers_" +:+ today +:+ ".pdf").

(** A request that reaches the [try]. *)
Lemma generate_request_eq req first rest :
  req_files req = Some (first :: rest) -> first <> "" ->
  handle req =
  match form_font_size int_of_str (req_form req) with
  | inl e => Raised e
  | inr font_size =>
      match form_bound int_of_str "max_width" (req_form req) with
      | inl e => Raised e
      | inr max_w =>
          match form_bound int_of_str "max_height" (req_form req) with
          | inl e => Raised e
          | inr max_h =>
              match mkdtemp with
              | inl e => Raised e
              | inr _ =>
                  match save_files (first :: rest) [] ∅ with
                  | inl e => Returned (ServerError e)
                  | inr saved =>
                      Returned (generate (req_form req) (form_priority (req_form req))
                                  font_size max_w max_h saved.1 saved.2
                                  output_filename (temp_path output_filename))
                  end
              end
          end
      end
  end.
Proof.
  intros Ef Hne. unfold generate_request. rewrite Ef.
  destruct (decide (first = "")); [done |]. cbv zeta.
  destruct (form_font_size _ _); [done |].
  destruct (form_bound _ "max_width" _); [done |].
  destruct (form_bound _ "max_height" _); [done |].
  destruct mkdtemp; [done |].
  by destruct (save_files _ _ _) as [e|[image_paths filename_map]].
Qed.

(** A request that is not turned away at once. *)
Lemma generate_request_files req :
  (exists msg, handle req = Returned (BadRequest msg)
     /\ ((msg = "No files uploaded" /\ req_files req = None)
         \/ (msg = "No files selected"
             /\ exists files, req_files req = Some files
                              /\ (files = [] \/ head files = Some ""))))
  \/ exists first rest, req_files req = Some (first :: rest) /\ first <> "".
Proof.
  unfold generate_request. destruct (req_files req) as [files|] eqn:Ef.
  - destruct files as [|first rest].
    + left. eexists. split; [done |]. right. split; [done |]. eexists.
      split; [done |]. by left.
    + destruct (decide (first = "")) as [-> | Nf].
      * left. eexists. split; [done |]. right. split; [done |]. eexists.
        split; [done |]. by right.
      * right. by exists first, rest.
  - left. eexists. split; [done |]. by left.
Qed.

Lemma form_bound_error field form e :
  form_bound int_of_str field form = inl e ->
  exists s, form !! field = Some s /\ int_of_str s = inl e.
Proof.
  unfold form_bound. destruct (form !! field) as [s|]; [| done].
  destruct (decide (s = "")); [done |].
  destruct (int_of_str s) as [e1|z] eqn:Es; [| done].
  intros [= <-]. by exists s.
Qed.

(** X14: the handler's replies.  A bad request is one without the files
    field, with an empty list of files or an empty first file name, or
    one none of whose files has an allowed extension.  An exception
    leaves the handler only from [mkdtemp] or from the conversion of a
    numeric field that is present.  A server error carries the
    exception of saving an upload with an allowed extension, or is the
    server error of [generate] for the saved uploads.  A document sent
    has at least one page and at most one page for each file with an
    allowed extension, each of which was saved. *)
Theorem generate_request_cases (req : Request) :
  match handle req with
  | Returned (BadRequest msg) =>
      (msg = "No files uploaded" /\ req_files req = None)
      \/ (msg = "No files selected"
          /\ exists files, req_files req = Some files
                           /\ (files = [] \/ head files = Some ""))
      \/ (msg = "No valid image files uploaded"
          /\ exists files, req_files req = Some files
                           /\ Forall (fun o => accepted o = false) files)
  | Raised e =>
      mkdtemp = inl e
      \/ exists field s,
           field ∈ ["font_size"; "max_width"; "max_height"]
           /\ req_form req !! field = Some s
           /\ int_of_str s = inl e
  | Returned (ServerError e) =>
      exists files,
        req_files req = Some files
        /\ ((exists o, o ∈ files /\ accepted o = true
                       /\ save_upload o (path_str (saved_path o)) = inl e)
            \/ exists font_size max_w max_h,
                 form_font_size int_of_str (req_form req) = inr font_size
                 /\ form_bound int_of_str "max_width" (req_form req) = inr max_w
                 /\ form_bound int_of_str "max_height" (req_form req) = inr max_h
                 /\ generate (req_form req) (form_priority (req_form req))
                      font_size max_w max_h
                      (save_uploads files [] ∅).1 (save_uploads files [] ∅).2
                      output_filename (temp_path output_filename)
                    = ServerError e)
  | Returned (SendFile doc) =>
      exists files,
        req_files req = Some files
        /\ (0 < List.length doc
            <= List.length (filter (fun o => accepted o = true) files))%nat
        /\ forall o, o ∈ files -> accepted o = true ->
             save_upload o (path_str (saved_path o)) = inr tt
  end.
Proof.
  destruct (generate_request_files req)
    as [(msg & -> & Hmsg) | (first & rest & Ef & Hne)].
  { destruct Hmsg as [? | ?]; [by left | right; by left]. }
  rewrite (generate_request_eq req first rest Ef Hne).
  destruct (form_font_size _ _) as [e|font_size] eqn:E1.
  { unfold form_font_size in E1.
    destruct (req_form req !! "font_size") as [s|] eqn:Es; [| done].
    right. exists "font_size", s. split; [| done]. left. }
  destruct (form_bound _ "max_width" _) as [e|max_w] eqn:E2.
  { destruct (form_bound_error _ _ _ E2) as (s & Hs & He).
    right. exists "max_width", s. split; [| done]. right. left. }
  destruct (form_bound _ "max_height" _) as [e|max_h] eqn:E3.
  { destruct (form_bound_error _ _ _ E3) as (s & Hs & He).
    right. exists "max_height", s. split; [| done]. right. right. left. }
  destruct mkdtemp as [e|temp_dir] eqn:Em; [by left |].
  pose proof (save_files_spec (first :: rest) [] ∅) as Hsave.
  destruct (save_files _ _ _) as [e|saved].
  { destruct Hsave as (o & Ho & Ha & Es). eexists. split; [done |]. left.
    by exists o. }
  destruct Hsave as [-> Hsaved].
  destruct (save_uploads_spec (first :: rest) [] ∅) as [Hpaths _]. cbn [app] in Hpaths.
  destruct (generate _ _ _ _ _ _ _ _ _) as [msg | e | doc] eqn:Eg.
  - rewrite generate_eq in Eg.
    destruct ((save_uploads (first :: rest) [] ∅).1) as [|p ps] eqn:Ei.
    + injection Eg as <-. right. right. split; [done |]. eexists. split; [done |].
      apply Forall_forall. intros o Ho. destruct (accepted o) eqn:Ea; [| done].
      assert (o ∈ filter (fun o => accepted o = true) (first :: rest)) as Hin.
      { apply list_elem_of_filter. by split. }
      apply (list_elem_of_fmap_2 saved_path) in Hin. rewrite <- Hpaths in Hin.
      by apply elem_of_nil in Hin.
    + destruct (sort_error _ _); [done |].
      destruct (processed_pages _ _ _ _ _ _ _); [done |].
      destruct (save_all _ _ _); [done |]. by destruct (send_file _ _).
  - eexists. split; [done |]. right. by exists font_size, max_w, max_h.
  - eexists. split; [done |]. split; [| done].
    rewrite generate_eq in Eg.
    destruct ((save_uploads (first :: rest) [] ∅).1) as [|p ps] eqn:Ei; [done |].
    rewrite <- Ei in *. clear Ei.
    destruct (sort_error _ _); [done |].
    destruct (processed_pages _ _ _ _ _ _ _) as [|page more] eqn:Ep; [done |].
    destruct (save_all _ _ _); [done |]. destruct (send_file _ _); [done |].
    injection Eg as <-. split; [simpl; lia |].
    pose proof (processed_skipped_length (form_all_label (req_form req)) font_size
                  max_w max_h (form_no_label (req_form req))
                  (Some (save_uploads (first :: rest) [] ∅).2)
                  (rank (form_priority (req_form req))
                     (Some (save_uploads (first :: rest) [] ∅).2)
                     (save_uploads (first :: rest) [] ∅).1))
      as Hlen.
    rewrite (Permutation_length (rank_perm (form_priority (req_form req))
               (Some (save_uploads (first :: rest) [] ∅).2)
               (save_uploads (first :: rest) [] ∅).1)) in Hlen.
    rewrite Ep, Hpaths, length_fmap in Hlen. lia.
Qed.

(** X15: when labels are not suppressed, every page of the document
    sent for a request carries the [all_label] of the form, if that is
    present and not empty, and otherwise the stem of the original name
    of one of the uploaded files with an allowed extension. *)
Theorem generate_request_labels (req : Request) (doc : list Image) (page : Image) :
  handle req = Returned (SendFile doc) ->
  form_no_label (req_form req) = false ->
  page ∈ doc ->
  exists files o,
    req_files req = Some files
    /\ o ∈ files /\ accepted o = true
    /\ label_text page
       = Some (default (original_stem o) (form_all_label (req_form req))).
Proof.
  intros Hr Hnl Hpage.
  destruct (generate_request_files req)
    as [(msg & Hm & _) | (first & rest & Ef & Hne)]; [congruence |].
  rewrite (generate_request_eq req first rest Ef Hne) in Hr.
  remember (first :: rest) as files eqn:Efiles. clear Efiles Hne.
  destruct (form_font_size _ _) as [e|font_size]; [done |].
  destruct (form_bound _ "max_width" _) as [e|max_w]; [done |].
  destruct (form_bound _ "max_height" _) as [e|max_h]; [done |].
  destruct mkdtemp as [e|temp_dir]; [done |].
  pose proof (save_files_spec files [] ∅) as Hsave.
  destruct (save_files _ _ _) as [e|saved]; [done |].
  destruct Hsave as [-> _]. injection Hr as Eg.
  pose proof (save_uploads_names files) as Hs. cbv zeta in Hs.
  destruct (save_uploads files [] ∅) as [image_paths filename_map].
  cbn [fst snd] in *.
  rewrite generate_eq in Eg. rewrite Hnl in Eg.
  destruct image_paths as [|p0 ps] eqn:Ei; [done |]. rewrite <- Ei in *.
  destruct (sort_error _ _); [done |].
  destruct (processed_pages _ _ _ _ _ _ _) as [|page1 more] eqn:Ep; [done |].
  destruct (save_all _ _ _); [done |]. destruct (send_file _ _); [done |].
  injection Eg as <-. rewrite <- Ep in Hpage.
  apply elem_of_processed in Hpage as (p & Hp & Hproc).
  rewrite rank_perm in Hp.
  apply process_page_label in Hproc.
  destruct Hs as (_ & _ & Hs). destruct (Hs p Hp) as (o & Hl & Ho & Hd).
  exists files, o. split; [done |]. split; [done |]. split.
  - apply last_Some_elem_of in Hl. unfold saved_under in Hl.
    by apply list_elem_of_filter in Hl as [[? _] _].
  - rewrite Hproc. unfold label_for. destruct (form_all_label _); [done |].
    cbn [default]. by rewrite Hd.
Qed.

End HandlerFacts.

Lemma generate_request_labels_example :
  @generate_request simple_pillow simple_server simple_uploads digits_int two_uploads
  = Returned (SendFile [labelled_upload])
  /\ exists files o,
       req_files two_uploads = Some files
       /\ o ∈ files /\ @accepted simple_uploads o = true
       /\ label_text labelled_upload
          = Some (default (@original_stem simple_uploads o)
                    (form_all_label (req_form two_uploads))).
Proof.
  split; [by vm_compute |].
  apply (@generate_request_labels simple_pillow simple_server simple_uploads
           digits_int two_uploads [labelled_upload] labelled_upload);
    [by vm_compute | by vm_compute | vm_compute; constructor].
Defined.

(** ** Rounding, relative to the value

    Rounding to nearest moves a value that is not subnormal by at most
    one unit in the last place, that is by at most the value times
    [2^-52]. *)

Section RelativeRounding.
Import Float.

Local Abbreviation fexp64 := (fexp prec emax).

Lemma Zdigits2_gt m k : 0 <= k -> 2 ^ k <= m -> k < Zdigits2 m.
Proof.
  intros Hk Hm.
  assert (0 < 2 ^ k) by (apply Z.pow_pos_nonneg; lia).
  pose proof (Zdigits2_upper m ltac:(lia)) as Hu.
  pose proof (Zdigits2_nonneg m) as Hd.
  destruct (Z_lt_le_dec k (Zdigits2 m)) as [| Hle]; [done |]. exfalso.
  assert (2 ^ Zdigits2 m <= 2 ^ k) by (apply Z.pow_le_mono_r; lia). lia.
Qed.

Lemma loc_of_shr_record_of_loc m l :
  loc_of_shr_record (shr_record_of_loc m l) = l.
Proof. by destruct l as [|[]]. Qed.

(** A mantissa of at least 53 digits: the first step leaves 53 digits,
    at the exponent of the format. *)
Lemma shr_fexp_big mx ex lx :
  0 < mx -> -1074 <= ex -> 53 <= Zdigits2 mx ->
  let r1 := shr_fexp prec emax mx ex lx in
  let k := Zdigits2 mx - 53 in
  r1.2 = ex + k /\ shr_m r1.1 = mx / 2 ^ k.
Proof.
  intros Hm Hex Hd r1 k.
  destruct (shr_fexp_cases mx ex lx ltac:(lia)) as [(Ht & E) | (Ht & Eq & Ee)];
    rewrite fexp64_eq in *.
  - assert (k = 0) as -> by (unfold k; lia). unfold r1. rewrite E. cbn [fst snd].
    rewrite shr_record_of_loc_m, Z.pow_0_r, Z.div_1_r. split; [lia | done].
  - unfold r1. rewrite Eq, Ee. split; [unfold k; lia |]. f_equal. f_equal.
    unfold k. lia.
Qed.

Lemma binary_round_aux_rel sx mx ex lx :
  0 < mx -> -1074 <= ex ->
  53 <= Zdigits2 mx \/ lx = loc_Exact ->
  match binary_round_aux prec emax sx mx ex lx with
  | S754_finite s m e =>
      s = sx /\ ex <= e
      /\ Zpos m * 2 ^ (e - ex) * 2 ^ 52 <= mx * (2 ^ 52 + 1)
      /\ (53 <= Zdigits2 mx -> 2 ^ 52 <= Zpos m)
  | S754_infinity _ => True
  | _ => False
  end.
Proof.
  intros Hm Hex Hcase. rewrite binary_round_aux_eq. cbv zeta.
  destruct (Z_lt_le_dec (Zdigits2 mx) 53) as [Hsmall | Hbig].
  - destruct Hcase as [? | ->]; [lia |].
    pose proof (Zdigits2_nonneg mx) as Hd0.
    destruct (shr_fexp_cases mx ex loc_Exact ltac:(lia)) as [(Ht & E) | (Ht & _)];
      rewrite fexp64_eq in *; [| lia].
    rewrite E. cbn [fst snd]. rewrite loc_of_shr_record_of_loc, shr_record_of_loc_m.
    cbn [round_nearest_even]. rewrite E. cbn [fst snd].
    rewrite shr_record_of_loc_m.
    destruct mx as [|p|p]; [lia | | lia].
    destruct (_ <=? _); [| done].
    split; [done |]. split; [lia |]. split; [| lia].
    rewrite Z.sub_diag, Z.pow_0_r. lia.
  - destruct (shr_fexp_big mx ex lx Hm Hex Hbig) as [He1 Hm0].
    pose proof (first_round_nonneg mx ex lx ltac:(lia)) as H1. cbv zeta in H1.
    set (r1 := shr_fexp prec emax mx ex lx) in *.
    pose proof (round_nearest_even_bounds (shr_m r1.1) (loc_of_shr_record r1.1)) as Hb.
    set (m1 := round_nearest_even _ _) in *.
    set (k := Zdigits2 mx - 53) in *.
    assert (0 <= k) as Hk by (unfold k; lia).
    assert (0 < 2 ^ k) as Hpk by (apply Z.pow_pos_nonneg; lia).
    set (m0 := shr_m r1.1) in *.
    assert (2 ^ k * 2 ^ 52 <= mx) as Hlow.
    { rewrite <- Z.pow_add_r by lia.
      replace (k + 52) with (Zdigits2 mx - 1) by (unfold k; lia).
      apply Zdigits2_lower. lia. }
    assert (mx < 2 ^ k * 2 ^ 53) as Hup.
    { rewrite <- Z.pow_add_r by lia.
      replace (k + 53) with (Zdigits2 mx) by (unfold k; lia).
      apply Zdigits2_upper. lia. }
    assert (2 ^ 52 <= m0) as Hm0l.
    { rewrite Hm0. apply Z.div_le_lower_bound; lia. }
    assert (m0 < 2 ^ 53) as Hm0u.
    { rewrite Hm0. apply Z.div_lt_upper_bound; lia. }
    assert (m0 * 2 ^ k <= mx) as Hfloor.
    { rewrite Hm0, Z.mul_comm. apply Z.mul_div_le. lia. }
    assert (m1 * 2 ^ k * 2 ^ 52 <= mx * (2 ^ 52 + 1)) as Hval.
    { assert (m1 * 2 ^ k <= mx + 2 ^ k) by nia. nia. }
    assert (53 <= Zdigits2 m1) as Hd1l.
    { assert (52 < Zdigits2 m1); [| lia]. apply Zdigits2_gt; lia. }
    assert (Zdigits2 m1 <= 54) as Hd1u.
    { apply Zdigits2_le; [lia |]. split; [lia |].
      change (2 ^ 54) with (2 * 2 ^ 53). lia. }
    destruct (shr_fexp_cases m1 r1.2 loc_Exact H1) as [(Ht & E) | (Ht & Eq & Ee)];
      rewrite fexp64_eq in *.
    + rewrite E. cbn [fst snd]. rewrite shr_record_of_loc_m.
      assert (Zdigits2 m1 = 53) as Hd1 by lia.
      pose proof (Zdigits2_upper m1 H1) as Hu1. rewrite Hd1 in Hu1.
      destruct m1 as [|p|p] eqn:Em; [lia | | lia].
      destruct (_ <=? _); [| done].
      split; [done |]. split; [lia |]. split; [| lia].
      replace (r1.2 - ex) with k by lia. done.
    + rewrite Eq, Ee.
      assert (Zdigits2 m1 = 54) as Hd1 by lia.
      pose proof (Zdigits2_lower m1 ltac:(lia)) as Hl1. rewrite Hd1 in Hl1.
      change (2 ^ (54 - 1)) with (2 ^ 53) in Hl1.
      assert (m1 = 2 ^ 53) as Em by lia.
      rewrite Hd1, Z.max_l by lia.
      replace (54 + r1.2 - 53 - r1.2) with 1 by lia.
      rewrite Em. change (2 ^ 53 / 2 ^ 1) with (Zpos 4503599627370496).
      cbv iota. destruct (_ <=? _); [| done].
      split; [done |]. split; [lia |]. split; [| by intros _; vm_compute].
      replace (54 + r1.2 - 53 - ex) with (k + 1) by lia.
      rewrite Z.pow_add_r by lia. rewrite Em in Hval.
      change (2 ^ 53) with (2 * Zpos 4503599627370496) in Hval.
      change (2 ^ 1) with 2. lia.
Qed.

End RelativeRounding.

(** ** The ratio of a bound to a larger size *)

Section RatioFacts.
Import Float.

Local Abbreviation fexp64 := (fexp prec emax).

(** The quotient the division hands to the rounding: 53 or 54 digits of
    [a / b], never above it. *)
Lemma SFdiv_core_binary_ratio a b :
  0 < a -> a < b -> b < 2 ^ 53 ->
  let c := SFdiv_core_binary prec emax a 0 b 0 in
  let q0 := c.1.1 in
  let e' := c.1.2 in
  -105 <= e' /\ e' < 0
  /\ 2 ^ 52 <= q0 /\ q0 < 2 ^ (- e') /\ q0 * b <= a * 2 ^ (- e').
Proof.
  intros Ha Hab Hb. unfold SFdiv_core_binary.
  pose proof (Zdigits2_lower a Ha) as Hla.
  pose proof (Zdigits2_upper b ltac:(lia)) as Hub.
  assert (Zdigits2 b <= 53) as Hdb by (apply Zdigits2_le; lia).
  assert (Zdigits2 a <= Zdigits2 b) as Hdab.
  { apply Zdigits2_le; [apply Zdigits2_nonneg | lia]. }
  assert (0 < Zdigits2 a) as Hda.
  { apply (Zdigits2_gt a 0); [lia |]. simpl. lia. }
  rewrite !Z.add_0_r, fexp64_eq, Z.max_l, Z.min_l by lia.
  set (s := 0 - 0 - (Zdigits2 a - Zdigits2 b - 53)).
  assert (s = 53 + Zdigits2 b - Zdigits2 a) as Hs by (unfold s; lia).
  assert (0 < 2 ^ s) as Hps by (apply Z.pow_pos_nonneg; lia).
  assert ((match s with
           | 0 => a
           | Z.pos _ => Z.shiftl a s
           | Z.neg _ => 0
           end) = a * 2 ^ s) as ->.
  { destruct s as [|p|p] eqn:Es; [lia | | lia]. apply Z.shiftl_mul_pow2. lia. }
  pose proof (Z_div_mod (a * 2 ^ s) b ltac:(lia)) as Hdm.
  destruct (Z.div_eucl (a * 2 ^ s) b) as [q r]. cbn [fst snd].
  destruct Hdm as [Hdm Hr].
  replace (- (Zdigits2 a - Zdigits2 b - 53)) with s by lia.
  assert (2 ^ (Zdigits2 a - 1) * 2 ^ s = 2 ^ Zdigits2 b * 2 ^ 52) as Hpow.
  { rewrite <- !Z.pow_add_r by lia. f_equal. lia. }
  assert (0 < 2 ^ 52) by (apply Z.pow_pos_nonneg; lia).
  assert (2 ^ (Zdigits2 a - 1) * 2 ^ s <= a * 2 ^ s) as H1
    by (apply Z.mul_le_mono_nonneg_r; lia).
  assert (b * 2 ^ 52 < 2 ^ Zdigits2 b * 2 ^ 52) as H2
    by (apply Z.mul_lt_mono_pos_r; lia).
  assert (a * 2 ^ s < b * 2 ^ s) as H3 by (apply Z.mul_lt_mono_pos_r; lia).
  assert (b * 2 ^ 52 < b * (q + 1)) as H4 by lia.
  assert (b * q < b * 2 ^ s) as H5 by lia.
  apply Z.mul_lt_mono_pos_l in H4, H5; [| lia | lia].
  clearbody s. split; [lia |]. split; [lia |]. split; [lia |]. split; [done |].
  rewrite Hdm. lia.
Qed.

(** The ratio of a positive bound to a larger size is a normal float,
    at most the exact ratio times [1 + 2^-52]. *)
Lemma int_truediv_pos a b q :
  0 < a -> a < b -> b < 2 ^ 53 -> int_truediv a b = inr q ->
  exists m e,
    q = S754_finite false m e
    /\ 2 ^ 52 <= Zpos m /\ -105 <= e /\ e <= 0
    /\ Zpos m * b * 2 ^ 52 <= a * (2 ^ 52 + 1) * 2 ^ (- e).
Proof.
  intros Ha Hab Hb. unfold int_truediv.
  destruct (b =? 0) eqn:Eb; [apply Z.eqb_eq in Eb; lia |].
  destruct (is_finite _) eqn:Ef; [| done]. intros E. injection E as <-.
  pose proof (SFdiv_core_binary_ratio a b Ha Hab Hb) as Hc. cbv zeta in Hc.
  destruct a as [|pa|pa]; [lia | | lia]. destruct b as [|pb|pb]; [lia | | lia].
  cbn [exact SFdiv] in *.
  destruct (SFdiv_core_binary prec emax (Zpos pa) 0 (Zpos pb) 0) as [[q0 e'] l].
  cbn [fst snd xorb] in *. destruct Hc as (He1 & He2 & Hq1 & Hq2 & Hq3).
  assert (0 < 2 ^ 52) by (apply Z.pow_pos_nonneg; lia).
  pose proof (binary_round_aux_rel false q0 e' l ltac:(lia) ltac:(lia)) as Hrel.
  assert (q0 < 1 * 2 ^ (- e')) as Hq2' by lia.
  assert (0 <= 1 < 2 ^ 53) as H01 by lia.
  pose proof (binary_round_aux_below_signed false q0 e' l 1 ltac:(lia) ltac:(lia)
                H01 (or_introl Hq2')) as Hbel.
  assert (53 <= Zdigits2 q0) as Hd.
  { assert (52 < Zdigits2 q0); [| lia]. apply Zdigits2_gt; lia. }
  specialize (Hrel (or_introl Hd)).
  destruct (binary_round_aux prec emax false q0 e' l) as [| | |s m e]; try done.
  destruct Hrel as (-> & Hee & Hval & Hcan). destruct Hbel as (_ & He0 & _).
  exists m, e. split; [done |]. split; [by apply Hcan |]. split; [lia |].
  split; [done |].
  assert (0 < 2 ^ (e - e')) as HX by (apply Z.pow_pos_nonneg; lia).
  assert (2 ^ (- e') = 2 ^ (e - e') * 2 ^ (- e)) as Hsplit.
  { rewrite <- Z.pow_add_r by lia. f_equal. lia. }
  rewrite Hsplit in Hq3.
  apply (Z.mul_le_mono_pos_r _ _ (2 ^ (e - e')) HX).
  assert (0 < 2 ^ (- e)) by (apply Z.pow_pos_nonneg; lia).
  nia.
Qed.

(** The ratio of a bound that is not positive is not positive. *)
Lemma int_truediv_nonpos a b m e :
  a <= 0 -> 0 < b -> int_truediv a b <> inr (S754_finite false m e).
Proof.
  intros Ha Hb. unfold int_truediv.
  destruct (b =? 0); [done |]. destruct (is_finite _); [| done].
  intros E. injection E as E.
  destruct b as [|pb|pb]; [lia | | lia].
  destruct a as [|pa|pa]; [done | lia |]. cbn [exact SFdiv] in E.
  destruct (SFdiv_core_binary _ _ _ _ _ _) as [[q0 e'] l].
  pose proof (binary_round_aux_sign (xorb true false) q0 e' l) as Hs.
  rewrite E in Hs. done.
Qed.

End RatioFacts.

(** ** A scaled size against the bound *)

Section FitFacts.
Import Float.

Local Abbreviation fexp64 := (fexp prec emax).

(** [float(w)] for a positive [w] below [2^53]: exact, with an exponent
    from -52 to 0. *)
Lemma of_int_pos w x :
  0 < w < 2 ^ 53 -> of_int w = inr x ->
  exists m e, x = S754_finite false m e /\ -53 <= e /\ e <= 0
              /\ Zpos m <= w * 2 ^ (- e).
Proof.
  intros Hw E. pose proof (of_int_below w x ltac:(lia) E) as Hb.
  revert E Hb. unfold of_int.
  destruct (is_finite _) eqn:Ef; [| done]. intros E. injection E as <-.
  destruct w as [|p|p]; [lia | | lia]. clear Ef.
  unfold binary_normalize, binary_round, shl_align.
  assert (Z.pos (digits2_pos p) <= 53) as Hd.
  { apply (Zdigits2_le (Zpos p)); lia. }
  pose proof (Pos2Z.is_pos (digits2_pos p)) as Hd0.
  rewrite Z.add_0_r, fexp64_eq, Z.max_l by lia.
  destruct (Z.pos (digits2_pos p) - 53 - 0) as [|k|k] eqn:Ek; [| lia |].
  - pose proof (binary_round_aux_rel false (Zpos p) 0 loc_Exact ltac:(lia) ltac:(lia)
                  (or_intror eq_refl)) as Hrel.
    destruct (binary_round_aux _ _ _ _ _ _) as [| | |s m e]; try done.
    intros (-> & He & Hm). destruct Hrel as (_ & He' & _).
    exists m, e. split; [done |]. split; [lia |]. done.
  - pose proof (binary_round_aux_rel false (Zpos (Pos.iter xO p k))
                  (Z.pos (digits2_pos p) - 53) loc_Exact ltac:(lia) ltac:(lia)
                  (or_intror eq_refl)) as Hrel.
    destruct (binary_round_aux _ _ _ _ _ _) as [| | |s m e]; try done.
    intros (-> & He & Hm). destruct Hrel as (_ & He' & _).
    exists m, e. split; [done |]. split; [lia |]. done.
Qed.

(** The order of [<] on positive floats gives the order of the values
    when the larger one is normal. *)
Lemma ltb_false_value ms es mq eq :
  Zpos ms < 2 ^ 53 -> 2 ^ 52 <= Zpos mq ->
  ltb (S754_finite false mq eq) (S754_finite false ms es) = false ->
  es <= eq /\ Zpos ms <= Zpos mq * 2 ^ (eq - es).
Proof.
  intros Hs Hq Hlt. apply ltb_false_key in Hlt; [| done | done].
  unfold key3_lt in Hlt. cbn [float_key fst snd] in Hlt.
  assert (es <= eq) as He by lia. split; [done |].
  destruct (Z.eq_dec es eq) as [-> | Hne].
  - rewrite Z.sub_diag, Z.pow_0_r. lia.
  - assert (2 ^ 1 <= 2 ^ (eq - es)) as Hp by (apply Z.pow_le_mono_r; lia).
    change (2 ^ 1) with 2 in Hp. change (2 ^ 53) with (2 ^ 52 * 2) in Hs. nia.
Qed.

(** The arithmetic of the bound: two roundings, each by at most
    [2^-52] of the value, stay below [b + 1]. *)
Lemma two_roundings_below mr mw ms mq w b c A Bq D X R :
  0 < c -> 0 < A -> 0 < Bq -> 0 < D -> 0 < X -> 0 < R ->
  0 <= mr -> 0 <= mw -> 0 <= ms -> 0 <= mq -> 0 <= w -> 0 <= b ->
  mw <= w * A ->
  ms <= mq * D ->
  mq * w * c <= b * (c + 1) * Bq ->
  mr * X * c <= mw * ms * (c + 1) ->
  X * R = A * D * Bq ->
  b * (2 * c + 1) < c * c ->
  mr < (b + 1) * R.
Proof.
  intros Hc HA HB HD HX HR Hmr Hmw Hms Hmq Hw Hb H1 H2 H3 H4 H5 H6.
  assert (mw * ms <= (w * A) * (mq * D)) as H12.
  { apply Z.mul_le_mono_nonneg; lia. }
  assert (mr * X * c * c <= (w * A) * (mq * D) * (c + 1) * c) as H7.
  { apply Z.mul_le_mono_nonneg_r; [lia |].
    etrans; [exact H4 |]. apply Z.mul_le_mono_nonneg_r; lia. }
  assert ((w * A) * (mq * D) * (c + 1) * c = (A * D * (c + 1)) * (mq * w * c)) as E1 by ring.
  assert ((A * D * (c + 1)) * (mq * w * c) <= (A * D * (c + 1)) * (b * (c + 1) * Bq)) as H8.
  { apply Z.mul_le_mono_nonneg_l; [| done].
    apply Z.mul_nonneg_nonneg; [apply Z.mul_nonneg_nonneg |]; lia. }
  assert ((A * D * (c + 1)) * (b * (c + 1) * Bq) = X * (R * (b * ((c + 1) * (c + 1))))) as E2.
  { transitivity ((A * D * Bq) * (b * ((c + 1) * (c + 1)))); [ring |].
    rewrite <- H5. ring. }
  assert (X * (mr * (c * c)) <= X * (R * (b * ((c + 1) * (c + 1))))) as H9.
  { rewrite <- E2. etrans; [| exact H8]. rewrite <- E1.
    replace (X * (mr * (c * c))) with (mr * X * c * c) by ring. done. }
  apply Z.mul_le_mono_pos_l in H9; [| done].
  assert (b * ((c + 1) * (c + 1)) < (b + 1) * (c * c)) as H10.
  { replace (b * ((c + 1) * (c + 1))) with (b * (c * c) + b * (2 * c + 1)) by ring.
    lia. }
  assert (R * (b * ((c + 1) * (c + 1))) < R * ((b + 1) * (c * c))) as H11.
  { apply Z.mul_lt_mono_pos_l; done. }
  assert (mr * (c * c) < ((b + 1) * R) * (c * c)) as H13.
  { replace ((b + 1) * R * (c * c)) with (R * ((b + 1) * (c * c))) by ring. lia. }
  apply Z.mul_lt_mono_pos_r in H13; [done |]. apply Z.mul_pos_pos; done.
Qed.

(** [int(w * scale) <= b] when the scale is at most the ratio [b / w]
    of a positive bound below the size. *)
Lemma scaled_size_fits w b q s fw n :
  0 < b -> b < w -> w < 2 ^ 53 -> b < 2 ^ 50 ->
  int_truediv b w = inr q ->
  scale_ok s -> ltb s one = true -> ltb q s = false ->
  (forall m e, s = S754_finite false m e -> -1000 <= e) ->
  int_mul w s = inr fw -> to_int fw = inr n ->
  n <= b.
Proof.
  intros Hb Hbw Hw Hb50 Eq Hok Hlt Hmin Hexp.
  destruct (int_truediv_pos b w q Hb Hbw Hw Eq)
    as (mq & eq & -> & Hmq & Heq1 & Heq0 & Hq).
  unfold int_mul. destruct (of_int w) as [e|x] eqn:Ex; [done |].
  destruct (of_int_pos w x ltac:(lia) Ex) as (mw & ew & -> & Hew1 & Hew0 & Hmw).
  cbn [mbind result_bind mret result_ret]. intros E. injection E as <-.
  destruct s as [ss | ss | | ss ms es]; try done.
  { cbn [SFmul to_int]. intros E. injection E as <-. lia. }
  cbn [SFmul xorb]. destruct ss.
  - pose proof (binary_round_aux_sign true (Zpos (mw * ms)) (ew + es) loc_Exact) as Hs.
    destruct (binary_round_aux _ _ _ _ _ _) as [| | |s' m' e']; try done.
    + cbn [to_int]. intros E. injection E as <-. lia.
    + subst s'. intros E%to_int_nonpos. lia.
  - simpl in Hok. destruct (ltb_one_value ms es Hok Hlt) as [Hes Hms].
    destruct (ltb_false_value ms es mq eq Hok Hmq Hmin) as [Hle Hval].
    specialize (Hexp ms es eq_refl).
    assert (0 < 2 ^ (- ew)) by (apply Z.pow_pos_nonneg; lia).
    assert (0 < 2 ^ (- es)) by (apply Z.pow_pos_nonneg; lia).
    assert (Zpos (mw * ms) < w * 2 ^ (- (ew + es))) as Hprod.
    { replace (- (ew + es)) with (- ew + - es) by lia.
      rewrite Z.pow_add_r, Pos2Z.inj_mul by lia. nia. }
    assert (0 <= w < 2 ^ 53) as Hw' by lia.
    pose proof (binary_round_aux_below_signed false (Zpos (mw * ms)) (ew + es)
                  loc_Exact w ltac:(lia) ltac:(lia) Hw' (or_introl Hprod)) as Hr.
    pose proof (binary_round_aux_rel false (Zpos (mw * ms)) (ew + es) loc_Exact
                  ltac:(lia) ltac:(lia) (or_intror eq_refl)) as Hrel.
    destruct (binary_round_aux _ _ _ _ _ _) as [| | |s' mr er]; try done.
    destruct Hr as (-> & Her & _). destruct Hrel as (_ & Her' & Hv & _).
    cbn [to_int cond_Zopp]. intros E. injection E as <-.
    rewrite Z.shiftl_div_pow2 by lia.
    assert (Zpos mr < (b + 1) * 2 ^ (- er)) as Hfin.
    { apply (two_roundings_below (Zpos mr) (Zpos mw) (Zpos ms) (Zpos mq) w b
               (2 ^ 52) (2 ^ (- ew)) (2 ^ (- eq)) (2 ^ (eq - es))
               (2 ^ (er - (ew + es))) (2 ^ (- er)));
        try lia; try (apply Z.pow_pos_nonneg; lia).
      rewrite <- !Z.pow_add_r by lia. f_equal. lia. }
    apply Z.lt_succ_r. apply Z.div_lt_upper_bound; [apply Z.pow_pos_nonneg; lia |].
    lia.
Qed.

End FitFacts.

(** ** The scaled image against the bounds *)

Section FitBounds.
Context `{Pillow}.
Import Float.

(** A positive ratio of an exceeded bound is not tiny. *)
Lemma exceeded_ratio_exp size bound m e :
  0 <= size < 2 ^ 53 ->
  S754_finite false m e ∈ exceeded_ratio size bound -> -105 <= e.
Proof.
  intros Hs. unfold exceeded_ratio. destruct bound as [b|]; [| by intros ?%elem_of_nil].
  destruct (b <? size) eqn:Eb; [| by intros ?%elem_of_nil]. apply Z.ltb_lt in Eb.
  destruct (int_truediv b size) as [e'|q] eqn:Eq; [by intros ?%elem_of_nil |].
  intros <-%list_elem_of_singleton.
  assert (size <> 0) as Hne.
  { intros ->. unfold int_truediv in Eq. simpl in Eq. done. }
  destruct (Z_lt_le_dec 0 b) as [Hb | Hb].
  - destruct (int_truediv_pos b size _ Hb Eb ltac:(lia) Eq)
      as (m' & e' & [= -> ->] & _ & He & _). done.
  - exfalso. by apply (int_truediv_nonpos b size m e Hb ltac:(lia)).
Qed.

(** The ratio of a bound to a larger size is below [1.0]. *)
Lemma ratio_below_one b w q :
  0 <= b -> b < w -> w < 2 ^ 52 -> int_truediv b w = inr q -> ltb q one = true.
Proof.
  intros Hb Hbw Hw Eq. destruct (Z.eq_dec b 0) as [-> | Hne].
  - unfold int_truediv in Eq. destruct (w =? 0); [done |].
    destruct w as [|pw|pw]; [lia | | lia]. cbn in Eq. by injection Eq as <-.
  - destruct (int_truediv_pos b w q ltac:(lia) Hbw ltac:(lia) Eq)
      as (m & e & -> & Hm & He1 & He0 & Hv).
    apply ltb_key. split; [done |]. split; [done |]. rewrite one_eq.
    unfold key3_lt. cbn [float_key fst snd]. right. split; [done |]. left.
    destruct (Z_lt_le_dec e (-52)) as [| Hge]; [done |]. exfalso.
    assert (2 ^ (- e) <= 2 ^ 52) as Hp by (apply Z.pow_le_mono_r; lia).
    assert (0 < 2 ^ (- e)) by (apply Z.pow_pos_nonneg; lia).
    assert (0 < 2 ^ 52) as Hc by (apply Z.pow_pos_nonneg; lia).
    assert (b * (2 ^ 52 + 1) * 2 ^ (- e) <= b * (2 ^ 52 + 1) * 2 ^ 52) as H1.
    { apply Z.mul_le_mono_nonneg_l; [| done]. apply Z.mul_nonneg_nonneg; lia. }
    assert (Zpos m * w * 2 ^ 52 <= b * (2 ^ 52 + 1) * 2 ^ 52) as H2 by lia.
    apply Z.mul_le_mono_pos_r in H2; [| done].
    assert (2 ^ 52 * w <= Zpos m * w) as H3 by (apply Z.mul_le_mono_nonneg_r; lia).
    assert (b * (2 ^ 52 + 1) <= (w - 1) * (2 ^ 52 + 1)) as H4
      by (apply Z.mul_le_mono_nonneg_r; lia).
    lia.
Qed.

(** A scale that is zero or negative gives a size that is not
    positive. *)
Lemma scaled_size_nonpos w s fw n :
  0 <= w < 2 ^ 53 ->
  match s with S754_zero _ | S754_finite true _ _ => True | _ => False end ->
  int_mul w s = inr fw -> to_int fw = inr n -> n <= 0.
Proof.
  intros Hw Hs. unfold int_mul.
  destruct (of_int w) as [e|x] eqn:Ex; [done |].
  pose proof (of_int_below w x Hw Ex) as Hx.
  cbn [mbind result_bind mret result_ret]. intros E. injection E as <-.
  destruct x as [sx | sx | | sx mx ex]; try done;
    destruct s as [ss | ss | | [] ms es]; try done;
    try (cbn [SFmul to_int]; intros E; injection E as <-; lia).
  destruct Hx as (-> & _). cbn [SFmul xorb].
  pose proof (binary_round_aux_sign true (Zpos (mx * ms)) (ex + es) loc_Exact) as Hsg.
  destruct (binary_round_aux _ _ _ _ _ _) as [| | |s' m' e']; try done.
  - cbn [to_int]. intros E. injection E as <-. lia.
  - subst s'. intros E%to_int_nonpos. lia.
Qed.

(** One side: the scale is below [1.0] when the bound is exceeded, and
    the scaled size is then within the bound. *)
Lemma side_fits size b q cands s :
  0 <= b -> b < size -> size < 2 ^ 50 ->
  int_truediv b size = inr q -> q ∈ cands ->
  is_min_of s cands ->
  (forall c, c ∈ cands -> scale_ok c) ->
  (forall m e, S754_finite false m e ∈ cands -> -105 <= e) ->
  ltb s one = true
  /\ forall fw n, int_mul size s = inr fw -> to_int fw = inr n -> n <= b.
Proof.
  intros Hb Hbs Hs Eq Hq [Hin Hmin] Hok Hexp.
  pose proof (Hmin q Hq) as Hqs.
  pose proof (ratio_below_one b size q Hb Hbs ltac:(lia) Eq) as Hq1.
  pose proof (Hok s Hin) as Hoks. pose proof (Hok q Hq) as Hokq.
  assert (ltb s one = true) as Hlt.
  { apply ltb_key in Hq1 as (Hnq & Hn1 & Hk1).
    assert (s <> S754_nan) as Hns by (by destruct s).
    apply ltb_false_key in Hqs; [| done | done].
    apply ltb_key. split; [done |]. split; [done |].
    unfold key3_lt in *. lia. }
  split; [done |]. intros fw n E1 E2.
  destruct s as [ss | ss | | [] ms es] eqn:Es; try done;
    try (apply (scaled_size_nonpos size s fw n); subst s; [lia | done | done | done]);
    try (assert (n <= 0); [| lia];
         apply (scaled_size_nonpos size s fw n); subst s; [lia | done | done | done]).
  destruct (Z.eq_dec b 0) as [-> | Hne].
  - exfalso. unfold int_truediv in Eq. destruct (size =? 0); [done |].
    destruct size as [|ps|ps]; [lia | | lia]. cbn in Eq. injection Eq as <-.
    apply ltb_false_key in Hqs; [| done | done].
    apply Hqs. unfold key3_lt. cbn [float_key fst snd]. lia.
  - apply (scaled_size_fits size b q (S754_finite false ms es) fw n); try done; try lia.
    intros m e [= <- <-]. pose proof (Hexp ms es Hin). lia.
Qed.

Lemma scale_factor_ratios w h max_w max_h s :
  scale_factor w h max_w max_h = inr s ->
  (forall b, max_w = Some b -> b < w ->
     exists q, int_truediv b w = inr q /\ q ∈ exceeded_ratio w max_w)
  /\ (forall b, max_h = Some b -> b < h ->
        exists q, int_truediv b h = inr q /\ q ∈ exceeded_ratio h max_h).
Proof.
  unfold scale_factor.
  destruct (apply_bound one w max_w) as [e|s1] eqn:E1; [done |].
  cbn [mbind result_bind]. intros E2. split.
  - intros b -> Hb. unfold apply_bound, exceeded_ratio in *.
    apply Z.ltb_lt in Hb. rewrite Hb in *.
    destruct (int_truediv b w) as [e|q]; [done |]. exists q. split; [done |]. left.
  - intros b -> Hb. unfold apply_bound, exceeded_ratio in *.
    apply Z.ltb_lt in Hb. rewrite Hb in *.
    destruct (int_truediv b h) as [e|q]; [done |]. exists q. split; [done |]. left.
Qed.

(** X16: for an image smaller than [2^50] in both directions, the image
    that [scale_image] returns is within every bound that is set and
    not negative: its width is at most [max_w] and its height at most
    [max_h]. *)
Theorem scale_image_fits_bounds (im : Image) (max_w max_h : option Z) (im' : Image) :
  0 <= width im < 2 ^ 50 -> 0 <= height im < 2 ^ 50 ->
  scale_image im max_w max_h = inr im' ->
  (forall b, max_w = Some b -> 0 <= b -> width im' <= b)
  /\ (forall b, max_h = Some b -> 0 <= b -> height im' <= b).
Proof.
  intros Hw Hh E.
  destruct (decide (max_w = None /\ max_h = None)) as [[-> ->] | N].
  { split; intros b [=]. }
  assert (max_w <> None \/ max_h <> None) as N'.
  { destruct max_w, max_h; [by left | by left | by right |].
    exfalso. by apply N. }
  pose proof E as E0. rewrite (scale_image_eq _ _ _ N') in E.
  destruct (scale_factor (width im) (height im) max_w max_h) as [e|s] eqn:Es; [done |].
  cbn [mbind result_bind] in E.
  pose proof (scale_factor_is_min _ _ _ _ _ Es) as Hmin.
  pose proof (scale_factor_ok _ _ _ _ _ Es) as Hoks.
  destruct (scale_factor_ratios _ _ _ _ _ Es) as [Hrw Hrh].
  set (cands := one :: exceeded_ratio (width im) max_w
                    ++ exceeded_ratio (height im) max_h) in *.
  assert (forall c, c ∈ cands -> scale_ok c) as Hok.
  { intros c [-> | [Hc | Hc]%elem_of_app]%elem_of_cons.
    - apply scale_ok_one.
    - by eapply exceeded_ratio_ok.
    - by eapply exceeded_ratio_ok. }
  assert (forall m e, S754_finite false m e ∈ cands -> -105 <= e) as Hexp.
  { intros m e [Hc | [Hc | Hc]%elem_of_app]%elem_of_cons.
    - rewrite one_eq in Hc. injection Hc as _ ->. lia.
    - apply (exceeded_ratio_exp (width im) max_w m e); [lia | done].
    - apply (exceeded_ratio_exp (height im) max_h m e); [lia | done]. }
  assert (forall b, max_w = Some b -> 0 <= b -> b < width im ->
            ltb s one = true
            /\ forall fw n, int_mul (width im) s = inr fw -> to_int fw = inr n -> n <= b)
    as Hsw.
  { intros b Eb Hb Hlt. destruct (Hrw b Eb Hlt) as (q & Eq & Hq).
    apply (side_fits (width im) b q cands s); try done; try lia.
    unfold cands. right. apply elem_of_app. by left. }
  assert (forall b, max_h = Some b -> 0 <= b -> b < height im ->
            ltb s one = true
            /\ forall fw n, int_mul (height im) s = inr fw -> to_int fw = inr n -> n <= b)
    as Hsh.
  { intros b Eb Hb Hlt. destruct (Hrh b Eb Hlt) as (q & Eq & Hq).
    apply (side_fits (height im) b q cands s); try done; try lia.
    unfold cands. right. apply elem_of_app. by right. }
  destruct (ltb s one) eqn:Hlt.
  - destruct (scale_image_resized _ _ _ _ _ N' Es Hlt E0) as (fw & fh & E1 & E2 & E3 & E4).
    split; intros b Eb Hb.
    + destruct (Z_lt_le_dec b (width im)) as [Hbw | Hbw].
      * destruct (Hsw b Eb Hb Hbw) as [_ Hfit]. by eapply Hfit.
      * assert (width im' <= width im); [| lia].
        apply (scaled_size_le (width im) s fw); [lia | done | done | done | done].
    + destruct (Z_lt_le_dec b (height im)) as [Hbh | Hbh].
      * destruct (Hsh b Eb Hb Hbh) as [_ Hfit]. by eapply Hfit.
      * assert (height im' <= height im); [| lia].
        apply (scaled_size_le (height im) s fh); [lia | done | done | done | done].
  - injection E as <-. split; intros b Eb Hb.
    + destruct (Z_lt_le_dec b (width im)) as [Hbw | Hbw]; [| done].
      by destruct (Hsw b Eb Hb Hbw) as [? _].
    + destruct (Z_lt_le_dec b (height im)) as [Hbh | Hbh]; [| done].
      by destruct (Hsh b Eb Hb Hbh) as [? _].
Qed.

End FitBounds.

Lemma scale_image_fits_bounds_example :
  @scale_image simple_pillow wide_scan (Some 800) (Some 300) = inr wide_scan_scaled
  /\ width wide_scan_scaled <= 800 /\ height wide_scan_scaled <= 300.
Proof.
  split; [by vm_compute |].
  destruct (@scale_image_fits_bounds simple_pillow wide_scan (Some 800) (Some 300)
              wide_scan_scaled) as [Hw Hh];
    [simpl; lia | simpl; lia | by vm_compute |].
  split; [apply (Hw 800); [done | lia] | apply (Hh 300); [done | lia]].
Defined.
